(** * Team scheduling system: record store, schedule generator, notifier

    A shallow embedding of [src/app.js] (classes [DataManager],
    [ScheduleGenerator] and [NotificationManager], the generate dialog of
    [UIManager] and the set-up of the page) together with the properties
    its specification states about them and further properties read off
    the code.

    Conventions of the embedding.
    - A JavaScript object with primitive fields (a member, an activity, a
      schedule entry, the settings) is a finite map from field names to
      primitive values, [obj := gmap string jsval]; reading a missing field
      gives [VUndef], as in JavaScript.  Key order, which only shows in the
      text of [JSON.stringify], is not represented.
    - Numbers are integers ([VNum]) or [VNaN]; fractional numbers and
      infinities are not represented.
    - An array of objects is a [list obj].  Objects of one array are
      distinct heap objects, so a reference to an element is its index;
      code that mutates an element through an alias (the generator through
      [getActiveMembers()], the notifier through [filter]) updates the
      array at that index.
    - [localStorage] is a finite map from keys to the value last written
      under the key.
    - [Date.now()], [Math.random()] and the local time zone are inputs. *)

From Stdlib Require Import Ascii String ZArith Lia List Permutation.
From stdpp Require Import base option list gmap strings pretty sorting.

Local Open Scope Z_scope.

(** ** JavaScript primitive values and flat objects *)

Inductive jsval : Type :=
  | VUndef
  | VNull
  | VBool (b : bool)
  | VNum (n : Z)
  | VNaN
  | VStr (s : string).

#[global] Instance jsval_eq_dec : EqDecision jsval.
Proof. solve_decision. Defined.

(** [a === b] on primitives: same type and same value, and [NaN] differs
    from everything, itself included. *)
Definition strict_eq (a b : jsval) : bool :=
  match a, b with
  | VNaN, _ | _, VNaN => false
  | _, _ => bool_decide (a = b)
  end.

(** [ToBoolean]: the falsy primitives are [undefined], [null], [false],
    [0], [NaN] and the empty string. *)
Definition truthy (v : jsval) : bool :=
  match v with
  | VUndef | VNull | VNaN => false
  | VBool b => b
  | VNum n => negb (n =? 0)
  | VStr s => negb (bool_decide (s = EmptyString))
  end.

Abbreviation obj := (gmap string jsval).

(** [o.k] *)
Definition get (o : obj) (k : string) : jsval := default VUndef (o !! k).

(** [o.k = v] *)
Definition set (o : obj) (k : string) (v : jsval) : obj := <[k := v]> o.

(** [{ ...a, ...b }]: every own field of [b], and the fields of [a] that
    [b] does not have. *)
Definition spread (a b : obj) : obj := b ∪ a.

(** ** Text of numbers *)

Definition digit_char (d : Z) : ascii :=
  ascii_of_nat (48 + Z.to_nat (d mod 10)).

(** The last [w] decimal digits of [n], most significant first. *)
Fixpoint digits (w : nat) (n : Z) : string :=
  match w with
  | O => EmptyString
  | S w' => digits w' (n / 10) +:+ String (digit_char n) EmptyString
  end.

(** [String(n)] for an integer [n]. *)
Definition num_to_string (n : Z) : string := pretty n.

Definition digit_value (c : ascii) : option Z :=
  let n := nat_of_ascii c in
  if (48 <=? n)%nat && (n <=? 57)%nat then Some (Z.of_nat n - 48) else None.

Definition hex_value (c : ascii) : option Z :=
  let n := nat_of_ascii c in
  if (48 <=? n)%nat && (n <=? 57)%nat then Some (Z.of_nat n - 48)
  else if (97 <=? n)%nat && (n <=? 102)%nat then Some (Z.of_nat n - 87)
  else if (65 <=? n)%nat && (n <=? 70)%nat then Some (Z.of_nat n - 55)
  else None.

(** Reads the longest prefix of digits in base [radix]; [acc] is [None]
    until the first digit has been read. *)
Fixpoint read_digits (value : ascii -> option Z) (radix : Z)
    (acc : option Z) (s : string) : option Z :=
  match s with
  | EmptyString => acc
  | String c s' =>
      match value c with
      | Some d => read_digits value radix (Some (default 0 acc * radix + d)) s'
      | None => acc
      end
  end.

Definition is_space (c : ascii) : bool :=
  let n := nat_of_ascii c in
  (n =? 32)%nat || ((9 <=? n)%nat && (n <=? 13)%nat).

Fixpoint skip_spaces (s : string) : string :=
  match s with
  | String c s' => if is_space c then skip_spaces s' else s
  | EmptyString => s
  end.

Definition read_unsigned (s : string) : option Z :=
  match s with
  | String "0"%char (String "x"%char s')
  | String "0"%char (String "X"%char s') =>
      read_digits hex_value 16 None s'
  | _ => read_digits digit_value 10 None s
  end.

(** [parseInt(s)] on a string: leading white space, an optional sign, an
    optional [0x], then the longest run of digits; [None] is [NaN]. *)
Definition parseInt_string (s : string) : option Z :=
  match skip_spaces s with
  | String "-"%char s' => Z.opp <$> read_unsigned s'
  | String "+"%char s' => read_unsigned s'
  | s' => read_unsigned s'
  end.

(** [parseInt(v)]: the argument is first turned into a string. *)
Definition parseInt (v : jsval) : option Z :=
  match v with
  | VNum n => Some n
  | VStr s => parseInt_string s
  | VUndef | VNull | VBool _ | VNaN => None
  end.

(** [ToNumber(v)]; [None] is [NaN].  On strings the empty text and
    unsigned decimal integer literals are covered; any other text is taken
    as [NaN]. *)
Definition all_digits (s : string) : bool :=
  forallb (fun c => bool_decide (is_Some (digit_value c))) (list_ascii_of_string s).

Definition ToNumber (v : jsval) : option Z :=
  match v with
  | VNum n => Some n
  | VNull => Some 0
  | VBool b => Some (if b then 1 else 0)
  | VUndef | VNaN => None
  | VStr s =>
      if bool_decide (s = EmptyString) then Some 0
      else if all_digits s then read_digits digit_value 10 None s
      else None
  end.

Definition of_number (n : option Z) : jsval :=
  match n with Some z => VNum z | None => VNaN end.


(** ** The [Date] library (ECMAScript time values)

    A time value is a number of milliseconds since 1970-01-01T00:00Z; a
    [Date] object holds a time value or [NaN] (an invalid date, [None]
    here).  The getters and setters the program uses work in local time.
    The local zone is a constant offset [tz] (milliseconds east of UTC):
    daylight-saving changes are not represented. *)

Definition msPerDay : Z := 86400000.

Definition Day (t : Z) : Z := t / msPerDay.
Definition TimeWithinDay (t : Z) : Z := t mod msPerDay.

Definition InLeapYear (y : Z) : bool :=
  ((y mod 4 =? 0) && negb (y mod 100 =? 0)) || (y mod 400 =? 0).

Definition DaysInYear (y : Z) : Z := if InLeapYear y then 366 else 365.

(** Day number of 1 January of year [y]. *)
Definition DayFromYear (y : Z) : Z :=
  365 * (y - 1970) + (y - 1969) / 4 - (y - 1901) / 100 + (y - 1601) / 400.

(** The year a day falls in: the largest [y] with [DayFromYear y <= d].
    The mean year has 146097/400 days, which gives the year up to one. *)
Definition YearFromDay (d : Z) : Z :=
  let y := 1970 + (400 * d) / 146097 in
  if DayFromYear (y + 1) <=? d then y + 1
  else if DayFromYear y <=? d then y
  else y - 1.

Definition DayWithinYear (d : Z) : Z := d - DayFromYear (YearFromDay d).

(** Days of the year before month [m] (0 = January). *)
Definition month_start (leap : bool) (m : Z) : Z :=
  let l := if leap then 1 else 0 in
  if m <=? 0 then 0
  else if m =? 1 then 31
  else if m =? 2 then 59 + l
  else if m =? 3 then 90 + l
  else if m =? 4 then 120 + l
  else if m =? 5 then 151 + l
  else if m =? 6 then 181 + l
  else if m =? 7 then 212 + l
  else if m =? 8 then 243 + l
  else if m =? 9 then 273 + l
  else if m =? 10 then 304 + l
  else 334 + l.

Definition MonthFromDay (d : Z) : Z :=
  let leap := InLeapYear (YearFromDay d) in
  let n := DayWithinYear d in
  if n <? month_start leap 1 then 0
  else if n <? month_start leap 2 then 1
  else if n <? month_start leap 3 then 2
  else if n <? month_start leap 4 then 3
  else if n <? month_start leap 5 then 4
  else if n <? month_start leap 6 then 5
  else if n <? month_start leap 7 then 6
  else if n <? month_start leap 8 then 7
  else if n <? month_start leap 9 then 8
  else if n <? month_start leap 10 then 9
  else if n <? month_start leap 11 then 10
  else 11.

(** Day of the month, from 1. *)
Definition DateFromDay (d : Z) : Z :=
  DayWithinYear d - month_start (InLeapYear (YearFromDay d)) (MonthFromDay d) + 1.

(** [MakeDay(year, month, date)]: months outside 0..11 carry into the
    year and days outside the month carry into the following months. *)
Definition MakeDay (year month dt : Z) : Z :=
  let ym := year + month / 12 in
  let mn := month mod 12 in
  DayFromYear ym + month_start (InLeapYear ym) mn + dt - 1.

Definition MakeDate (day time : Z) : Z := day * msPerDay + time.

Abbreviation date := (option Z).

Definition TimeClip (t : Z) : date :=
  if Z.abs t <=? 8640000000000000 then Some t else None.

Definition LocalTime (tz t : Z) : Z := t + tz.
Definition UTC (tz t : Z) : Z := t - tz.

(** Sum of two numbers, either of which may be [NaN]. *)
Definition num_add (a b : option Z) : option Z :=
  x ← a; y ← b; Some (x + y).

Definition num_mul (a b : option Z) : option Z :=
  x ← a; y ← b; Some (x * y).

(** [d.getDate()] and [d.getMonth()] *)
Definition getDate (tz : Z) (d : date) : option Z :=
  t ← d; Some (DateFromDay (Day (LocalTime tz t))).

Definition getMonth (tz : Z) (d : date) : option Z :=
  t ← d; Some (MonthFromDay (Day (LocalTime tz t))).

(** [d.setDate(dt)]: the new value of [d]. *)
Definition setDate (tz : Z) (d : date) (dt : option Z) : date :=
  t ← d; n ← dt;
  let l := LocalTime tz t in
  TimeClip (UTC tz (MakeDate
    (MakeDay (YearFromDay (Day l)) (MonthFromDay (Day l)) n) (TimeWithinDay l))).

(** [d.setMonth(m)] *)
Definition setMonth (tz : Z) (d : date) (m : option Z) : date :=
  t ← d; n ← m;
  let l := LocalTime tz t in
  TimeClip (UTC tz (MakeDate
    (MakeDay (YearFromDay (Day l)) n (DateFromDay (Day l))) (TimeWithinDay l))).

(** [d.setHours(0, 0, 0, 0)] *)
Definition setHours0 (tz : Z) (d : date) : date :=
  t ← d; TimeClip (UTC tz (MakeDate (Day (LocalTime tz t)) 0)).

(** [a <= b] on two [Date] objects: a comparison of time values, false
    when either is [NaN]. *)
Definition date_le (a b : date) : bool :=
  match a, b with
  | Some x, Some y => x <=? y
  | _, _ => false
  end.

(** [a.getTime() === b.getTime()] *)
Definition time_eq (a b : date) : bool :=
  match a, b with
  | Some x, Some y => x =? y
  | _, _ => false
  end.

Definition year_text (y : Z) : string :=
  if (0 <=? y) && (y <=? 9999) then digits 4 y
  else (if y <? 0 then "-" else "+") +:+ digits 6 (Z.abs y).

(** The calendar date of a day number, as [YYYY-MM-DD]. *)
Definition date_text (d : Z) : string :=
  year_text (YearFromDay d) +:+ "-" +:+ digits 2 (MonthFromDay d + 1)
    +:+ "-" +:+ digits 2 (DateFromDay d).

(** [d.toISOString()] for a valid time value (on an invalid date it
    throws a [RangeError]): the UTC reading of the time value. *)
Definition toISOString (t : Z) : string :=
  let ms := TimeWithinDay t in
  date_text (Day t) +:+ "T" +:+ digits 2 (ms / 3600000) +:+ ":"
    +:+ digits 2 (ms / 60000 mod 60) +:+ ":" +:+ digits 2 (ms / 1000 mod 60)
    +:+ "." +:+ digits 3 (ms mod 1000) +:+ "Z".

(** [s.split('T')[0]]: the text before the first [T]. *)
Fixpoint before_T (s : string) : string :=
  match s with
  | EmptyString => EmptyString
  | String c s' => if Ascii.eqb c "T" then EmptyString else String c (before_T s')
  end.

Definition two_digits (a b : ascii) : option Z :=
  x ← digit_value a; y ← digit_value b; Some (10 * x + y).

(** [Date.parse] on the date-only form [YYYY-MM-DD], which denotes
    midnight UTC of that day.  Month 01..12 and day 01..31 are accepted, a
    day past the end of the month carrying over.  Every other text is
    taken as unparsable: the other forms [Date.parse] may accept are not
    represented. *)
Definition Date_parse (s : string) : date :=
  match s with
  | String y1 (String y2 (String y3 (String y4 (String sep1
      (String m1 (String m2 (String sep2
        (String d1 (String d2 EmptyString))))))))) =>
      yh ← two_digits y1 y2; yl ← two_digits y3 y4;
      m ← two_digits m1 m2; d ← two_digits d1 d2;
      if Ascii.eqb sep1 "-" && Ascii.eqb sep2 "-"
         && (1 <=? m) && (m <=? 12) && (1 <=? d) && (d <=? 31)
      then TimeClip (MakeDate (MakeDay (100 * yh + yl) (m - 1) d) 0)
      else None
  | _ => None
  end.

(** [new Date(v)] for a primitive [v]: a string is parsed, anything else
    is converted to a number and taken as a time value. *)
Definition new_Date (v : jsval) : date :=
  match v with
  | VStr s => Date_parse s
  | _ => ToNumber v ≫= TimeClip
  end.

(** ** Arrays of objects, references and in-place mutation *)

(** [arr.findIndex(p)]; [None] stands for [-1]. *)
Fixpoint findIndex (p : obj -> bool) (l : list obj) : option nat :=
  match l with
  | [] => None
  | x :: l' => if p x then Some O else S <$> findIndex p l'
  end.

(** References (indices from [i] on) to the elements [arr.filter(p)]
    returns: [filter] copies the array, not its elements. *)
Fixpoint refs_from (p : obj -> bool) (i : nat) (l : list obj) : list nat :=
  match l with
  | [] => []
  | x :: l' => if p x then i :: refs_from p (S i) l' else refs_from p (S i) l'
  end.

Definition refs_where (p : obj -> bool) (l : list obj) : list nat :=
  refs_from p O l.

(** [refs.forEach(x => mutate x)] on the array the references point into. *)
Definition update_refs (f : obj -> obj) (refs : list nat) (heap : list obj)
    : list obj :=
  foldl (fun h r => alter f r h) heap refs.

(** [arr.sort(cmp)]: the sort is stable.  [le a b] says that [cmp(a, b)]
    is not positive, so that [a] stays in front of [b]. *)
Fixpoint insert_sorted {A} (le : A -> A -> bool) (x : A) (l : list A) : list A :=
  match l with
  | [] => [x]
  | y :: l' => if le x y then x :: l else y :: insert_sorted le x l'
  end.

Fixpoint stable_sort {A} (le : A -> A -> bool) (l : list A) : list A :=
  match l with
  | [] => []
  | x :: l' => insert_sorted le x (stable_sort le l')
  end.

(** ** DataManager *)

(** What [JSON.stringify] wrote under a [localStorage] key. *)
Inductive document : Type :=
  | DocArray (l : list obj)
  | DocObject (o : obj).

Record DataManager : Type := {
  members : list obj;
  activities : list obj;
  schedules : list obj;
  settings : obj;
  localStorage : gmap string document
}.

(** [saveData(key, data)] *)
Definition saveData (key : string) (data : document) (dm : DataManager)
    : DataManager :=
  {| members := members dm; activities := activities dm;
     schedules := schedules dm; settings := settings dm;
     localStorage := <[key := data]> (localStorage dm) |}.

Definition with_members (ms : list obj) (dm : DataManager) : DataManager :=
  {| members := ms; activities := activities dm; schedules := schedules dm;
     settings := settings dm; localStorage := localStorage dm |}.

Definition with_activities (acts : list obj) (dm : DataManager) : DataManager :=
  {| members := members dm; activities := acts; schedules := schedules dm;
     settings := settings dm; localStorage := localStorage dm |}.

Definition with_schedules (ss : list obj) (dm : DataManager) : DataManager :=
  {| members := members dm; activities := activities dm; schedules := ss;
     settings := settings dm; localStorage := localStorage dm |}.

Definition with_settings (o : obj) (dm : DataManager) : DataManager :=
  {| members := members dm; activities := activities dm;
     schedules := schedules dm; settings := o;
     localStorage := localStorage dm |}.

(** [addMember(member)]; [now] is the reading of [Date.now()].  The
    result is the stored member (the caller's object, mutated). *)
Definition addMember (now : Z) (member : obj) (dm : DataManager)
    : obj * DataManager :=
  let member := set member "id" (VStr (num_to_string now)) in
  let member := set member "participationCount" (VNum 0) in
  let member := set member "status" (VStr "active") in
  let dm := with_members (members dm ++ [member]) dm in
  (member, saveData "members" (DocArray (members dm)) dm).

(** [updateMember(id, updates)]; [None] is the [null] result. *)
Definition updateMember (id : jsval) (updates : obj) (dm : DataManager)
    : option obj * DataManager :=
  match findIndex (fun m => strict_eq (get m "id") id) (members dm) with
  | Some index =>
      let dm := with_members
        (alter (fun m => spread m updates) index (members dm)) dm in
      let dm := saveData "members" (DocArray (members dm)) dm in
      (members dm !! index, dm)
  | None => (None, dm)
  end.

Definition deleteMember (id : jsval) (dm : DataManager) : DataManager :=
  let dm := with_members
    (filter (fun m => negb (strict_eq (get m "id") id) = true) (members dm)) dm in
  saveData "members" (DocArray (members dm)) dm.

Definition is_active (m : obj) : bool :=
  strict_eq (get m "status") (VStr "active").

(** [getActiveMembers()]: a new array of references to the active
    members; [active_members] is the same array read as values. *)
Definition getActiveMembers (dm : DataManager) : list nat :=
  refs_where is_active (members dm).

Definition active_members (dm : DataManager) : list obj :=
  filter (fun m => is_active m = true) (members dm).

Definition addActivity (now : Z) (activity : obj) (dm : DataManager)
    : obj * DataManager :=
  let activity := set activity "id" (VStr (num_to_string now)) in
  let dm := with_activities (activities dm ++ [activity]) dm in
  (activity, saveData "activities" (DocArray (activities dm)) dm).

Definition updateActivity (id : jsval) (updates : obj) (dm : DataManager)
    : option obj * DataManager :=
  match findIndex (fun a => strict_eq (get a "id") id) (activities dm) with
  | Some index =>
      let dm := with_activities
        (alter (fun a => spread a updates) index (activities dm)) dm in
      let dm := saveData "activities" (DocArray (activities dm)) dm in
      (activities dm !! index, dm)
  | None => (None, dm)
  end.

(** [addSchedule(schedule)]; [id] is the text
    [Date.now().toString() + Math.random()] of this call. *)
Definition addSchedule (id : string) (schedule : obj) (dm : DataManager)
    : obj * DataManager :=
  let schedule := set schedule "id" (VStr id) in
  let dm := with_schedules (schedules dm ++ [schedule]) dm in
  (schedule, saveData "schedules" (DocArray (schedules dm)) dm).

Definition clearSchedules (dm : DataManager) : DataManager :=
  let dm := with_schedules [] dm in
  saveData "schedules" (DocArray (schedules dm)) dm.

(** A top-level key of an exported or imported document: missing, present
    with a falsy value ([null], [false], [0], the empty string), or
    present with a collection. *)
Inductive field (A : Type) : Type :=
  | Absent
  | Falsy
  | Present (a : A).
Arguments Absent {A}.
Arguments Falsy {A}.
Arguments Present {A} a.

Record snapshot : Type := {
  snap_members : field (list obj);
  snap_activities : field (list obj);
  snap_schedules : field (list obj);
  snap_settings : field obj;
  snap_exportDate : jsval
}.

(** [exportData()]; [now] is the clock reading of [new Date()]. *)
Definition exportData (now : Z) (dm : DataManager) : snapshot :=
  {| snap_members := Present (members dm);
     snap_activities := Present (activities dm);
     snap_schedules := Present (schedules dm);
     snap_settings := Present (settings dm);
     snap_exportDate := VStr (toISOString now) |}.

(** [if (data.key) { this.key = data.key; this.saveData(...) }] *)
Definition import_field {A} (f : field A) (apply : A -> DataManager -> DataManager)
    (dm : DataManager) : DataManager :=
  match f with
  | Present a => apply a dm
  | Absent | Falsy => dm
  end.

Definition importData (data : snapshot) (dm : DataManager) : DataManager :=
  let dm := import_field (snap_members data)
    (fun a dm => saveData "members" (DocArray a) (with_members a dm)) dm in
  let dm := import_field (snap_activities data)
    (fun a dm => saveData "activities" (DocArray a) (with_activities a dm)) dm in
  let dm := import_field (snap_schedules data)
    (fun a dm => saveData "schedules" (DocArray a) (with_schedules a dm)) dm in
  import_field (snap_settings data)
    (fun a dm => saveData "settings" (DocObject a) (with_settings a dm)) dm.

(** ** ScheduleGenerator *)

(** What a call can throw.  [NoActiveMembers] and [NoActivities] are the
    two [Error]s [generate] raises itself; [TypeError] is a property read
    on [undefined], [RangeError] is [toISOString] on an invalid date. *)
Inductive error : Type :=
  | NoActiveMembers
  | NoActivities
  | TypeError
  | RangeError.

(** How a loop ended: it ran to its end, threw, or was still running when
    the fuel given to it was used up. *)
Inductive status : Type :=
  | Completed
  | Threw (e : error)
  | OutOfFuel.

(** [m.participationCount] as a number, through a reference. *)
Definition count_of (heap : list obj) (r : nat) : option Z :=
  m ← heap !! r; ToNumber (get m "participationCount").

(** The comparator [(a, b) => a.participationCount - b.participationCount]
    leaves [a] in front of [b] when the difference is not positive; a
    [NaN] difference counts as zero. *)
Definition count_le (heap : list obj) (a b : nat) : bool :=
  match count_of heap a, count_of heap b with
  | Some x, Some y => x - y <=? 0
  | _, _ => true
  end.

(** [member.participationCount++] *)
Definition increment (m : obj) : obj :=
  set m "participationCount"
    (of_number (num_add (ToNumber (get m "participationCount")) (Some 1))).

(** One emitted occurrence: the object pushed on [schedules], and, as
    ghost data kept for the statements below, the reference of the member
    assigned, the [sortedMembers] array at the time of selection, and the
    members as they were at the instant of the assignment (before its
    increment). *)
Record occurrence : Type := {
  occ_entry : obj;
  occ_member : nat;
  occ_array : list nat;
  occ_heap : list obj
}.

(** The variables of [generateActivitySchedules], with the members array
    its references point into and the number of [Math.random()] calls
    made so far. *)
Record loop_state : Type := {
  currentDate : date;
  memberIndex : nat;
  sortedMembers : list nat;
  heap : list obj;
  draws : nat;
  emitted : list occurrence
}.

(** The [switch (algorithm)]: the member selected ([None] for
    [undefined]) with the new [memberIndex], [sortedMembers] and count of
    draws.  [Math.floor(Math.random() * n)] is an index below [n]: the
    k-th call gives [rnd k mod n]. *)
Definition select (algorithm : jsval) (rnd : nat -> nat) (st : loop_state)
    : option nat * (nat * list nat * nat) :=
  let sorted := sortedMembers st in
  if strict_eq algorithm (VStr "rotation") then
    (sorted !! (memberIndex st mod length sorted)%nat,
     (S (memberIndex st), sorted, draws st))
  else if strict_eq algorithm (VStr "random") then
    (sorted !! (rnd (draws st) mod length sorted)%nat,
     (memberIndex st, sorted, S (draws st)))
  else if strict_eq algorithm (VStr "balanced") then
    let sorted := stable_sort (count_le (heap st)) sorted in
    (sorted !! O, (memberIndex st, sorted, draws st))
  else
    (sorted !! O, (memberIndex st, sorted, draws st)).

(** The date computation that ends the loop body. *)
Definition advance (tz : Z) (frequencyUnit : jsval) (frequency : option Z)
    (d : date) : date :=
  if strict_eq frequencyUnit (VStr "days") then
    setDate tz d (num_add (getDate tz d) frequency)
  else if strict_eq frequencyUnit (VStr "weeks") then
    setDate tz d (num_add (getDate tz d) (num_mul frequency (Some 7)))
  else if strict_eq frequencyUnit (VStr "months") then
    setMonth tz d (num_add (getMonth tz d) frequency)
  else d.

Definition make_entry (activity member : obj) (t : Z) : obj :=
  {[ "activityId" := get activity "id";
     "activityName" := get activity "name";
     "memberId" := get member "id";
     "memberName" := get member "name";
     "date" := VStr (before_T (toISOString t));
     "notified" := VBool false ]}.

(** One run of the loop body. *)
Definition loop_body (tz : Z) (rnd : nat -> nat) (activity : obj)
    (algorithm : jsval) (st : loop_state) : error + loop_state :=
  let '(assigned, (index, sorted, drawn)) := select algorithm rnd st in
  match assigned ≫= (fun r => (fun m => (r, m)) <$> heap st !! r) with
  | None => inl TypeError
  | Some (r, assignedMember) =>
      match currentDate st with
      | None => inl RangeError
      | Some t =>
          inr {| currentDate :=
                   advance tz (get activity "frequencyUnit")
                     (parseInt (get activity "frequency")) (Some t);
                 memberIndex := index;
                 sortedMembers := sorted;
                 heap := alter increment r (heap st);
                 draws := drawn;
                 emitted := emitted st ++
                   [ {| occ_entry := make_entry activity assignedMember t;
                        occ_member := r;
                        occ_array := sortedMembers st;
                        occ_heap := heap st |} ] |}
      end
  end.

(** [while (currentDate <= endDate) { ... }] *)
Fixpoint while_loop (fuel : nat) (tz : Z) (rnd : nat -> nat) (activity : obj)
    (algorithm : jsval) (endDate : date) (st : loop_state)
    : status * loop_state :=
  if date_le (currentDate st) endDate then
    match fuel with
    | O => (OutOfFuel, st)
    | S fuel' =>
        match loop_body tz rnd activity algorithm st with
        | inl e => (Threw e, st)
        | inr st' => while_loop fuel' tz rnd activity algorithm endDate st'
        end
    end
  else (Completed, st).

(** [generateActivitySchedules(activity, members, startDate, endDate,
    algorithm)], run on the members array [heap0] after [drawn] calls of
    [Math.random()].  The [schedules] it returns are the [occ_entry] of
    the [emitted] occurrences of the final state. *)
Definition generateActivitySchedules (fuel : nat) (tz : Z) (rnd : nat -> nat)
    (activity : obj) (members : list nat) (startDate endDate : date)
    (algorithm : jsval) (heap0 : list obj) (drawn : nat)
    : status * loop_state :=
  while_loop fuel tz rnd activity algorithm endDate
    {| currentDate := startDate;
       memberIndex := O;
       sortedMembers := stable_sort (count_le heap0) members;
       heap := heap0;
       draws := drawn;
       emitted := [] |}.

(** [activities.forEach(activity => schedules.push(...
    generateActivitySchedules(...)))]: the occurrences of all activities
    so far, the members array and the draws made. *)
Fixpoint forEach_activity (fuel : nat) (tz : Z) (rnd : nat -> nat)
    (todo : list obj) (members : list nat) (startDate endDate : date)
    (algorithm : jsval) (acc : list occurrence) (heap0 : list obj)
    (drawn : nat) : status * (list occurrence * list obj * nat) :=
  match todo with
  | [] => (Completed, (acc, heap0, drawn))
  | activity :: todo' =>
      let '(s, st) := generateActivitySchedules fuel tz rnd activity members
                        startDate endDate algorithm heap0 drawn in
      match s with
      | Completed =>
          forEach_activity fuel tz rnd todo' members startDate endDate
            algorithm (acc ++ emitted st) (heap st) (draws st)
      | _ => (s, (acc ++ emitted st, heap st, draws st))
      end
  end.

(** [schedules.forEach(schedule => this.dataManager.addSchedule(schedule))]:
    the k-th call gives the id [ids k]; the objects of the local array
    are the stored ones, so the array is returned with the ids set. *)
Fixpoint forEach_addSchedule (ids : nat -> string) (k : nat)
    (todo : list obj) (dm : DataManager) : list obj * DataManager :=
  match todo with
  | [] => ([], dm)
  | schedule :: todo' =>
      let '(stored, dm) := addSchedule (ids k) schedule dm in
      let '(rest, dm) := forEach_addSchedule ids (S k) todo' dm in
      (stored :: rest, dm)
  end.

Inductive outcome (A : Type) : Type :=
  | Returned (a : A)
  | Thrown (e : error)
  | Diverged.
Arguments Returned {A} a.
Arguments Thrown {A} e.
Arguments Diverged {A}.

(** A run of [generate]: what the call gave, the data manager it left,
    and (ghost) the occurrences emitted, in emission order. *)
Record generation : Type := {
  gen_result : outcome (list obj);
  gen_store : DataManager;
  gen_trace : list occurrence
}.

Definition reset_count (m : obj) : obj := set m "participationCount" (VNum 0).

(** [generate(startDate, endDate)].  [fuel] bounds the iterations of each
    activity's loop. *)
Definition generate (fuel : nat) (tz : Z) (rnd : nat -> nat)
    (ids : nat -> string) (startDate endDate : date) (dm : DataManager)
    : generation :=
  let acts := activities dm in
  let actives := getActiveMembers dm in
  let algorithm := get (settings dm) "algorithm" in
  if (length actives =? 0)%nat then
    {| gen_result := Thrown NoActiveMembers; gen_store := dm; gen_trace := [] |}
  else if (length acts =? 0)%nat then
    {| gen_result := Thrown NoActivities; gen_store := dm; gen_trace := [] |}
  else
    let dm := clearSchedules dm in
    let dm := with_members (update_refs reset_count actives (members dm)) dm in
    let '(s, (occs, heap1, _)) :=
      forEach_activity fuel tz rnd acts actives startDate endDate algorithm
        [] (members dm) O in
    let dm := with_members heap1 dm in
    match s with
    | Completed =>
        let '(result, dm) :=
          forEach_addSchedule ids O (map occ_entry occs) dm in
        let dm := saveData "members" (DocArray (members dm)) dm in
        {| gen_result := Returned result; gen_store := dm; gen_trace := occs |}
    | Threw e =>
        {| gen_result := Thrown e; gen_store := dm; gen_trace := occs |}
    | OutOfFuel =>
        {| gen_result := Diverged; gen_store := dm; gen_trace := occs |}
    end.

(** ** NotificationManager *)

(** [n + v] where [n] is a number, then [ToNumber] as [setDate] applies
    it: with a string, [+] concatenates. *)
Definition plus_value (n : option Z) (v : jsval) : option Z :=
  match v with
  | VStr s =>
      match n with
      | Some x => ToNumber (VStr (num_to_string x +:+ s))
      | None => ToNumber (VStr ("NaN" +:+ s))
      end
  | _ => num_add n (ToNumber v)
  end.

(** The date the scan looks for: local midnight of today, moved on by
    [settings.notificationDays]. *)
Definition targetDate (tz now : Z) (dm : DataManager) : date :=
  let today := setHours0 tz (Some now) in
  setDate tz today (plus_value (getDate tz today) (get (settings dm) "notificationDays")).

(** The predicate of [schedules.filter(...)]. *)
Definition due (tz : Z) (target : date) (s : obj) : bool :=
  let scheduleDate := setHours0 tz (new_Date (get s "date")) in
  time_eq scheduleDate target && negb (truthy (get s "notified")).

Definition mark_notified (s : obj) : obj := set s "notified" (VBool true).

(** [schedules.forEach(schedule => { this.sendNotification(schedule);
    schedule.notified = true })]: the entries handed to the notification
    sink, in order, and the schedules array after the marks. *)
Fixpoint forEach_notify (todo : list nat) (sent : list obj) (ss : list obj)
    : list obj * list obj :=
  match todo with
  | [] => (sent, ss)
  | r :: todo' =>
      match ss !! r with
      | Some schedule =>
          forEach_notify todo' (sent ++ [schedule]) (alter mark_notified r ss)
      | None => forEach_notify todo' sent ss
      end
  end.

(** [checkUpcomingSchedules()]; [now] is the clock reading of
    [new Date()].  The first component lists the entries for which
    [sendNotification] was called. *)
Definition checkUpcomingSchedules (tz now : Z) (dm : DataManager)
    : list obj * DataManager :=
  if negb (truthy (get (settings dm) "notificationEnabled")) then ([], dm)
  else
    let target := targetDate tz now dm in
    let selected := refs_where (due tz target) (schedules dm) in
    let '(sent, ss) := forEach_notify selected [] (schedules dm) in
    let dm := with_schedules ss dm in
    if (0 <? length selected)%nat
    then (sent, saveData "schedules" (DocArray (schedules dm)) dm)
    else (sent, dm).

(** ** Notions used in the statements *)

(** What an update does to a collection [before], given the record [m]
    at index [i] that it found: the call returned the merge of [m] and
    the partial fields, the collection [after] differs from [before] at
    index [i] only, and the merged record has the partial fields and,
    for every field they do not name, the field of [m]. *)
Definition merged_at (before after : list obj) (i : nat) (m updates : obj)
    (returned : option obj) : Prop :=
  returned = Some (spread m updates) ∧
  after !! i = Some (spread m updates) ∧
  length after = length before ∧
  (∀ j, j ≠ i → after !! j = before !! j) ∧
  (∀ k, updates !! k = None → spread m updates !! k = m !! k) ∧
  (∀ k v, updates !! k = Some v → spread m updates !! k = Some v).

(** A call of one of the two update functions, and a run of such calls. *)
Inductive update_call : Type :=
  | UpdateMember (id : jsval) (updates : obj)
  | UpdateActivity (id : jsval) (updates : obj).

Definition call_updates (c : update_call) : obj :=
  match c with UpdateMember _ u | UpdateActivity _ u => u end.

Definition run_call (dm : DataManager) (c : update_call) : DataManager :=
  match c with
  | UpdateMember id u => (updateMember id u dm).2
  | UpdateActivity id u => (updateActivity id u dm).2
  end.

Definition run_calls (calls : list update_call) (dm : DataManager) : DataManager :=
  foldl run_call dm calls.

(** The [id] fields of a collection, position by position. *)
Definition id_fields (l : list obj) : list (option jsval) :=
  (λ m : obj, m !! "id") <$> l.

(** A collection after an import: the payload's value when the key holds
    one, the previous value otherwise. *)
Definition imported {A} (f : field A) (previous : A) : A :=
  match f with Present a => a | Absent | Falsy => previous end.

(** The same payload with another [exportDate]. *)
Definition with_exportDate (v : jsval) (data : snapshot) : snapshot :=
  {| snap_members := snap_members data; snap_activities := snap_activities data;
     snap_schedules := snap_schedules data; snap_settings := snap_settings data;
     snap_exportDate := v |}.

(** What storage holds under a collection's key after an import. *)
Definition imported_document {A} (f : field A) (wrap : A → document)
    (previous : option document) : option document :=
  match f with Present a => Some (wrap a) | Absent | Falsy => previous end.

(** The update the loop body applies to [currentDate]. *)
Definition step_of (tz : Z) (activity : obj) : date → date :=
  advance tz (get activity "frequencyUnit") (parseInt (get activity "frequency")).

(** The date of the [i]-th pass of the loop, counting from 0. *)
Definition occurrence_date (tz : Z) (activity : obj) (startDate : date)
    (i : nat) : date :=
  Nat.iter i (step_of tz activity) startDate.

(** [n] is the number of stepping dates in the window: the dates of the
    passes before the [n]-th are at most [endDate], and the [n]-th is
    not. *)
Definition occurrence_count (tz : Z) (activity : obj) (startDate endDate : date)
    (n : nat) : Prop :=
  (∀ i, (i < n)%nat → date_le (occurrence_date tz activity startDate i) endDate = true)
  ∧ date_le (occurrence_date tz activity startDate n) endDate = false.

(** The invariant of the Activity data model: a frequency of at least 1
    and one of the three units. *)
Definition well_formed_activity (activity : obj) : Prop :=
  (∃ f, parseInt (get activity "frequency") = Some f ∧ 1 ≤ f) ∧
  (get activity "frequencyUnit" = VStr "days" ∨
   get activity "frequencyUnit" = VStr "weeks" ∨
   get activity "frequencyUnit" = VStr "months").

(** Every reference of [refs] points at a member with a numeric count. *)
Definition counted (heap : list obj) (refs : list nat) : Prop :=
  ∀ r, r ∈ refs → is_Some (count_of heap r).

(** The invariant of the loop for the references [members] it was
    called with: [sortedMembers] holds the same references, there is at
    least one, and each points into the members array. *)
Definition loop_inv (members : list nat) (st : loop_state) : Prop :=
  sortedMembers st ≡ₚ members ∧ members ≠ [] ∧
  ∀ r, r ∈ members → is_Some (heap st !! r).

(** The occurrence emitted by the [i]-th pass of the loop for [activity]. *)
Definition emitted_at (tz : Z) (activity : obj) (members : list nat)
    (startDate : date) (i : nat) (occ : occurrence) : Prop :=
  ∃ t m, occurrence_date tz activity startDate i = Some t ∧
    occ_member occ ∈ members ∧
    occ_heap occ !! occ_member occ = Some m ∧
    occ_entry occ = make_entry activity m t.

(** The text has no letter [T]. *)
Fixpoint no_T (s : string) : bool :=
  match s with
  | EmptyString => true
  | String c s' => negb (Ascii.eqb c "T") && no_T s'
  end.

(** The occurrences one activity contributes: one per stepping date of
    the window, in order. *)
Definition activity_occurrences (tz : Z) (members : list nat)
    (startDate endDate : date) (activity : obj) (occs : list occurrence) : Prop :=
  occurrence_count tz activity startDate endDate (length occs) ∧
  ∀ i occ, occs !! i = Some occ → emitted_at tz activity members startDate i occ.


(** [member.key] through a reference. *)
Definition member_field (heap : list obj) (r : nat) (key : string) : jsval :=
  from_option (λ m, get m key) VUndef (heap !! r).

(** Every occurrence of a loop names, in its entry, the member its
    reference points at: [memberId] and [memberName] are that member's
    [id] and [name], which no pass changes. *)
Definition names_member (heap0 : list obj) (occ : occurrence) : Prop :=
  get (occ_entry occ) "memberId" = member_field heap0 (occ_member occ) "id" ∧
  get (occ_entry occ) "memberName" = member_field heap0 (occ_member occ) "name".

(** The number of occurrences assigned to the member behind [r]. *)
Definition assignments (r : nat) (occs : list occurrence) : nat :=
  length (filter (λ occ, occ_member occ = r) occs).

(** Under rotation the snapshot is never re-sorted, and the [j]-th
    occurrence of the activity goes to the member at index [j] modulo the
    number of members. *)
Definition rotates (snapshot : list nat) (st : loop_state) : Prop :=
  sortedMembers st = snapshot ∧ memberIndex st = length (emitted st) ∧
  ∀ j occ, emitted st !! j = Some occ →
    occ_array occ = snapshot ∧
    snapshot !! (j mod length snapshot)%nat = Some (occ_member occ).

(** The member of an occurrence has, at the instant of the assignment, a
    count no greater than that of any of [members], and is the first of
    the [sortedMembers] array, as it stood before the re-sort, among
    those with that least count. *)
Definition least_loaded (members : list nat) (occ : occurrence) : Prop :=
  occ_member occ ∈ members ∧
  ∃ c, count_of (occ_heap occ) (occ_member occ) = Some c ∧
    (∀ r, r ∈ members → ∃ c', count_of (occ_heap occ) r = Some c' ∧ c ≤ c') ∧
    ∃ l1 l2, occ_array occ = l1 ++ occ_member occ :: l2 ∧
      ∀ r, r ∈ l1 → ∃ c', count_of (occ_heap occ) r = Some c' ∧ c < c'.

(** What a balanced run maintains: numeric counts for the members, the
    fields other than the count as in [heap_ref], and the two properties
    above for every occurrence emitted so far. *)
Definition balanced_inv (members : list nat) (heap_ref : list obj)
    (occs : list occurrence) (heap1 : list obj) : Prop :=
  counted heap1 members ∧
  (∀ r key, key ≠ "participationCount" →
     member_field heap1 r key = member_field heap_ref r key) ∧
  Forall (λ occ, least_loaded members occ ∧ names_member heap_ref occ) occs.

(** The local calendar day of an instant. *)
Definition local_day (tz t : Z) : Z := Day (LocalTime tz t).


(** ** Sample data *)

Definition sample_member (id name status : string) (count : Z) : obj :=
  {[ "id" := VStr id; "name" := VStr name; "email" := VStr "";
     "status" := VStr status; "participationCount" := VNum count ]}.

Definition sample_activity (id name frequency frequencyUnit : string) : obj :=
  {[ "id" := VStr id; "name" := VStr name; "description" := VStr "";
     "frequency" := VStr frequency; "frequencyUnit" := VStr frequencyUnit ]}.

Definition default_settings : obj :=
  {[ "algorithm" := VStr "rotation"; "notificationEnabled" := VBool true;
     "notificationDays" := VNum 3 ]}.

Definition sample_store : DataManager :=
  {| members := [sample_member "1" "Ann" "active" 0;
                 sample_member "2" "Bob" "inactive" 0;
                 sample_member "3" "Cid" "active" 0];
     activities := [sample_activity "7" "Standup" "1" "weeks"];
     schedules := [];
     settings := default_settings;
     localStorage := ∅ |}.

Definition no_active_store : DataManager :=
  {| members := [sample_member "2" "Bob" "inactive" 4];
     activities := [sample_activity "7" "Standup" "1" "weeks"];
     schedules := [ {[ "id" := VStr "old"; "date" := VStr "2024-01-01";
                       "notified" := VBool true ]} ];
     settings := default_settings;
     localStorage := ∅ |}.

Definition no_activity_store : DataManager :=
  {| members := [sample_member "1" "Ann" "active" 4];
     activities := [];
     schedules := [ {[ "id" := VStr "old"; "date" := VStr "2024-01-01";
                       "notified" := VBool true ]} ];
     settings := default_settings;
     localStorage := ∅ |}.

Definition planning_store : DataManager :=
  {| members := [sample_member "1" "Ann" "active" 4;
                 sample_member "2" "Bob" "inactive" 1;
                 sample_member "3" "Cid" "active" 2];
     activities := [sample_activity "7" "Standup" "1" "weeks";
                    sample_activity "8" "Review" "1" "months"];
     schedules := [ {[ "id" := VStr "old"; "date" := VStr "2023-12-01";
                       "notified" := VBool true ]} ];
     settings := default_settings;
     localStorage := ∅ |}.

Definition rota_heap : list obj :=
  [sample_member "1" "Ann" "active" 2; sample_member "2" "Bob" "inactive" 9;
   sample_member "3" "Cid" "active" 2; sample_member "4" "Dee" "active" 2].

Definition balanced_store : DataManager :=
  with_settings (<["algorithm" := VStr "balanced"]> default_settings) planning_store.

Definition sample_entry (id date : string) (notified : bool) : obj :=
  {[ "id" := VStr id; "activityId" := VStr "7"; "activityName" := VStr "Standup";
     "memberId" := VStr "1"; "memberName" := VStr "Ann";
     "date" := VStr date; "notified" := VBool notified ]}.

Definition notify_store : DataManager :=
  with_schedules [sample_entry "a" "2024-02-29" false;
                  sample_entry "b" "2024-03-01" false;
                  sample_entry "c" "2024-03-01" true;
                  sample_entry "d" "2024-03-02" false] sample_store.


(** 10:00 on 2024-02-27 in a zone eight hours east of UTC. *)
Definition sample_now : Z := 1708999200000.

(** ** DataManager: the remaining methods *)

Definition deleteActivity (id : jsval) (dm : DataManager) : DataManager :=
  let dm := with_activities
    (filter (fun a => negb (strict_eq (get a "id") id) = true) (activities dm)) dm in
  saveData "activities" (DocArray (activities dm)) dm.

(** [getSchedulesByDateRange(startDate, endDate)], on two [Date]
    objects: [scheduleDate >= startDate && scheduleDate <= endDate]. *)
Definition getSchedulesByDateRange (startDate endDate : date) (dm : DataManager)
    : list obj :=
  filter (fun s =>
            let scheduleDate := new_Date (get s "date") in
            date_le startDate scheduleDate && date_le scheduleDate endDate = true)
    (schedules dm).

(** The comparator [(a, b) => new Date(a.date) - new Date(b.date)] leaves
    [a] in front of [b] when the difference is not positive; a [NaN]
    difference counts as zero. *)
Definition date_order (a b : obj) : bool :=
  match new_Date (get a "date"), new_Date (get b "date") with
  | Some x, Some y => x - y <=? 0
  | _, _ => true
  end.

(** [arr.slice(0, limit)]: a negative [limit] counts from the end. *)
Definition slice0 {A} (limit : Z) (l : list A) : list A :=
  let len := Z.of_nat (length l) in
  take (Z.to_nat (if limit <? 0 then Z.max (len + limit) 0 else Z.min limit len)) l.

(** [getUpcomingSchedules(limit = 10)]; [None] is a call without
    argument, [now] the clock reading of [new Date()].  [filter] makes a
    new array, which [sort] orders in place: the schedules of the data
    manager are not touched. *)
Definition getUpcomingSchedules (tz now : Z) (limit : option Z) (dm : DataManager)
    : list obj :=
  let today := setHours0 tz (Some now) in
  slice0 (default 10 limit)
    (stable_sort date_order
       (filter (fun s => date_le today (new_Date (get s "date")) = true)
          (schedules dm))).

(** [updateSettings(settings)] *)
Definition updateSettings (updates : obj) (dm : DataManager) : DataManager :=
  let dm := with_settings (spread (settings dm) updates) dm in
  saveData "settings" (DocObject (settings dm)) dm.

(** [clearAllData()]: [localStorage.clear()], then the four fields are
    set anew; nothing is written. *)
Definition clearAllData (dm : DataManager) : DataManager :=
  {| members := []; activities := []; schedules := [];
     settings := {[ "algorithm" := VStr "rotation";
                    "notificationEnabled" := VBool true;
                    "notificationDays" := VNum 3 ]};
     localStorage := ∅ |}.

(** What [JSON.parse(JSON.stringify(v))] gives back for a field: a field
    holding [undefined] is left out, [NaN] comes back as [null]. *)
Definition json_value (v : jsval) : option jsval :=
  match v with
  | VUndef => None
  | VNaN => Some VNull
  | _ => Some v
  end.

Definition json_object (o : obj) : obj := omap json_value o.

Definition json_document (d : document) : document :=
  match d with
  | DocArray l => DocArray (json_object <$> l)
  | DocObject o => DocObject (json_object o)
  end.

(** [loadData(key)]: the document last saved under the key, as its JSON
    text reads back; [None] is [null] (nothing stored). *)
Definition loadData (key : string) (storage : gmap string document)
    : option document :=
  json_document <$> storage !! key.

(** [loadData(key) || []] for a collection.  The outer [None] marks a
    stored document that is not an array, which the fields of
    [DataManager] cannot hold here. *)
Definition load_collection (key : string) (storage : gmap string document)
    : option (list obj) :=
  match loadData key storage with
  | None => Some []
  | Some (DocArray l) => Some l
  | Some (DocObject _) => None
  end.

Definition load_settings (storage : gmap string document) : option obj :=
  match loadData "settings" storage with
  | None => Some {[ "algorithm" := VStr "rotation";
                    "notificationEnabled" := VBool true;
                    "notificationDays" := VNum 3 ]}
  | Some (DocObject o) => Some o
  | Some (DocArray _) => None
  end.

(** [new DataManager()] over the given [localStorage]. *)
Definition new_DataManager (storage : gmap string document) : option DataManager :=
  ms ← load_collection "members" storage;
  acts ← load_collection "activities" storage;
  ss ← load_collection "schedules" storage;
  o ← load_settings storage;
  Some {| members := ms; activities := acts; schedules := ss; settings := o;
          localStorage := storage |}.

(** ** NotificationManager: the timer *)

(** The interval timers of the page: the handles that are live, and the
    next handle [setInterval] gives out (handles are never 0, so a live
    handle is truthy). *)
Record timers : Type := {
  live : list nat;
  next_handle : nat
}.

Definition setInterval (tm : timers) : nat * timers :=
  (S (next_handle tm),
   {| live := S (next_handle tm) :: live tm; next_handle := S (next_handle tm) |}).

Definition clearInterval (h : nat) (tm : timers) : timers :=
  {| live := filter (fun x => x <> h) (live tm); next_handle := next_handle tm |}.

(** The notification manager with the world it acts on: its
    [checkInterval] field, the timers, and its data manager. *)
Record notifier : Type := {
  checkInterval : option nat;
  page_timers : timers;
  manager : DataManager
}.

(** [start()]: the notifications of the immediate scan, and the new
    state. *)
Definition start (tz now : Z) (nm : notifier) : list obj * notifier :=
  let '(h, tm) := setInterval (page_timers nm) in
  let '(sent, dm) := checkUpcomingSchedules tz now (manager nm) in
  (sent, {| checkInterval := Some h; page_timers := tm; manager := dm |}).

(** [stop()] *)
Definition stop (nm : notifier) : notifier :=
  match checkInterval nm with
  | Some h =>
      {| checkInterval := None; page_timers := clearInterval h (page_timers nm);
         manager := manager nm |}
  | None => nm
  end.

(** The callback of the timer with handle [h] comes due, at clock
    reading [now]: if the handle is live the scan runs. *)
Definition fire (tz now : Z) (h : nat) (nm : notifier) : list obj * notifier :=
  if bool_decide (h ∈ live (page_timers nm)) then
    let '(sent, dm) := checkUpcomingSchedules tz now (manager nm) in
    (sent, {| checkInterval := checkInterval nm; page_timers := page_timers nm;
              manager := dm |})
  else ([], nm).

(** ** UIManager: the callers of the generator *)



(** ** Notions used in the further properties *)

(** The data of [dm] as [JSON] gives it back. *)
Definition json_store (dm : DataManager) : DataManager :=
  {| members := json_object <$> members dm;
     activities := json_object <$> activities dm;
     schedules := json_object <$> schedules dm;
     settings := json_object (settings dm);
     localStorage := localStorage dm |}.

(** Storage is up to date: a data manager constructed now over the
    storage of [dm], as a reload of the page does, holds the data of
    [dm]. *)
Definition persisted (dm : DataManager) : Prop :=
  new_DataManager (localStorage dm) = Some (json_store dm).

(** A call of one of the mutating methods of the data manager, or of the
    notification scan. *)
Inductive operation : Type :=
  | OpAddMember (now : Z) (member : obj)
  | OpUpdateMember (id : jsval) (updates : obj)
  | OpDeleteMember (id : jsval)
  | OpAddActivity (now : Z) (activity : obj)
  | OpUpdateActivity (id : jsval) (updates : obj)
  | OpDeleteActivity (id : jsval)
  | OpAddSchedule (id : string) (schedule : obj)
  | OpClearSchedules
  | OpUpdateSettings (updates : obj)
  | OpImportData (data : snapshot)
  | OpClearAllData
  | OpCheckUpcomingSchedules (tz now : Z).

Definition perform (dm : DataManager) (op : operation) : DataManager :=
  match op with
  | OpAddMember now member => (addMember now member dm).2
  | OpUpdateMember id updates => (updateMember id updates dm).2
  | OpDeleteMember id => deleteMember id dm
  | OpAddActivity now activity => (addActivity now activity dm).2
  | OpUpdateActivity id updates => (updateActivity id updates dm).2
  | OpDeleteActivity id => deleteActivity id dm
  | OpAddSchedule id schedule => (addSchedule id schedule dm).2
  | OpClearSchedules => clearSchedules dm
  | OpUpdateSettings updates => updateSettings updates dm
  | OpImportData data => importData data dm
  | OpClearAllData => clearAllData dm
  | OpCheckUpcomingSchedules tz now => (checkUpcomingSchedules tz now dm).2
  end.

(** What a run of [generate] on [dm] maintains, of the occurrences
    emitted so far and the members array as it stands: the count of an
    active member is the number of occurrences assigned to it; the other
    fields of the members, the members that are not active and the
    length of the array are as in [dm]; and every occurrence names an
    active member and an activity of [dm]. *)
Definition accounted (dm : DataManager) (occs : list occurrence)
    (heap1 : list obj) : Prop :=
  (∀ r, r ∈ getActiveMembers dm →
     count_of heap1 r = Some (Z.of_nat (assignments r occs))) ∧
  (∀ r key, key ≠ "participationCount" →
     member_field heap1 r key = member_field (members dm) r key) ∧
  (∀ r, r ∉ getActiveMembers dm → heap1 !! r = members dm !! r) ∧
  length heap1 = length (members dm) ∧
  Forall (λ occ,
            occ_member occ ∈ getActiveMembers dm ∧
            names_member (members dm) occ ∧
            get (occ_entry occ) "notified" = VBool false ∧
            ∃ a, a ∈ activities dm ∧
                 get (occ_entry occ) "activityId" = get a "id" ∧
                 get (occ_entry occ) "activityName" = get a "name") occs.

(** What a run on the sample store, over eight days, returns. *)
Definition sample_entries : list obj :=
  match gen_result (generate 5 0 (λ k, k) (λ k, pretty k) (Date_parse "2024-01-01")
                      (Date_parse "2024-01-08") sample_store) with
  | Returned entries => entries
  | _ => []
  end.

(** ** The page *)

(** No timer has been registered yet. *)
Definition no_timers : timers := {| live := []; next_handle := O |}.

(** The handles [setInterval] has given out are positive and at most
    [next_handle]; the live ones are among them. *)
Definition timers_ok (tm : timers) : Prop :=
  Forall (λ h, (0 < h ≤ next_handle tm)%nat) (live tm).

(** The [DOMContentLoaded] handler: the data manager is constructed over
    the storage and, if the stored settings enable notifications, the
    notification manager is started. *)
Definition init (tz now : Z) (storage : gmap string document)
    : option (list obj * notifier) :=
  dm ← new_DataManager storage;
  let nm := {| checkInterval := None; page_timers := no_timers; manager := dm |} in
  if truthy (get (settings dm) "notificationEnabled")
  then Some (start tz now nm)
  else Some ([], nm).

(** What happens on the page after loading, as far as notifications go:
    a timer comes due, or one of the three controls of the settings view
    changes, which calls [updateSettings] with the one field. *)
Inductive page_event : Type :=
  | TimerDue (h : nat) (now : Z)
  | SettingChanged (updates : obj).

Definition page_step (tz : Z) (nm : notifier) (ev : page_event)
    : list obj * notifier :=
  match ev with
  | TimerDue h now => fire tz now h nm
  | SettingChanged updates =>
      ([], {| checkInterval := checkInterval nm; page_timers := page_timers nm;
              manager := updateSettings updates (manager nm) |})
  end.

(** The notifications sent over a run of events, and the page after it. *)
Fixpoint page_run (tz : Z) (events : list page_event) (nm : notifier)
    : list obj * notifier :=
  match events with
  | [] => ([], nm)
  | ev :: events' =>
      let '(sent, nm) := page_step tz nm ev in
      let '(more, nm) := page_run tz events' nm in
      (sent ++ more, nm)
  end.

(** * Properties *)

(** ** Checks of the model on concrete inputs *)

Example parseInt_examples :
  parseInt (VStr "2") = Some 2 ∧ parseInt (VStr " 12px") = Some 12 ∧
  parseInt (VStr "-7") = Some (-7) ∧ parseInt (VStr "0x1f") = Some 31 ∧
  parseInt (VStr "") = None ∧ parseInt (VStr "abc") = None ∧
  parseInt (VNum 3) = Some 3 ∧ parseInt VUndef = None.
Proof. repeat split; reflexivity. Qed.

Example calendar_examples :
  Date_parse "1970-01-01" = Some 0 ∧
  Date_parse "2024-01-31" = Some 1706659200000 ∧
  Date_parse "2024-13-01" = None ∧ Date_parse "31/01/2024" = None ∧
  toISOString 1706659200000 = "2024-01-31T00:00:00.000Z"%string ∧
  toISOString (-1) = "1969-12-31T23:59:59.999Z"%string ∧
  before_T (toISOString 951782400000) = "2000-02-29"%string ∧
  (YearFromDay 19753, MonthFromDay 19753, DateFromDay 19753) = (2024, 0, 31) ∧
  MakeDay 2024 1 31 = MakeDay 2024 2 2 ∧ MakeDay 2023 1 31 = MakeDay 2023 2 3 ∧
  MakeDay 2023 12 1 = MakeDay 2024 0 1 ∧ MakeDay 2024 (-1) 1 = MakeDay 2023 11 1.
Proof. repeat split; reflexivity. Qed.

(** Local getters and setters, eight hours east and five hours west of
    UTC, from midnight UTC of 2024-01-31. *)
Example zone_examples :
  getDate 28800000 (Some 1706659200000) = Some 31 ∧
  getDate (-18000000) (Some 1706659200000) = Some 30 ∧
  setHours0 28800000 (Some 1706659200000) = Some (1706659200000 - 28800000) ∧
  setDate 0 (Some 1706659200000) (Some 32) = Date_parse "2024-02-01" ∧
  setMonth 0 (Some 1706659200000) (Some 1) = Date_parse "2024-03-02" ∧
  setDate 0 (Some 1706659200000) None = None ∧
  setDate 0 None (Some 1) = None.
Proof. repeat split; reflexivity. Qed.

(** A run on the sample store: one weekly activity, two active members,
    rotation, three weeks. *)
Example generate_example :
  let run := generate 10 28800000 (λ k, k) (λ k, pretty k)
               (Date_parse "2024-01-01") (Date_parse "2024-01-21") sample_store in
  match gen_result run with
  | Returned entries =>
      (λ x, (get x "id", get x "memberName", get x "date", get x "notified"))
        <$> entries
      = [(VStr "0", VStr "Ann", VStr "2024-01-01", VBool false);
         (VStr "1", VStr "Cid", VStr "2024-01-08", VBool false);
         (VStr "2", VStr "Ann", VStr "2024-01-15", VBool false)]
      ∧ schedules (gen_store run) = entries
  | _ => False
  end ∧
  (λ m, get m "participationCount") <$> members (gen_store run)
    = [VNum 2; VNum 0; VNum 1] ∧
  gen_result (generate 2 28800000 (λ k, k) (λ k, pretty k)
                (Date_parse "2024-01-01") (Date_parse "2024-01-21") sample_store)
    = Diverged.
Proof. vm_compute. repeat split; reflexivity. Qed.

(** ** Objects *)

Lemma get_set_eq (o : obj) k v : get (set o k v) k = v.
Proof. unfold get, set. by rewrite lookup_insert_eq. Qed.

Lemma get_set_ne (o : obj) k k' v : k ≠ k' → get (set o k v) k' = get o k'.
Proof. intros. unfold get, set. by rewrite lookup_insert_ne. Qed.

Lemma lookup_set_ne (o : obj) k k' v : k ≠ k' → set o k v !! k' = o !! k'.
Proof. intros. unfold set. by rewrite lookup_insert_ne. Qed.

Lemma lookup_spread (a b : obj) k :
  spread a b !! k = match b !! k with Some v => Some v | None => a !! k end.
Proof.
  unfold spread. rewrite lookup_union.
  destruct (b !! k), (a !! k); reflexivity.
Qed.

Lemma lookup_spread_unnamed (a b : obj) k :
  b !! k = None → spread a b !! k = a !! k.
Proof. intros H. by rewrite lookup_spread, H. Qed.

Lemma lookup_spread_named (a b : obj) k v :
  b !! k = Some v → spread a b !! k = Some v.
Proof. intros H. by rewrite lookup_spread, H. Qed.

(** ** Arrays and references *)

Lemma findIndex_None p (l : list obj) :
  (∀ x, x ∈ l → p x = false) → findIndex p l = None.
Proof.
  induction l as [|x l IH]; intros H; simpl; [done|].
  rewrite (H x) by apply list_elem_of_here.
  rewrite IH; [done|]. intros y Hy. apply H. by apply list_elem_of_further.
Qed.

Lemma findIndex_first p (l : list obj) i x :
  l !! i = Some x → p x = true →
  (∀ j y, (j < i)%nat → l !! j = Some y → p y = false) →
  findIndex p l = Some i.
Proof.
  revert i. induction l as [|a l IH]; intros i Hi Hp Hbefore; [done|].
  destruct i as [|i]; simpl in *.
  - injection Hi as ->. by rewrite Hp.
  - rewrite (Hbefore O a) by (done || lia).
    rewrite (IH i); [done|done|done|].
    intros j y Hj Hy. apply (Hbefore (S j) y); [lia|done].
Qed.

Lemma alter_as_insert {A} (f : A → A) (l : list A) i x :
  l !! i = Some x → alter f i l = <[i := f x]> l.
Proof.
  revert i. induction l as [|a l IH]; intros [|i] H; simplify_eq/=; [done|].
  f_equal. by apply IH.
Qed.

Lemma refs_from_length p (l : list obj) i :
  length (refs_from p i l) = length (filter (λ m, p m = true) l).
Proof.
  revert i. induction l as [|x l IH]; intros i; [done|].
  simpl. rewrite filter_cons. destruct (p x) eqn:Hp.
  - rewrite decide_True by done. simpl. by rewrite IH.
  - rewrite decide_False by congruence. apply IH.
Qed.

Lemma refs_from_lookups p (l pre : list obj) :
  omap (λ r, (pre ++ l) !! r) (refs_from p (length pre) l)
  = filter (λ m, p m = true) l.
Proof.
  revert pre. induction l as [|x l IH]; intros pre; [done|].
  cbn [refs_from]. rewrite filter_cons.
  assert (Hnext : omap (λ r, (pre ++ x :: l) !! r) (refs_from p (S (length pre)) l)
                  = filter (λ m, p m = true) l).
  { specialize (IH (pre ++ [x])). rewrite length_app, <- app_assoc in IH.
    simpl in IH. by rewrite Nat.add_1_r in IH. }
  destruct (p x) eqn:Hp.
  - rewrite decide_True by done. cbn [omap list_omap].
    rewrite lookup_app_r, Nat.sub_diag by lia. cbn [lookup list_lookup].
    f_equal. apply Hnext.
  - rewrite decide_False by congruence. apply Hnext.
Qed.

Lemma refs_from_bounds p (l : list obj) i r :
  r ∈ refs_from p i l → (i ≤ r < i + length l)%nat.
Proof.
  revert i. induction l as [|x l IH]; intros i H; simpl in H.
  - by apply elem_of_nil in H.
  - destruct (p x).
    + apply elem_of_cons in H as [->|H]; [simpl; lia|].
      apply IH in H. simpl. lia.
    + apply IH in H. simpl. lia.
Qed.

Lemma refs_from_NoDup p (l : list obj) i : NoDup (refs_from p i l).
Proof.
  revert i. induction l as [|x l IH]; intros i; simpl; [constructor|].
  destruct (p x); [|apply IH].
  constructor; [|apply IH].
  intros H. apply refs_from_bounds in H. lia.
Qed.

Lemma refs_from_sat p (l pre : list obj) r :
  r ∈ refs_from p (length pre) l →
  ∃ m, (pre ++ l) !! r = Some m ∧ p m = true.
Proof.
  revert pre. induction l as [|x l IH]; intros pre H; simpl in H.
  - by apply elem_of_nil in H.
  - assert (Hnext : r ∈ refs_from p (S (length pre)) l →
                    ∃ m, (pre ++ x :: l) !! r = Some m ∧ p m = true).
    { intros Hr. specialize (IH (pre ++ [x])).
      rewrite length_app, <- app_assoc, Nat.add_1_r in IH. by apply IH. }
    destruct (p x) eqn:Hp; [|by apply Hnext].
    apply elem_of_cons in H as [->|H]; [|by apply Hnext].
    exists x. by rewrite lookup_app_r, Nat.sub_diag by lia.
Qed.

(** Mutating every element selected by [p] through its reference is a map
    over the array. *)
Lemma update_refs_from p f (l pre : list obj) :
  update_refs f (refs_from p (length pre) l) (pre ++ l)
  = pre ++ map (λ m, if p m then f m else m) l.
Proof.
  revert pre. induction l as [|x l IH]; intros pre; [done|].
  simpl. destruct (p x) eqn:Hp.
  - unfold update_refs. simpl. fold (update_refs f).
    rewrite (alter_as_insert _ _ _ x) by (by rewrite lookup_app_r, Nat.sub_diag by lia).
    rewrite insert_app_r_alt, Nat.sub_diag by lia. simpl.
    specialize (IH (pre ++ [f x])).
    rewrite length_app, <- !app_assoc, Nat.add_1_r in IH. apply IH.
  - specialize (IH (pre ++ [x])).
    rewrite length_app, <- !app_assoc, Nat.add_1_r in IH. apply IH.
Qed.

Lemma update_refs_where p f (l : list obj) :
  update_refs f (refs_where p l) l = map (λ m, if p m then f m else m) l.
Proof. apply (update_refs_from p f l []). Qed.

Lemma getActiveMembers_length dm :
  length (getActiveMembers dm) = length (active_members dm).
Proof. apply refs_from_length. Qed.

Lemma getActiveMembers_values dm :
  omap (λ r, members dm !! r) (getActiveMembers dm) = active_members dm.
Proof. apply (refs_from_lookups is_active (members dm) []). Qed.

(** ** Record store: add, update, export and import *)

Lemma updateMember_found id updates dm i m :
  members dm !! i = Some m →
  findIndex (λ m, strict_eq (get m "id") id) (members dm) = Some i →
  updateMember id updates dm =
    (Some (spread m updates),
     saveData "members" (DocArray (<[i := spread m updates]> (members dm)))
       (with_members (<[i := spread m updates]> (members dm)) dm)).
Proof.
  intros Hm Hfind. unfold updateMember. rewrite Hfind. cbn.
  rewrite (alter_as_insert _ _ _ m Hm).
  rewrite list_lookup_insert_eq by (by eapply lookup_lt_Some). done.
Qed.

Lemma updateActivity_found id updates dm i a :
  activities dm !! i = Some a →
  findIndex (λ a, strict_eq (get a "id") id) (activities dm) = Some i →
  updateActivity id updates dm =
    (Some (spread a updates),
     saveData "activities" (DocArray (<[i := spread a updates]> (activities dm)))
       (with_activities (<[i := spread a updates]> (activities dm)) dm)).
Proof.
  intros Ha Hfind. unfold updateActivity. rewrite Hfind. cbn.
  rewrite (alter_as_insert _ _ _ a Ha).
  rewrite list_lookup_insert_eq by (by eapply lookup_lt_Some). done.
Qed.

Lemma merged_at_insert (l : list obj) i m updates :
  l !! i = Some m →
  merged_at l (<[i := spread m updates]> l) i m updates (Some (spread m updates)).
Proof.
  intros Hm. pose proof (lookup_lt_Some _ _ _ Hm).
  repeat split.
  - by apply list_lookup_insert_eq.
  - apply length_insert.
  - intros j Hj. by apply list_lookup_insert_ne.
  - apply lookup_spread_unnamed.
  - apply lookup_spread_named.
Qed.

(** C7. [updateMember] and [updateActivity] return [null] and change
    nothing when no record has the id; when a record has it, the first
    such record is replaced by its shallow merge with the partial fields
    (fields the partial fields do not name keep their values), every
    other record and every other collection is unchanged, the collection
    is written to storage, and the merged record is returned.  Both
    functions are total: no input makes them throw. *)
Theorem update_merges_or_returns_null (id : jsval) (updates : obj)
    (dm : DataManager) :
  ((∀ m, m ∈ members dm → strict_eq (get m "id") id = false) →
     updateMember id updates dm = (None, dm)) ∧
  (∀ i m, members dm !! i = Some m → strict_eq (get m "id") id = true →
     (∀ j m', (j < i)%nat → members dm !! j = Some m' →
        strict_eq (get m' "id") id = false) →
     ∃ dm', updateMember id updates dm = (Some (spread m updates), dm') ∧
       merged_at (members dm) (members dm') i m updates (Some (spread m updates)) ∧
       activities dm' = activities dm ∧ schedules dm' = schedules dm ∧
       settings dm' = settings dm ∧
       localStorage dm' = <["members" := DocArray (members dm')]> (localStorage dm)) ∧
  ((∀ a, a ∈ activities dm → strict_eq (get a "id") id = false) →
     updateActivity id updates dm = (None, dm)) ∧
  (∀ i a, activities dm !! i = Some a → strict_eq (get a "id") id = true →
     (∀ j a', (j < i)%nat → activities dm !! j = Some a' →
        strict_eq (get a' "id") id = false) →
     ∃ dm', updateActivity id updates dm = (Some (spread a updates), dm') ∧
       merged_at (activities dm) (activities dm') i a updates (Some (spread a updates)) ∧
       members dm' = members dm ∧ schedules dm' = schedules dm ∧
       settings dm' = settings dm ∧
       localStorage dm' = <["activities" := DocArray (activities dm')]> (localStorage dm)).
Proof.
  split; [|split; [|split]].
  - intros Hnone. unfold updateMember.
    by rewrite (findIndex_None _ _ Hnone).
  - intros i m Hm Hid Hfirst.
    eexists. split.
    + apply updateMember_found; [done|].
      by apply (findIndex_first (λ m, strict_eq (get m "id") id) _ i m).
    + cbn. split; [by apply merged_at_insert|done].
  - intros Hnone. unfold updateActivity.
    by rewrite (findIndex_None _ _ Hnone).
  - intros i a Ha Hid Hfirst.
    eexists. split.
    + apply updateActivity_found; [done|].
      by apply (findIndex_first (λ a, strict_eq (get a "id") id) _ i a).
    + cbn. split; [by apply merged_at_insert|done].
Qed.

Lemma update_merges_or_returns_null_witness :
  updateMember (VStr "9") {[ "name" := VStr "Zed" ]} sample_store
    = (None, sample_store) ∧
  (∃ dm', updateMember (VStr "2") {[ "name" := VStr "Rob" ]} sample_store
      = (Some (spread (sample_member "2" "Bob" "inactive" 0) {[ "name" := VStr "Rob" ]}), dm')) ∧
  updateActivity (VStr "9") {[ "name" := VStr "Retro" ]} sample_store
    = (None, sample_store) ∧
  (∃ dm', updateActivity (VStr "7") {[ "frequency" := VStr "2" ]} sample_store
      = (Some (spread (sample_activity "7" "Standup" "1" "weeks") {[ "frequency" := VStr "2" ]}), dm')).
Proof.
  split; [|split; [|split]].
  - apply (update_merges_or_returns_null (VStr "9") {[ "name" := VStr "Zed" ]} sample_store).
    intros m Hm. apply list_elem_of_In in Hm. simpl in Hm.
    repeat (destruct Hm as [<-|Hm]; [reflexivity|]). destruct Hm.
  - destruct (update_merges_or_returns_null (VStr "2") {[ "name" := VStr "Rob" ]} sample_store)
      as (_ & Hfound & _).
    destruct (Hfound 1%nat (sample_member "2" "Bob" "inactive" 0)) as (dm' & Hdm' & _).
    + reflexivity.
    + reflexivity.
    + intros j m' Hj Hm'. assert (j = O) as -> by lia. cbn in Hm'.
      injection Hm' as <-. reflexivity.
    + by exists dm'.
  - apply (update_merges_or_returns_null (VStr "9") {[ "name" := VStr "Retro" ]} sample_store).
    intros m Hm. apply list_elem_of_In in Hm. simpl in Hm.
    repeat (destruct Hm as [<-|Hm]; [reflexivity|]). destruct Hm.
  - destruct (update_merges_or_returns_null (VStr "7") {[ "frequency" := VStr "2" ]} sample_store)
      as (_ & _ & _ & Hfound).
    destruct (Hfound O (sample_activity "7" "Standup" "1" "weeks")) as (dm' & Hdm' & _).
    + reflexivity.
    + reflexivity.
    + intros j m' Hj. lia.
    + by exists dm'.
Defined.

Lemma id_fields_alter_spread (l : list obj) i updates :
  updates !! "id" = None →
  id_fields (alter (λ m, spread m updates) i l) = id_fields l.
Proof.
  intros Hno. revert i. induction l as [|m l IH]; intros [|i]; cbn; try done.
  - by rewrite lookup_spread_unnamed.
  - f_equal. apply IH.
Qed.

Lemma run_call_ids dm c :
  call_updates c !! "id" = None →
  id_fields (members (run_call dm c)) = id_fields (members dm) ∧
  id_fields (activities (run_call dm c)) = id_fields (activities dm).
Proof.
  intros Hno. destruct c as [id u|id u]; cbn in *.
  - unfold updateMember. destruct (findIndex _ _); cbn; [|done].
    split; [by apply id_fields_alter_spread|done].
  - unfold updateActivity. destruct (findIndex _ _); cbn; [|done].
    split; [done|by apply id_fields_alter_spread].
Qed.

(** C9, as amended.  Through any run of [updateMember] and
    [updateActivity] calls whose partial fields do not have an [id] key,
    every stored record keeps its [id]: position by position, the ids of
    the members and of the activities are those before the run. *)
Theorem update_keeps_id_unless_named (calls : list update_call)
    (dm : DataManager) :
  Forall (λ c, call_updates c !! "id" = None) calls →
  id_fields (members (run_calls calls dm)) = id_fields (members dm) ∧
  id_fields (activities (run_calls calls dm)) = id_fields (activities dm).
Proof.
  unfold run_calls. revert dm.
  induction calls as [|c calls IH]; intros dm Hall; [done|].
  inversion Hall as [|? ? Hc Hrest]; subst. cbn.
  destruct (IH (run_call dm c) Hrest) as [-> ->].
  by apply run_call_ids.
Qed.

Lemma update_keeps_id_unless_named_witness :
  id_fields (members (run_calls
    [UpdateMember (VStr "2") {[ "name" := VStr "Rob"; "status" := VStr "active" ]};
     UpdateActivity (VStr "7") {[ "frequency" := VStr "2" ]};
     UpdateMember (VStr "2") {[ "email" := VStr "rob@example.com" ]}]
    sample_store))
  = [Some (VStr "1"); Some (VStr "2"); Some (VStr "3")].
Proof.
  refine (eq_trans (proj1 (update_keeps_id_unless_named _ sample_store _)) _).
  - repeat constructor.
  - reflexivity.
Defined.

(** C9, as stated, fails: partial fields that name [id] replace the id
    of the stored record.  The first member of the sample store has id
    ["1"]; after [updateMember("1", {id: "42"})] it has id ["42"]. *)
Lemma update_overwrites_id :
  member_field (members sample_store) 0 "id" = VStr "1" ∧
  (updateMember (VStr "1") {[ "id" := VStr "42" ]} sample_store).1
    = Some (spread (sample_member "1" "Ann" "active" 0) {[ "id" := VStr "42" ]}) ∧
  member_field
    (members (updateMember (VStr "1") {[ "id" := VStr "42" ]} sample_store).2)
    0 "id" = VStr "42".
Proof. repeat split; reflexivity. Qed.

Lemma addMember_result now member dm :
  let m := set (set (set member "id" (VStr (num_to_string now)))
                  "participationCount" (VNum 0)) "status" (VStr "active") in
  addMember now member dm =
    (m, saveData "members" (DocArray (members dm ++ [m]))
          (with_members (members dm ++ [m]) dm)).
Proof. reflexivity. Qed.

(** C10, as amended.  Whatever record is passed to [addMember], the
    member it stores (last in the collection, and written to storage) and
    returns has [status = 'active'], [participationCount = 0] and the
    clock reading as [id]; every field of the input other than these
    three is kept. *)
Theorem addMember_overwrites_defaults (now : Z) (member : obj)
    (dm : DataManager) :
  ∃ m dm', addMember now member dm = (m, dm') ∧
    members dm' = members dm ++ [m] ∧
    localStorage dm' !! "members" = Some (DocArray (members dm')) ∧
    get m "status" = VStr "active" ∧
    get m "participationCount" = VNum 0 ∧
    get m "id" = VStr (num_to_string now) ∧
    (∀ k, k ≠ "id" → k ≠ "participationCount" → k ≠ "status" →
       m !! k = member !! k).
Proof.
  eexists _, _. split; [apply addMember_result|]. cbn.
  repeat split.
  - by rewrite lookup_insert_eq.
  - apply get_set_eq.
  - rewrite get_set_ne by done. apply get_set_eq.
  - rewrite !get_set_ne by done. apply get_set_eq.
  - intros k ? ? ?. by rewrite !lookup_set_ne.
Qed.

Lemma addMember_overwrites_defaults_witness :
  ∃ m dm', addMember 1700000000000
      {[ "name" := VStr "Dee"; "email" := VStr "dee@example.com";
         "status" := VStr "inactive"; "participationCount" := VNum 5 ]}
      sample_store = (m, dm') ∧
    get m "status" = VStr "active" ∧ get m "participationCount" = VNum 0 ∧
    m !! "name" = Some (VStr "Dee") ∧ m !! "email" = Some (VStr "dee@example.com").
Proof.
  destruct (addMember_overwrites_defaults 1700000000000
      {[ "name" := VStr "Dee"; "email" := VStr "dee@example.com";
         "status" := VStr "inactive"; "participationCount" := VNum 5 ]}
      sample_store) as (m & dm' & Hadd & _ & _ & Hst & Hcnt & _ & Hkeep).
  exists m, dm'. repeat split; try assumption.
  - rewrite (Hkeep "name") by discriminate. reflexivity.
  - rewrite (Hkeep "email") by discriminate. reflexivity.
Defined.

(** C10, as stated, fails on a record that carries an [id]: that field
    is neither [status] nor [participationCount], and it is not kept. *)
Lemma addMember_overwrites_id :
  get {[ "id" := VStr "custom"; "name" := VStr "Dee" ]} "id" = VStr "custom" ∧
  get (addMember 1700000000000 {[ "id" := VStr "custom"; "name" := VStr "Dee" ]}
         sample_store).1 "id" = VStr "1700000000000" ∧
  get (addMember 1700000000000 {[ "id" := VStr "custom"; "name" := VStr "Dee" ]}
         sample_store).1 "name" = VStr "Dee".
Proof. repeat split; reflexivity. Qed.

Lemma importData_collections data dm :
  members (importData data dm) = imported (snap_members data) (members dm) ∧
  activities (importData data dm) = imported (snap_activities data) (activities dm) ∧
  schedules (importData data dm) = imported (snap_schedules data) (schedules dm) ∧
  settings (importData data dm) = imported (snap_settings data) (settings dm).
Proof.
  unfold importData.
  destruct (snap_members data), (snap_activities data),
    (snap_schedules data), (snap_settings data); cbn; done.
Qed.

(** C6. Importing what [exportData] returned leaves the four collections
    as they were, whatever the export date (which [importData] never
    reads), and ends with each of them written to storage.  For any
    payload, a collection whose key holds a value becomes that value; a
    collection whose key is absent (or holds a falsy value) is left as it
    was, in memory and in storage. *)
Theorem import_export_round_trip (now : Z) (data : snapshot)
    (dm : DataManager) :
  (let dm' := importData (exportData now dm) dm in
   members dm' = members dm ∧ activities dm' = activities dm ∧
   schedules dm' = schedules dm ∧ settings dm' = settings dm ∧
   localStorage dm' !! "members" = Some (DocArray (members dm)) ∧
   localStorage dm' !! "activities" = Some (DocArray (activities dm)) ∧
   localStorage dm' !! "schedules" = Some (DocArray (schedules dm)) ∧
   localStorage dm' !! "settings" = Some (DocObject (settings dm)) ∧
   (∀ k, k ∉ ["members"; "activities"; "schedules"; "settings"] →
      localStorage dm' !! k = localStorage dm !! k)) ∧
  (∀ v, importData (with_exportDate v data) dm = importData data dm) ∧
  (let dm' := importData data dm in
   members dm' = imported (snap_members data) (members dm) ∧
   activities dm' = imported (snap_activities data) (activities dm) ∧
   schedules dm' = imported (snap_schedules data) (schedules dm) ∧
   settings dm' = imported (snap_settings data) (settings dm) ∧
   localStorage dm' !! "members" =
     imported_document (snap_members data) DocArray (localStorage dm !! "members") ∧
   localStorage dm' !! "activities" =
     imported_document (snap_activities data) DocArray (localStorage dm !! "activities") ∧
   localStorage dm' !! "schedules" =
     imported_document (snap_schedules data) DocArray (localStorage dm !! "schedules") ∧
   localStorage dm' !! "settings" =
     imported_document (snap_settings data) DocObject (localStorage dm !! "settings")).
Proof.
  split; [|split].
  - cbn. repeat split; try by simplify_map_eq.
    intros k Hk. rewrite !not_elem_of_cons in Hk.
    destruct Hk as (? & ? & ? & ? & _). by simplify_map_eq.
  - reflexivity.
  - cbn. unfold importData.
    destruct (snap_members data), (snap_activities data),
      (snap_schedules data), (snap_settings data); cbn;
      repeat split; by simplify_map_eq.
Qed.

Lemma import_export_round_trip_witness :
  importData (exportData 1700000000000 sample_store) sample_store
  = saveData "settings" (DocObject (settings sample_store))
      (saveData "schedules" (DocArray (schedules sample_store))
        (saveData "activities" (DocArray (activities sample_store))
          (saveData "members" (DocArray (members sample_store)) sample_store))) ∧
  members (importData (exportData 1700000000000 sample_store) sample_store)
  = members sample_store.
Proof.
  split; [reflexivity|].
  apply (import_export_round_trip 1700000000000
           (exportData 1700000000000 sample_store) sample_store).
Defined.

(** ** Generation: the precondition checks *)

(** C1. With no active member [generate] throws the no-active-members
    error; with an active member and no activity it throws the
    no-activities error.  Neither outcome depends on the dates (or on
    anything but the two collections), and in both the data manager —
    members, activities, schedules, settings, storage — is exactly as
    before the call: the checks come before the schedules are cleared. *)
Theorem generate_checks_before_clearing (fuel : nat) (tz : Z)
    (rnd : nat → nat) (ids : nat → string) (startDate endDate : date)
    (dm : DataManager) :
  (active_members dm = [] →
     generate fuel tz rnd ids startDate endDate dm =
       {| gen_result := Thrown NoActiveMembers; gen_store := dm; gen_trace := [] |}) ∧
  (active_members dm ≠ [] → activities dm = [] →
     generate fuel tz rnd ids startDate endDate dm =
       {| gen_result := Thrown NoActivities; gen_store := dm; gen_trace := [] |}).
Proof.
  unfold generate. rewrite getActiveMembers_length. split.
  - intros ->. reflexivity.
  - intros Hsome ->. destruct (active_members dm); [done|reflexivity].
Qed.

Lemma generate_checks_before_clearing_witness :
  gen_store (generate 100 0 (λ _, O) (λ _, "id"%string) (Some 0) (Some 864000000)
               no_active_store) = no_active_store ∧
  gen_result (generate 100 0 (λ _, O) (λ _, "id"%string) (Some 0) (Some 864000000)
               no_activity_store) = Thrown NoActivities.
Proof.
  split.
  - rewrite (proj1 (generate_checks_before_clearing 100 0 (λ _, O) (λ _, "id"%string)
                      (Some 0) (Some 864000000) no_active_store)); reflexivity.
  - rewrite (proj2 (generate_checks_before_clearing 100 0 (λ _, O) (λ _, "id"%string)
                      (Some 0) (Some 864000000) no_activity_store)).
    + reflexivity.
    + discriminate.
    + reflexivity.
Defined.

(** ** Calendar arithmetic *)

Lemma YearFromDay_spec d :
  DayFromYear (YearFromDay d) ≤ d < DayFromYear (YearFromDay d + 1).
Proof.
  unfold YearFromDay, DayFromYear.
  repeat match goal with |- context [Z.leb ?a ?b] => destruct (Z.leb_spec a b) end;
    Z.div_mod_to_equations; lia.
Qed.

Lemma DayFromYear_succ y : DayFromYear (y + 1) = DayFromYear y + DaysInYear y.
Proof.
  unfold DayFromYear, DaysInYear, InLeapYear.
  repeat match goal with |- context [Z.eqb ?a ?b] => destruct (Z.eqb_spec a b) end;
    cbn; Z.div_mod_to_equations; lia.
Qed.

Lemma MonthFromDay_range d : 0 ≤ MonthFromDay d ≤ 11.
Proof.
  unfold MonthFromDay.
  repeat match goal with |- context [Z.ltb ?a ?b] => destruct (Z.ltb a b) end; lia.
Qed.

Lemma MakeDay_in_year y m dt :
  0 ≤ m ≤ 11 → MakeDay y m dt = DayFromYear y + month_start (InLeapYear y) m + dt - 1.
Proof.
  intros Hm. unfold MakeDay.
  rewrite (Z.div_small m 12), (Z.mod_small m 12), Z.add_0_r by lia. done.
Qed.

(** A day is the day its own year, month and day of month make. *)
Lemma MakeDay_of_day d :
  MakeDay (YearFromDay d) (MonthFromDay d) (DateFromDay d) = d.
Proof.
  rewrite MakeDay_in_year by apply MonthFromDay_range.
  unfold DateFromDay, DayWithinYear. lia.
Qed.

Lemma MakeDay_date_shift y m dt n : MakeDay y m (dt + n) = MakeDay y m dt + n.
Proof. unfold MakeDay. lia. Qed.

Lemma month_start_step leap m :
  0 ≤ m < 11 → 28 ≤ month_start leap (m + 1) - month_start leap m ≤ 31.
Proof.
  intros Hm.
  assert (m = 0 ∨ m = 1 ∨ m = 2 ∨ m = 3 ∨ m = 4 ∨ m = 5 ∨ m = 6 ∨ m = 7
          ∨ m = 8 ∨ m = 9 ∨ m = 10) as Hcases by lia.
  destruct leap; repeat (destruct Hcases as [->|Hcases]); try subst m;
    vm_compute; split; discriminate.
Qed.

(** Moving one month on moves at least 28 days on. *)
Lemma MakeDay_month_succ y m dt : MakeDay y m dt + 28 ≤ MakeDay y (m + 1) dt.
Proof.
  unfold MakeDay.
  destruct (decide (m mod 12 = 11)) as [Hlast|Hnot].
  - assert ((m + 1) / 12 = m / 12 + 1) as -> by (Z.div_mod_to_equations; lia).
    assert ((m + 1) mod 12 = 0) as -> by (Z.div_mod_to_equations; lia).
    rewrite Hlast, Z.add_assoc, DayFromYear_succ.
    unfold DaysInYear. destruct (InLeapYear (y + m / 12)), (InLeapYear _); cbn; lia.
  - assert ((m + 1) / 12 = m / 12) as -> by (Z.div_mod_to_equations; lia).
    assert ((m + 1) mod 12 = m mod 12 + 1) as -> by (Z.div_mod_to_equations; lia).
    pose proof (month_start_step (InLeapYear (y + m / 12)) (m mod 12)
                  ltac:(Z.div_mod_to_equations; lia)).
    lia.
Qed.

Lemma MakeDay_month_add y m dt (n : nat) :
  MakeDay y m dt + 28 * Z.of_nat n ≤ MakeDay y (m + Z.of_nat n) dt.
Proof.
  induction n as [|n IH].
  - replace (m + Z.of_nat 0) with m by lia. lia.
  - pose proof (MakeDay_month_succ y (m + Z.of_nat n) dt).
    replace (m + Z.of_nat (S n)) with (m + Z.of_nat n + 1) by lia. lia.
Qed.

Lemma time_of_day_split t : t = Day t * msPerDay + TimeWithinDay t.
Proof. unfold Day, TimeWithinDay, msPerDay. Z.div_mod_to_equations. lia. Qed.

(** [d.setDate(d.getDate() + n)] moves a date by [n] days, in any zone. *)
Lemma setDate_getDate_add tz t n :
  setDate tz (Some t) (num_add (getDate tz (Some t)) (Some n))
  = TimeClip (t + n * msPerDay).
Proof.
  cbn. f_equal. rewrite MakeDay_date_shift, MakeDay_of_day.
  unfold UTC, MakeDate.
  pose proof (time_of_day_split (LocalTime tz t)). unfold LocalTime in *. lia.
Qed.

(** [d.setMonth(d.getMonth() + n)] keeps the day of the month and the
    time of day, and moves the month; for [n >= 1] the date moves at
    least 28 days on for each month. *)
Lemma setMonth_getMonth_add tz t n :
  1 ≤ n →
  ∃ t', setMonth tz (Some t) (num_add (getMonth tz (Some t)) (Some n)) = TimeClip t'
        ∧ t + 28 * n * msPerDay ≤ t'.
Proof.
  intros Hn. cbn. eexists. split; [reflexivity|].
  set (l := LocalTime tz t). set (d := Day l).
  pose proof (MakeDay_month_add (YearFromDay d) (MonthFromDay d) (DateFromDay d) (Z.to_nat n)) as H.
  rewrite Z2Nat.id, MakeDay_of_day in H by lia.
  unfold UTC, MakeDate.
  pose proof (time_of_day_split l). fold d in H0. subst l. unfold LocalTime in *.
  unfold msPerDay in *. nia.
Qed.

Lemma TimeClip_Some t t' : TimeClip t = Some t' → t' = t.
Proof. unfold TimeClip. case_match; congruence. Qed.

(** ** The stepping of an activity's dates *)

Lemma advance_days tz t n :
  advance tz (VStr "days") (Some n) (Some t) = TimeClip (t + n * msPerDay).
Proof. apply setDate_getDate_add. Qed.

Lemma advance_weeks tz t n :
  advance tz (VStr "weeks") (Some n) (Some t) = TimeClip (t + n * 7 * msPerDay).
Proof. apply (setDate_getDate_add tz t (n * 7)). Qed.

Lemma advance_months tz t n :
  1 ≤ n →
  ∃ t', advance tz (VStr "months") (Some n) (Some t) = TimeClip t'
        ∧ t + 28 * n * msPerDay ≤ t'.
Proof. apply setMonth_getMonth_add. Qed.

(** A well-formed activity steps at least one day forward, unless the
    step leaves the range of dates. *)
Lemma step_of_progress tz activity t t' :
  well_formed_activity activity →
  step_of tz activity (Some t) = Some t' → t + msPerDay ≤ t'.
Proof.
  intros [(f & Hf & Hpos) Hunit] Hstep. unfold step_of in Hstep.
  rewrite Hf in Hstep. unfold msPerDay in *.
  destruct Hunit as [Hu|[Hu|Hu]]; rewrite Hu in Hstep.
  - rewrite advance_days in Hstep. apply TimeClip_Some in Hstep.
    unfold msPerDay in *. nia.
  - rewrite advance_weeks in Hstep. apply TimeClip_Some in Hstep.
    unfold msPerDay in *. nia.
  - destruct (advance_months tz t f Hpos) as (t'' & Heq & Hle).
    rewrite Heq in Hstep. apply TimeClip_Some in Hstep.
    unfold msPerDay in *. nia.
Qed.

Lemma occurrence_date_succ tz activity startDate i :
  occurrence_date tz activity startDate (S i)
  = occurrence_date tz activity (step_of tz activity startDate) i.
Proof. unfold occurrence_date. apply Nat.iter_succ_r. Qed.

Lemma occurrence_count_zero tz activity startDate endDate :
  date_le startDate endDate = false →
  occurrence_count tz activity startDate endDate 0.
Proof. intros H. split; [intros i Hi; lia|done]. Qed.

Lemma occurrence_count_succ tz activity startDate endDate n :
  date_le startDate endDate = true →
  occurrence_count tz activity (step_of tz activity startDate) endDate n →
  occurrence_count tz activity startDate endDate (S n).
Proof.
  intros Hle [Hin Hout]. split.
  - intros [|i] Hi; [done|]. rewrite occurrence_date_succ. apply Hin. lia.
  - by rewrite occurrence_date_succ.
Qed.

Lemma occurrence_count_inv tz activity startDate endDate n :
  occurrence_count tz activity startDate endDate (S n) →
  date_le startDate endDate = true ∧
  occurrence_count tz activity (step_of tz activity startDate) endDate n.
Proof.
  intros [Hin Hout]. split; [apply (Hin O); lia|]. split.
  - intros i Hi. rewrite <- occurrence_date_succ. apply Hin. lia.
  - by rewrite <- occurrence_date_succ.
Qed.


(** The loop of a well-formed activity ends: the window holds finitely
    many stepping dates, at most one per day. *)
Lemma occurrence_count_exists_aux tz activity endDate (k : nat) :
  well_formed_activity activity →
  ∀ startDate,
    (∀ s e, startDate = Some s → endDate = Some e → e - s < Z.of_nat k * msPerDay) →
    ∃ n, (n ≤ k)%nat ∧ occurrence_count tz activity startDate endDate n.
Proof.
  intros Hwf. induction k as [|k IH]; intros startDate Hbound.
  - exists O. split; [done|]. apply occurrence_count_zero.
    destruct startDate as [s|], endDate as [e|]; try done.
    specialize (Hbound s e eq_refl eq_refl). cbn. apply Z.leb_gt. lia.
  - destruct (date_le startDate endDate) eqn:Hle.
    + destruct (IH (step_of tz activity startDate)) as (n & Hn & Hcount).
      { intros s' e Hs' He.
        destruct startDate as [s|]; [|done].
        specialize (Hbound s e eq_refl He).
        pose proof (step_of_progress tz activity s s' Hwf Hs'). lia. }
      exists (S n). split; [lia|]. by apply occurrence_count_succ.
    + exists O. split; [lia|]. by apply occurrence_count_zero.
Qed.

Lemma occurrence_count_exists tz activity startDate endDate :
  well_formed_activity activity →
  ∃ n, occurrence_count tz activity startDate endDate n ∧
       ∀ s e, startDate = Some s → endDate = Some e → s ≤ e →
              Z.of_nat n ≤ (e - s) / msPerDay + 1.
Proof.
  intros Hwf. destruct (date_le startDate endDate) eqn:Hle.
  - destruct startDate as [s|], endDate as [e|]; try done.
    cbn in Hle. apply Z.leb_le in Hle.
    destruct (occurrence_count_exists_aux tz activity (Some e)
                (Z.to_nat ((e - s) / msPerDay + 1)) Hwf (Some s)) as (n & Hn & Hcount).
    { intros s' e' [= <-] [= <-]. rewrite Z2Nat.id.
      - unfold msPerDay. Z.div_mod_to_equations. lia.
      - unfold msPerDay. Z.div_mod_to_equations. lia. }
    exists n. split; [done|]. intros s' e' [= <-] [= <-] _.
    assert (0 ≤ (e - s) / msPerDay) by (apply Z.div_pos; unfold msPerDay; lia).
    lia.
  - exists O. split; [by apply occurrence_count_zero|].
    intros s e -> -> Hse. cbn in Hle. apply Z.leb_gt in Hle. lia.
Qed.

(** Every stepping date of a well-formed activity lies in the window. *)
Lemma occurrence_date_in_window tz activity s endDate n i :
  well_formed_activity activity →
  occurrence_count tz activity (Some s) endDate n → (i < n)%nat →
  ∃ t e, occurrence_date tz activity (Some s) i = Some t ∧ endDate = Some e
         ∧ s + Z.of_nat i * msPerDay ≤ t ≤ e.
Proof.
  intros Hwf [Hin _] Hi.
  assert (∀ j, (j ≤ i)%nat → ∃ t, occurrence_date tz activity (Some s) j = Some t
             ∧ s + Z.of_nat j * msPerDay ≤ t) as Hlow.
  { induction j as [|j IHj]; intros Hj.
    - exists s. split; [done|lia].
    - destruct IHj as (t & Ht & Hst); [lia|].
      pose proof (Hin (S j) ltac:(lia)) as Hle.
      change (occurrence_date tz activity (Some s) (S j))
        with (step_of tz activity (occurrence_date tz activity (Some s) j)) in *.
      rewrite Ht in *.
      destruct (step_of tz activity (Some t)) as [t'|] eqn:Hstep; [|done].
      exists t'. split; [done|].
      pose proof (step_of_progress tz activity t t' Hwf Hstep). lia. }
  destruct (Hlow i) as (t & Ht & Hst); [lia|].
  pose proof (Hin i Hi) as Hle. rewrite Ht in Hle.
  destruct endDate as [e|]; [|done].
  exists t, e. cbn in Hle. apply Z.leb_le in Hle. done.
Qed.

(** ** Sorting *)

Lemma insert_sorted_perm {A} (le : A → A → bool) x l :
  insert_sorted le x l ≡ₚ x :: l.
Proof.
  induction l as [|y l IH]; cbn; [done|].
  destruct (le x y); [done|]. rewrite IH. apply Permutation_swap.
Qed.

Lemma stable_sort_perm {A} (le : A → A → bool) l : stable_sort le l ≡ₚ l.
Proof.
  induction l as [|x l IH]; cbn; [done|].
  by rewrite insert_sorted_perm, IH.
Qed.

Lemma stable_sort_nil {A} (le : A → A → bool) l : stable_sort le l = [] → l = [].
Proof.
  intros H. pose proof (Permutation_length (stable_sort_perm le l)) as Hlen.
  rewrite H in Hlen. by destruct l.
Qed.

(** When no element has to move in front of another, the array is left
    as it is. *)
Lemma stable_sort_id {A} (le : A → A → bool) l :
  (∀ x y, x ∈ l → y ∈ l → le x y = true) → stable_sort le l = l.
Proof.
  induction l as [|x l IH]; intros Hle; cbn; [done|].
  rewrite IH by (intros; apply Hle; by apply list_elem_of_further).
  destruct l as [|y l]; cbn; [done|].
  rewrite Hle; [done|apply list_elem_of_here|].
  apply list_elem_of_further, list_elem_of_here.
Qed.

(** The first element after a stable sort is the first element of the
    array that no element has to move in front of. *)
Lemma stable_sort_head_first {A} (le : A → A → bool) l x :
  stable_sort le l !! O = Some x →
  ∃ l1 l2, l = l1 ++ x :: l2 ∧ ∀ y, y ∈ l1 → le y x = false.
Proof.
  revert x. induction l as [|a l IH]; intros x Hx; cbn in Hx; [done|].
  destruct (stable_sort le l) as [|b rest] eqn:Hsort.
  - cbn in Hx. injection Hx as <-.
    apply stable_sort_nil in Hsort as ->.
    exists [], []. split; [done|]. intros y Hy. by apply elem_of_nil in Hy.
  - cbn in Hx. destruct (le a b) eqn:Hab; cbn in Hx; injection Hx as <-.
    + exists [], l. split; [done|]. intros y Hy. by apply elem_of_nil in Hy.
    + destruct (IH b eq_refl) as (l1 & l2 & -> & Hbefore).
      exists (a :: l1), l2. split; [done|].
      intros y Hy. apply elem_of_cons in Hy as [->|Hy]; [done|by apply Hbefore].
Qed.

Lemma stable_sort_head_min {A} (le : A → A → bool) l x :
  (∀ a b, a ∈ l → b ∈ l → le a b = false → le b a = true) →
  (∀ a b c, a ∈ l → b ∈ l → c ∈ l → le a b = true → le b c = true → le a c = true) →
  stable_sort le l !! O = Some x →
  ∀ y, y ∈ l → le x y = true.
Proof.
  revert x. induction l as [|a l IH]; intros x Htotal Htrans Hx y Hy;
    [by apply elem_of_nil in Hy|].
  assert (Hrefl : ∀ z, z ∈ a :: l → le z z = true).
  { intros z Hz. destruct (le z z) eqn:E; [done|].
    pose proof (Htotal z z Hz Hz E). congruence. }
  cbn in Hx. destruct (stable_sort le l) as [|b rest] eqn:Hsort.
  - cbn in Hx. injection Hx as <-.
    apply stable_sort_nil in Hsort as ->.
    apply list_elem_of_singleton in Hy as ->. apply Hrefl, list_elem_of_here.
  - assert (Hb : b ∈ l).
    { rewrite <- (stable_sort_perm le l), Hsort. apply list_elem_of_here. }
    assert (IHb : ∀ z, z ∈ l → le b z = true).
    { apply IH; [| |done].
      - intros ? ? ? ?. apply Htotal; by apply list_elem_of_further.
      - intros ? ? ? ? ? ?. apply Htrans; by apply list_elem_of_further. }
    cbn in Hx. destruct (le a b) eqn:Hab; cbn in Hx; injection Hx as <-.
    + apply elem_of_cons in Hy as [->|Hy]; [apply Hrefl, list_elem_of_here|].
      apply (Htrans a b y); [apply list_elem_of_here|by apply list_elem_of_further
                            |by apply list_elem_of_further|done|by apply IHb].
    + apply elem_of_cons in Hy as [->|Hy]; [|by apply IHb].
      apply Htotal; [apply list_elem_of_here|by apply list_elem_of_further|done].
Qed.

(** ** Participation counts in the members array *)

Lemma count_of_increment_eq heap r c :
  count_of heap r = Some c → count_of (alter increment r heap) r = Some (c + 1).
Proof.
  unfold count_of. intros H.
  destruct (heap !! r) as [m|] eqn:Hm; [|done]. cbn in H.
  rewrite list_lookup_alter_eq, Hm. cbn.
  unfold increment. rewrite get_set_eq, H. done.
Qed.

Lemma count_of_increment_ne heap r r' :
  r ≠ r' → count_of (alter increment r heap) r' = count_of heap r'.
Proof. intros Hne. unfold count_of. by rewrite list_lookup_alter_ne. Qed.

Lemma count_le_numeric heap a b ca cb :
  count_of heap a = Some ca → count_of heap b = Some cb →
  count_le heap a b = (ca <=? cb).
Proof.
  intros Ha Hb. unfold count_le. rewrite Ha, Hb.
  destruct (Z.leb_spec (ca - cb) 0), (Z.leb_spec ca cb); lia || done.
Qed.

Lemma counted_increment heap refs r :
  counted heap refs → counted (alter increment r heap) refs.
Proof.
  intros Hc r' Hr'. destruct (Hc r' Hr') as [c Hc'].
  destruct (decide (r = r')) as [->|Hne].
  - rewrite (count_of_increment_eq _ _ c); eauto.
  - rewrite count_of_increment_ne; eauto.
Qed.

(** Under the balanced policy's sort the first reference has the least
    count, and is the first of the array among those of least count. *)
Lemma sort_by_count_head heap refs r :
  counted heap refs →
  stable_sort (count_le heap) refs !! O = Some r →
  ∃ c, count_of heap r = Some c ∧
    (∀ r', r' ∈ refs → ∃ c', count_of heap r' = Some c' ∧ c ≤ c') ∧
    ∃ l1 l2, refs = l1 ++ r :: l2 ∧
      ∀ r', r' ∈ l1 → ∃ c', count_of heap r' = Some c' ∧ c < c'.
Proof.
  intros Hc Hhead.
  assert (Hr : r ∈ refs).
  { rewrite <- (stable_sort_perm (count_le heap) refs).
    by eapply list_elem_of_lookup_2. }
  destruct (Hc r Hr) as [c Hcr]. exists c. split; [done|]. split.
  - intros r' Hr'. destruct (Hc r' Hr') as [c' Hcr']. exists c'. split; [done|].
    apply Z.leb_le. rewrite <- (count_le_numeric heap r r' c c') by done.
    apply (stable_sort_head_min (count_le heap) refs r); [| |done|done].
    + intros a b Ha Hb. destruct (Hc a Ha) as [ca Hca], (Hc b Hb) as [cb Hcb].
      rewrite (count_le_numeric heap a b ca cb), (count_le_numeric heap b a cb ca) by done.
      intros ?%Z.leb_gt. apply Z.leb_le. lia.
    + intros a b d Ha Hb Hd.
      destruct (Hc a Ha) as [ca Hca], (Hc b Hb) as [cb Hcb], (Hc d Hd) as [cd Hcd].
      rewrite (count_le_numeric heap a b ca cb), (count_le_numeric heap b d cb cd),
        (count_le_numeric heap a d ca cd) by done.
      intros ?%Z.leb_le ?%Z.leb_le. apply Z.leb_le. lia.
  - destruct (stable_sort_head_first _ _ _ Hhead) as (l1 & l2 & -> & Hbefore).
    exists l1, l2. split; [done|]. intros r' Hr'.
    destruct (Hc r') as [c' Hcr']; [apply elem_of_app; by left|].
    exists c'. split; [done|].
    specialize (Hbefore r' Hr').
    rewrite (count_le_numeric heap r' r c' c) in Hbefore by done.
    apply Z.leb_gt in Hbefore. lia.
Qed.

(** ** The loop of [generateActivitySchedules] *)

Lemma lookup_nonempty {A} (l : list A) i : l ≠ [] → is_Some (l !! (i mod length l)%nat).
Proof.
  intros Hl. apply lookup_lt_is_Some_2, Nat.mod_upper_bound.
  by destruct l.
Qed.

Lemma select_some algorithm rnd st members :
  loop_inv members st →
  ∃ r index sorted drawn,
    select algorithm rnd st = (Some r, (index, sorted, drawn)) ∧
    r ∈ members ∧ sorted ≡ₚ members.
Proof.
  intros (Hperm & Hne & _).
  assert (Hsorted : sortedMembers st ≠ []).
  { intros Hnil. rewrite Hnil in Hperm. by apply Permutation_nil_l in Hperm. }
  assert (Hin : ∀ l i r, l ≡ₚ members → l !! i = Some r → r ∈ members).
  { intros l i r Hl Hr. rewrite <- Hl. by eapply list_elem_of_lookup_2. }
  unfold select.
  destruct (strict_eq algorithm (VStr "rotation"));
    [|destruct (strict_eq algorithm (VStr "random"));
      [|destruct (strict_eq algorithm (VStr "balanced"))]].
  - destruct (lookup_nonempty (sortedMembers st) (memberIndex st) Hsorted) as [r Hr].
    rewrite Hr. eauto 10.
  - destruct (lookup_nonempty (sortedMembers st) (rnd (draws st)) Hsorted) as [r Hr].
    rewrite Hr. eauto 10.
  - pose proof (stable_sort_perm (count_le (heap st)) (sortedMembers st)) as Hs.
    destruct (stable_sort (count_le (heap st)) (sortedMembers st)) as [|r rest] eqn:E.
    { apply stable_sort_nil in E. done. }
    cbn. eexists r, _, _, _. split; [done|]. split.
    + apply (Hin (r :: rest) O); [by rewrite Hs|done].
    + by rewrite Hs.
  - destruct (sortedMembers st) as [|r rest] eqn:E; [done|].
    cbn. eexists r, _, _, _. split; [done|]. split; [|done].
    by apply (Hin (r :: rest) O).
Qed.

(** What a pass of the loop body that does not throw has done. *)
Lemma loop_body_inr tz rnd activity algorithm st st' :
  loop_body tz rnd activity algorithm st = inr st' →
  ∃ r m t,
    currentDate st = Some t ∧ heap st !! r = Some m ∧
    select algorithm rnd st = (Some r, (memberIndex st', sortedMembers st', draws st')) ∧
    currentDate st' = step_of tz activity (Some t) ∧
    heap st' = alter increment r (heap st) ∧
    emitted st' = emitted st ++
      [ {| occ_entry := make_entry activity m t; occ_member := r;
           occ_array := sortedMembers st; occ_heap := heap st |} ].
Proof.
  unfold loop_body.
  destruct (select algorithm rnd st) as [assigned [[index sorted] drawn]].
  destruct assigned as [r|]; cbn; [|done].
  destruct (heap st !! r) as [m|] eqn:Hm; cbn; [|done].
  destruct (currentDate st) as [t|]; [|done].
  intros [= <-]. exists r, m, t. cbn. done.
Qed.

(** Under the invariant a pass at a valid date does not throw, and
    re-establishes the invariant. *)
Lemma loop_body_progress tz rnd activity algorithm members st t :
  loop_inv members st → currentDate st = Some t →
  ∃ st', loop_body tz rnd activity algorithm st = inr st' ∧ loop_inv members st'.
Proof.
  intros Hinv Ht.
  destruct (select_some algorithm rnd st members Hinv)
    as (r & index & sorted & drawn & Hsel & Hr & Hperm).
  destruct Hinv as (_ & Hne & Hheap).
  destruct (Hheap r Hr) as [m Hm].
  unfold loop_body. rewrite Hsel. cbn. rewrite Hm, Ht. cbn.
  eexists. split; [done|]. split; [done|]. split; [done|]. cbn.
  intros r' Hr'. destruct (Hheap r' Hr') as [m' Hm'].
  apply lookup_lt_is_Some. rewrite length_alter. by eapply lookup_lt_Some.
Qed.

Lemma while_loop_exit fuel tz rnd activity algorithm endDate st :
  date_le (currentDate st) endDate = false →
  while_loop fuel tz rnd activity algorithm endDate st = (Completed, st).
Proof. intros H. destruct fuel; cbn; by rewrite H. Qed.

Lemma while_loop_pass fuel tz rnd activity algorithm endDate st st' :
  date_le (currentDate st) endDate = true →
  loop_body tz rnd activity algorithm st = inr st' →
  while_loop (S fuel) tz rnd activity algorithm endDate st
  = while_loop fuel tz rnd activity algorithm endDate st'.
Proof. intros H Hbody. cbn. by rewrite H, Hbody. Qed.

(** Invariant rule: a property of the loop state that every pass keeps
    holds of the state the loop ends in, however it ends. *)
Lemma while_loop_invariant (I : loop_state → Prop) fuel tz rnd activity
    algorithm endDate st :
  (∀ st st', I st → date_le (currentDate st) endDate = true →
     loop_body tz rnd activity algorithm st = inr st' → I st') →
  I st → I (while_loop fuel tz rnd activity algorithm endDate st).2.
Proof.
  intros Hstep. revert st. induction fuel as [|fuel IH]; intros st HI; cbn.
  - by destruct (date_le _ _).
  - destruct (date_le _ _) eqn:Hle; [|done].
    destruct (loop_body tz rnd activity algorithm st) as [e|st'] eqn:Hbody; [done|].
    apply IH. by eapply Hstep.
Qed.

(** Total run: when the window holds [n] stepping dates and the fuel
    allows [n] passes, the loop completes after emitting one occurrence
    per stepping date, in order. *)
Lemma while_loop_completes tz rnd activity algorithm endDate members n :
  ∀ fuel st,
    loop_inv members st →
    occurrence_count tz activity (currentDate st) endDate n → (n ≤ fuel)%nat →
    ∃ st' occs,
      while_loop fuel tz rnd activity algorithm endDate st = (Completed, st') ∧
      loop_inv members st' ∧
      emitted st' = emitted st ++ occs ∧ length occs = n ∧
      (∀ i occ, occs !! i = Some occ →
         emitted_at tz activity members (currentDate st) i occ) ∧
      heap st' = foldl (λ h r, alter increment r h) (heap st) (occ_member <$> occs).
Proof.
  induction n as [|n IH]; intros fuel st Hinv Hcount Hfuel.
  - exists st, []. destruct Hcount as [_ Hout]. cbn in Hout.
    rewrite while_loop_exit by done. rewrite app_nil_r.
    split; [done|]. split; [done|]. repeat split; done.
  - apply occurrence_count_inv in Hcount as [Hle Hcount].
    destruct fuel as [|fuel]; [lia|].
    destruct (currentDate st) as [t|] eqn:Ht; [|done].
    destruct (loop_body_progress tz rnd activity algorithm members st t Hinv Ht)
      as (st1 & Hbody & Hinv1).
    destruct (loop_body_inr _ _ _ _ _ _ Hbody)
      as (r & m & t' & Ht' & Hm & Hsel & Hdate & Hheap & Hemit).
    rewrite Ht in Ht'. injection Ht' as <-.
    destruct (IH fuel st1 Hinv1) as (st' & occs & Hrun & Hinv' & Hocc & Hlen & Hat & Hfold);
      [by rewrite Hdate|lia|].
    eexists st', (_ :: occs). split.
    { rewrite (while_loop_pass _ _ _ _ _ _ st st1); [done|by rewrite Ht|done]. }
    split; [done|]. split.
    { rewrite Hocc, Hemit, <- app_assoc. done. }
    split; [cbn; by rewrite Hlen|]. split.
    + intros [|i] occ Hi; cbn in Hi.
      * injection Hi as <-. exists t, m. cbn. repeat split; try done.
        destruct (select_some algorithm rnd st members Hinv)
          as (r0 & ? & ? & ? & Hsel0 & Hr0 & _).
        rewrite Hsel in Hsel0. by injection Hsel0 as ->.
      * destruct (Hat i occ Hi) as (ti & mi & Hti & ? & ? & ?).
        exists ti, mi. rewrite occurrence_date_succ, <- Hdate. done.
    + cbn. by rewrite Hfold, Hheap.
Qed.

(** ** The text of a date *)

Lemma no_T_app a b : no_T (a +:+ b) = no_T a && no_T b.
Proof.
  induction a as [|x a IH]; simpl; [done|]. rewrite IH. by rewrite andb_assoc.
Qed.

Lemma before_T_app a b : no_T a = true → before_T (a +:+ b) = a +:+ before_T b.
Proof.
  induction a as [|x a IH]; simpl; [done|].
  intros [Hx Ha]%andb_prop. apply negb_true_iff in Hx. rewrite Hx.
  by rewrite IH.
Qed.

Lemma digit_char_no_T n : Ascii.eqb (digit_char n) "T" = false.
Proof.
  unfold digit_char.
  assert (0 ≤ n mod 10 < 10) as Hr by (apply Z.mod_pos_bound; lia).
  assert (∃ k, (k < 10)%nat ∧ Z.to_nat (n mod 10) = k) as (k & Hk & ->)
    by (exists (Z.to_nat (n mod 10)); lia).
  do 10 (destruct k as [|k]; [reflexivity|]). lia.
Qed.

Lemma digits_no_T w n : no_T (digits w n) = true.
Proof.
  revert n. induction w as [|w IH]; intros n; [done|].
  cbn [digits]. rewrite no_T_app, IH. cbn [no_T andb]. by rewrite digit_char_no_T.
Qed.

Lemma date_text_no_T d : no_T (date_text d) = true.
Proof.
  unfold date_text, year_text. rewrite !no_T_app, !digits_no_T.
  destruct ((0 <=? YearFromDay d) && (YearFromDay d <=? 9999));
    [by rewrite digits_no_T|].
  rewrite no_T_app, digits_no_T. by destruct (YearFromDay d <? 0).
Qed.

(** The [date] field of an entry is the UTC calendar date of the loop's
    current date. *)
Lemma append_empty_r (s : string) : s +:+ "" = s.
Proof.
  induction s as [|c s IH]; [done|].
  change (String c (s +:+ "") = String c s). by f_equal.
Qed.

Lemma iso_date_text t : before_T (toISOString t) = date_text (Day t).
Proof.
  unfold toISOString. rewrite before_T_app by apply date_text_no_T.
  change (before_T ("T" +:+ ?rest)) with EmptyString.
  apply append_empty_r.
Qed.

(** ** The date text written by the generator is read back by the scan *)

Lemma digit_value_char n : digit_value (digit_char n) = Some (n mod 10).
Proof.
  unfold digit_char.
  assert (0 ≤ n mod 10 < 10) as Hr by (apply Z.mod_pos_bound; lia).
  assert (∃ k, (k < 10)%nat ∧ n mod 10 = Z.of_nat k) as (k & Hk & ->)
    by (exists (Z.to_nat (n mod 10)); lia).
  rewrite Nat2Z.id.
  do 10 (destruct k as [|k]; [reflexivity|]). lia.
Qed.

Lemma two_digits_chars n :
  0 ≤ n ≤ 99 → two_digits (digit_char (n / 10)) (digit_char n) = Some n.
Proof.
  intros Hn. unfold two_digits. rewrite !digit_value_char. cbn.
  f_equal. Z.div_mod_to_equations. lia.
Qed.

Lemma DayWithinYear_range d :
  0 ≤ DayWithinYear d < DaysInYear (YearFromDay d).
Proof.
  unfold DayWithinYear. pose proof (YearFromDay_spec d).
  rewrite DayFromYear_succ in *. lia.
Qed.

Lemma DateFromDay_range d : 1 ≤ DateFromDay d ≤ 31.
Proof.
  pose proof (DayWithinYear_range d) as Hn.
  unfold DateFromDay, MonthFromDay, DaysInYear in *.
  destruct (InLeapYear (YearFromDay d));
    repeat match goal with
           | |- context [Z.ltb ?a ?b] => destruct (Z.ltb_spec a b)
           end; cbn in *; lia.
Qed.

Lemma digits_4 y s :
  digits 4 y +:+ s =
  String (digit_char (y / 10 / 10 / 10)) (String (digit_char (y / 10 / 10))
    (String (digit_char (y / 10)) (String (digit_char y) s))).
Proof. reflexivity. Qed.

Lemma digits_2 n s :
  digits 2 n +:+ s = String (digit_char (n / 10)) (String (digit_char n) s).
Proof. reflexivity. Qed.

(** For the years written with four digits, parsing the text of a day
    gives midnight UTC of that day. *)
Lemma Date_parse_date_text d :
  0 ≤ YearFromDay d ≤ 9999 → Date_parse (date_text d) = Some (d * msPerDay).
Proof.
  intros Hy. unfold date_text, year_text.
  assert ((0 <=? YearFromDay d) && (YearFromDay d <=? 9999) = true) as ->.
  { apply andb_true_intro. split; apply Z.leb_le; lia. }
  pose proof (MonthFromDay_range d) as Hm.
  pose proof (DateFromDay_range d) as Hd.
  rewrite digits_4, (digits_2 (MonthFromDay d + 1)).
  change (digits 2 (DateFromDay d))
    with (String (digit_char (DateFromDay d / 10))
            (String (digit_char (DateFromDay d)) "")).
  do 2 change ("-" +:+ ?x) with (String "-"%char x).
  unfold Date_parse.
  rewrite (two_digits_chars (YearFromDay d / 10 / 10))
    by (Z.div_mod_to_equations; lia).
  rewrite (two_digits_chars (MonthFromDay d + 1)) by lia.
  rewrite (two_digits_chars (DateFromDay d)) by lia.
  assert (two_digits (digit_char (YearFromDay d / 10)) (digit_char (YearFromDay d))
          = Some (YearFromDay d mod 100)) as ->.
  { unfold two_digits. rewrite !digit_value_char. cbn. f_equal.
    Z.div_mod_to_equations. lia. }
  cbn [mbind option_bind].
  assert (100 * (YearFromDay d / 10 / 10) + YearFromDay d mod 100 = YearFromDay d) as ->
    by (Z.div_mod_to_equations; lia).
  replace (MonthFromDay d + 1 - 1) with (MonthFromDay d) by lia.
  rewrite MakeDay_of_day.
  assert (Ascii.eqb "-" "-" && Ascii.eqb "-" "-" && (1 <=? MonthFromDay d + 1)
          && (MonthFromDay d + 1 <=? 12) && (1 <=? DateFromDay d)
          && (DateFromDay d <=? 31) = true) as ->.
  { cbn [Ascii.eqb Bool.eqb andb]. repeat (apply andb_true_intro; split);
      try apply Z.leb_le; try lia; reflexivity. }
  unfold MakeDate, TimeClip.
  pose proof (YearFromDay_spec d) as Hspec.
  assert (DayFromYear 0 ≤ DayFromYear (YearFromDay d)) as Hlo.
  { unfold DayFromYear. Z.div_mod_to_equations. lia. }
  assert (DayFromYear (YearFromDay d + 1) ≤ DayFromYear 10000) as Hhi.
  { unfold DayFromYear. Z.div_mod_to_equations. lia. }
  change (DayFromYear 0) with (-719528) in Hlo.
  change (DayFromYear 10000) with 2932897 in Hhi.
  rewrite Z.add_0_r.
  destruct (Z.leb_spec (Z.abs (d * msPerDay)) 8640000000000000) as [_|Hbig]; [done|].
  unfold msPerDay in Hbig. lia.
Qed.

(** ** All activities of a run *)

Lemma generateActivitySchedules_completes fuel tz rnd activity members
    startDate endDate algorithm heap0 drawn n :
  members ≠ [] → (∀ r, r ∈ members → is_Some (heap0 !! r)) →
  occurrence_count tz activity startDate endDate n → (n ≤ fuel)%nat →
  ∃ st',
    generateActivitySchedules fuel tz rnd activity members startDate endDate
      algorithm heap0 drawn = (Completed, st') ∧
    activity_occurrences tz members startDate endDate activity (emitted st') ∧
    length (emitted st') = n ∧
    (∀ r, r ∈ members → is_Some (heap st' !! r)) ∧
    heap st' = foldl (λ h r, alter increment r h) heap0 (occ_member <$> emitted st').
Proof.
  intros Hne Hheap Hcount Hfuel. unfold generateActivitySchedules.
  set (st0 := {| currentDate := startDate; memberIndex := O;
                 sortedMembers := stable_sort (count_le heap0) members;
                 heap := heap0; draws := drawn; emitted := [] |}).
  destruct (while_loop_completes tz rnd activity algorithm endDate members n fuel st0)
    as (st' & occs & Hrun & (_ & _ & Hheap') & Hemit & Hlen & Hat & Hfold); try done.
  { split; [apply stable_sort_perm|done]. }
  cbn in Hemit. subst occs.
  exists st'. split; [done|]. split; [|done].
  split; [by rewrite Hlen|done].
Qed.

Lemma forEach_activity_completes fuel tz rnd members startDate endDate algorithm :
  members ≠ [] →
  ∀ todo acc heap0 drawn,
    (∀ r, r ∈ members → is_Some (heap0 !! r)) →
    (∀ a, a ∈ todo → ∃ n, occurrence_count tz a startDate endDate n ∧ (n ≤ fuel)%nat) →
    ∃ occss heap1 drawn1,
      forEach_activity fuel tz rnd todo members startDate endDate algorithm
        acc heap0 drawn = (Completed, (acc ++ mjoin occss, heap1, drawn1)) ∧
      (∀ r, r ∈ members → is_Some (heap1 !! r)) ∧
      Forall2 (activity_occurrences tz members startDate endDate) todo occss.
Proof.
  intros Hne. induction todo as [|a todo IH]; intros acc heap0 drawn Hheap Hcounts.
  - exists [], heap0, drawn. cbn. rewrite app_nil_r. done.
  - destruct (Hcounts a) as (n & Hn & Hfuel); [apply list_elem_of_here|].
    destruct (generateActivitySchedules_completes fuel tz rnd a members startDate
                endDate algorithm heap0 drawn n Hne Hheap Hn Hfuel)
      as (st' & Hrun & Hocc & _ & Hheap' & _).
    destruct (IH (acc ++ emitted st') (heap st') (draws st') Hheap')
      as (occss & heap1 & drawn1 & Hrest & Hheap1 & Hall).
    { intros a' Ha'. apply Hcounts. by apply list_elem_of_further. }
    exists (emitted st' :: occss), heap1, drawn1.
    cbn [forEach_activity]. rewrite Hrun, Hrest. cbn. rewrite app_assoc.
    split; [done|]. split; [done|]. by constructor.
Qed.

(** ** Storing the batch *)

Lemma forEach_addSchedule_spec ids :
  ∀ todo k dm,
    let stored := imap (λ i e, set e "id" (VStr (ids (k + i)%nat))) todo in
    ∃ dm', forEach_addSchedule ids k todo dm = (stored, dm') ∧
      schedules dm' = schedules dm ++ stored ∧
      members dm' = members dm ∧ activities dm' = activities dm ∧
      settings dm' = settings dm ∧
      (∀ key, key ≠ "schedules" → localStorage dm' !! key = localStorage dm !! key) ∧
      (todo ≠ [] → localStorage dm' !! "schedules" = Some (DocArray (schedules dm'))).
Proof.
  induction todo as [|e todo IH]; intros k dm; cbn.
  - exists dm. rewrite app_nil_r. done.
  - destruct (IH (S k) (addSchedule (ids k) e dm).2)
      as (dm' & Hrun & Hsched & Hmem & Hact & Hset & Hother & Hsaved).
    cbn in *. rewrite Hrun. exists dm'.
    rewrite Nat.add_0_r.
    assert (imap ((λ i e0, set e0 "id" (VStr (ids (k + i)%nat))) ∘ S) todo
            = imap (λ i e0, set e0 "id" (VStr (ids (S (k + i))))) todo) as ->.
    { apply imap_ext. intros i x _. cbn. by rewrite Nat.add_succ_r. }
    split; [done|]. split; [by rewrite Hsched, <- app_assoc|].
    split; [done|]. split; [done|]. split; [done|]. split.
    + intros key Hkey. rewrite Hother by done. by rewrite lookup_insert_ne.
    + intros _. destruct todo as [|e' todo].
      * cbn in Hrun. injection Hrun as <-. cbn. by rewrite lookup_insert_eq.
      * by apply Hsaved.
Qed.

(** ** Generation: the batch of a run *)

Lemma make_entry_fields activity member t :
  get (make_entry activity member t) "activityId" = get activity "id" ∧
  get (make_entry activity member t) "activityName" = get activity "name" ∧
  get (make_entry activity member t) "memberId" = get member "id" ∧
  get (make_entry activity member t) "memberName" = get member "name" ∧
  get (make_entry activity member t) "date" = VStr (date_text (Day t)) ∧
  get (make_entry activity member t) "notified" = VBool false.
Proof.
  unfold make_entry, get. rewrite <- iso_date_text.
  repeat split; by simplify_map_eq.
Qed.

Lemma reset_heap dm :
  update_refs reset_count (getActiveMembers dm) (members dm)
  = map (λ m, if is_active m then reset_count m else m) (members dm).
Proof. apply update_refs_where. Qed.

Lemma active_refs_valid dm (heap1 : list obj) :
  length heap1 = length (members dm) →
  ∀ r, r ∈ getActiveMembers dm → is_Some (heap1 !! r).
Proof.
  intros Hlen r Hr. apply refs_from_bounds in Hr.
  apply lookup_lt_is_Some. lia.
Qed.

Lemma generate_completed fuel tz rnd ids startDate endDate dm occs heap1 drawn :
  active_members dm ≠ [] → activities dm ≠ [] →
  forEach_activity fuel tz rnd (activities dm) (getActiveMembers dm) startDate
    endDate (get (settings dm) "algorithm") []
    (update_refs reset_count (getActiveMembers dm) (members dm)) O
    = (Completed, (occs, heap1, drawn)) →
  generate fuel tz rnd ids startDate endDate dm =
    let '(result, dm') := forEach_addSchedule ids O (occ_entry <$> occs)
                            (with_members heap1 (clearSchedules dm)) in
    {| gen_result := Returned result;
       gen_store := saveData "members" (DocArray (members dm')) dm';
       gen_trace := occs |}.
Proof.
  intros Hm Ha Hrun. unfold generate.
  rewrite getActiveMembers_length.
  destruct (active_members dm) eqn:Em; [done|]. rewrite <- Em.
  destruct (activities dm) eqn:Ea; [done|]. rewrite <- Ea.
  assert ((length (active_members dm) =? 0)%nat = false) as ->
    by (rewrite Em; done).
  assert ((length (activities dm) =? 0)%nat = false) as ->
    by (rewrite Ea; done).
  cbn -[forEach_activity forEach_addSchedule]. rewrite Ea in *. rewrite Hrun.
  reflexivity.
Qed.

Lemma counts_exist tz s e (acts : list obj) :
  Forall well_formed_activity acts → s ≤ e →
  ∃ counts,
    Forall2 (λ a n, occurrence_count tz a (Some s) (Some e) n ∧ (1 ≤ n)%nat ∧
                    Z.of_nat n ≤ (e - s) / msPerDay + 1) acts counts.
Proof.
  intros Hwf Hse. induction Hwf as [|a acts Ha _ (counts & IH)].
  - exists []. constructor.
  - destruct (occurrence_count_exists tz a (Some s) (Some e) Ha) as (n & Hn & Hbound).
    exists (n :: counts). constructor; [|done].
    split; [done|]. split; [|by apply Hbound].
    destruct n; [|lia]. destruct Hn as [_ Hout]. cbn in Hout.
    apply Z.leb_gt in Hout. lia.
Qed.


Lemma batch_lookup ids (entries : list obj) i x :
  imap (λ i x, set x "id" (VStr (ids i))) entries !! i = Some x →
  ∃ y, entries !! i = Some y ∧ x = set y "id" (VStr (ids i)).
Proof.
  rewrite list_lookup_imap. destruct (entries !! i) as [y|]; cbn; [|done].
  intros [= <-]. eauto.
Qed.



Lemma occurrences_of_run_in_window tz members s endDate acts occss occ :
  Forall well_formed_activity acts →
  Forall2 (activity_occurrences tz members (Some s) endDate) acts occss →
  occ ∈ mjoin occss →
  get (occ_entry occ) "notified" = VBool false ∧
  occ_member occ ∈ members ∧
  ∃ t e, get (occ_entry occ) "date" = VStr (date_text (Day t)) ∧
         endDate = Some e ∧ s ≤ t ≤ e.
Proof.
  intros Hwf H. revert Hwf.
  induction H as [|a occs acts occss [Hn Hat] _ IH]; intros Hwf Hocc.
  { by apply elem_of_nil in Hocc. }
  inversion Hwf as [|? ? Ha Hwf']; subst.
  cbn in Hocc. apply elem_of_app in Hocc as [Hocc|Hocc]; [|by apply IH].
  apply list_elem_of_lookup in Hocc as [i Hi].
  destruct (Hat i occ Hi) as (t & m & Ht & Hmem & _ & Hentry).
  destruct (occurrence_date_in_window tz a s endDate (length occs) i Ha Hn)
    as (t' & e & Ht' & -> & Hlo & Hhi); [by eapply lookup_lt_Some|].
  rewrite Ht in Ht'. injection Ht' as <-.
  rewrite Hentry.
  destruct (make_entry_fields a m t) as (_ & _ & _ & _ & -> & ->).
  split; [done|]. split; [done|]. exists t, e. split; [done|]. split; [done|].
  unfold msPerDay in *. lia.
Qed.

(** A run whose loops all have enough fuel returns: the batch is the
    occurrences of the activities, in order, each given an id, and it is
    the new schedules collection in memory and in storage. *)
Lemma generate_returns fuel tz rnd ids startDate endDate dm :
  active_members dm ≠ [] → activities dm ≠ [] →
  (∀ a, a ∈ activities dm →
     ∃ n, occurrence_count tz a startDate endDate n ∧ (n ≤ fuel)%nat) →
  let run := generate fuel tz rnd ids startDate endDate dm in
  ∃ occss,
    Forall2 (activity_occurrences tz (getActiveMembers dm) startDate endDate)
      (activities dm) occss ∧
    gen_trace run = mjoin occss ∧
    gen_result run
      = Returned (imap (λ i x, set x "id" (VStr (ids i))) (occ_entry <$> mjoin occss)) ∧
    schedules (gen_store run)
      = imap (λ i x, set x "id" (VStr (ids i))) (occ_entry <$> mjoin occss) ∧
    localStorage (gen_store run) !! "schedules"
      = Some (DocArray (schedules (gen_store run))) ∧
    localStorage (gen_store run) !! "members"
      = Some (DocArray (members (gen_store run))).
Proof.
  intros Hmem Hact Hcounts run.
  assert (Hne : getActiveMembers dm ≠ []).
  { intros Hnil. apply Hmem, nil_length_inv.
    by rewrite <- getActiveMembers_length, Hnil. }
  set (heap0 := update_refs reset_count (getActiveMembers dm) (members dm)).
  assert (Hheap0 : ∀ r, r ∈ getActiveMembers dm → is_Some (heap0 !! r)).
  { apply active_refs_valid. unfold heap0. by rewrite reset_heap, length_map. }
  destruct (forEach_activity_completes fuel tz rnd (getActiveMembers dm) startDate
              endDate (get (settings dm) "algorithm") Hne (activities dm) [] heap0 O
              Hheap0 Hcounts) as (occss & heap1 & drawn & Hrun & _ & Hocc).
  cbn in Hrun.
  pose proof (generate_completed fuel tz rnd ids startDate endDate dm _ _ _
                Hmem Hact Hrun) as Hgen.
  destruct (forEach_addSchedule_spec ids (occ_entry <$> mjoin occss) O
              (with_members heap1 (clearSchedules dm)))
    as (dm' & Hadd & Hsched & Hmem' & _ & _ & Hother & Hsaved).
  rewrite Hadd in Hgen. cbn in Hsched. cbn [Nat.add] in *.
  exists occss. subst run. rewrite Hgen. cbn.
  split; [done|]. split; [done|]. split; [done|]. split; [done|]. split.
  - rewrite lookup_insert_ne by done.
    destruct (occ_entry <$> mjoin occss) as [|x rest] eqn:E.
    + cbn in Hadd. injection Hadd as <-. cbn. by rewrite lookup_insert_eq.
    + by rewrite Hsaved.
  - by rewrite lookup_insert_eq.
Qed.


Lemma sample_activity_well_formed id name frequencyUnit :
  frequencyUnit = "days"%string ∨ frequencyUnit = "weeks"%string
    ∨ frequencyUnit = "months"%string →
  well_formed_activity (sample_activity id name "1" frequencyUnit).
Proof.
  intros Hunit. split.
  - exists 1. split; [reflexivity|lia].
  - destruct Hunit as [-> | [-> | ->]]; [left|right; left|right; right]; reflexivity.
Defined.


(** ** Date stepping by months *)









(** ** Fields the generator does not touch *)

Lemma member_field_increment heap r r' key :
  key ≠ "participationCount" →
  member_field (alter increment r heap) r' key = member_field heap r' key.
Proof.
  intros Hkey. unfold member_field.
  destruct (decide (r = r')) as [->|Hne].
  - rewrite list_lookup_alter_eq. destruct (heap !! r'); [|done].
    cbn. unfold increment. by rewrite get_set_ne.
  - by rewrite list_lookup_alter_ne.
Qed.

Lemma loop_names_members fuel tz rnd activity algorithm endDate heap0 st :
  (∀ r key, key ≠ "participationCount" →
     member_field (heap st) r key = member_field heap0 r key) →
  Forall (names_member heap0) (emitted st) →
  let st' := (while_loop fuel tz rnd activity algorithm endDate st).2 in
  (∀ r key, key ≠ "participationCount" →
     member_field (heap st') r key = member_field heap0 r key) ∧
  Forall (names_member heap0) (emitted st').
Proof.
  intros Hfields Hnames.
  apply (while_loop_invariant
    (λ st, (∀ r key, key ≠ "participationCount" →
              member_field (heap st) r key = member_field heap0 r key) ∧
           Forall (names_member heap0) (emitted st))); [|done].
  clear. intros st st' [Hfields Hnames] _ Hbody.
  destruct (loop_body_inr _ _ _ _ _ _ Hbody)
    as (r & m & t & _ & Hm & _ & _ & -> & ->).
  split.
  - intros r' key Hkey. rewrite member_field_increment by done. by apply Hfields.
  - apply Forall_app. split; [done|]. constructor; [|done].
    destruct (make_entry_fields activity m t) as (_ & _ & Hid & Hname & _).
    split; cbn.
    + rewrite Hid, <- (Hfields r "id") by done. unfold member_field. by rewrite Hm.
    + rewrite Hname, <- (Hfields r "name") by done. unfold member_field. by rewrite Hm.
Qed.

(** ** Counting assignments *)

Lemma assignments_as_refs r occs :
  assignments r occs = length (filter (λ x, x = r) (occ_member <$> occs)).
Proof.
  unfold assignments. induction occs as [|occ occs IH]; [done|].
  rewrite fmap_cons. destruct (decide (occ_member occ = r)).
  - rewrite !filter_cons_True by done. cbn. by rewrite IH.
  - by rewrite !filter_cons_False.
Qed.

Lemma count_of_increments rs : ∀ heap r c,
  count_of heap r = Some c →
  count_of (foldl (λ h x, alter increment x h) heap rs) r
  = Some (c + Z.of_nat (length (filter (λ x, x = r) rs))).
Proof.
  induction rs as [|x rs IH]; intros heap r c Hc; cbn [foldl].
  - cbn. by rewrite Z.add_0_r.
  - destruct (decide (x = r)) as [->|Hne].
    + rewrite filter_cons_True by done.
      rewrite (IH _ r (c + 1)) by (by apply count_of_increment_eq).
      f_equal. cbn [length]. lia.
    + rewrite filter_cons_False by done.
      rewrite (IH _ r c) by (by rewrite count_of_increment_ne). done.
Qed.

Lemma filter_eq_absent (l : list nat) r :
  r ∉ l → filter (λ x, x = r) l = [].
Proof.
  induction l as [|x l IH]; intros Hr; [done|].
  rewrite filter_cons_False; [apply IH|]; intros ?; apply Hr; subst.
  - by apply list_elem_of_further.
  - apply list_elem_of_here.
Qed.

Lemma filter_eq_NoDup (l : list nat) r :
  NoDup l → r ∈ l → length (filter (λ x, x = r) l) = 1%nat.
Proof.
  induction 1 as [|x l Hx Hnd IH]; intros Hr; [by apply elem_of_nil in Hr|].
  destruct (decide (x = r)) as [->|Hne].
  - rewrite filter_cons_True by done. cbn. by rewrite filter_eq_absent.
  - rewrite filter_cons_False by done. apply IH.
    apply elem_of_cons in Hr as [->|Hr]; done.
Qed.

Lemma filter_eq_repeated (l : list nat) r k :
  NoDup l → r ∈ l → length (filter (λ x, x = r) (mjoin (replicate k l))) = k.
Proof.
  intros Hnd Hr. induction k as [|k IH]; [done|].
  rewrite replicate_S. change (mjoin (l :: replicate k l)) with (l ++ mjoin (replicate k l)).
  by rewrite filter_app, length_app, IH, filter_eq_NoDup.
Qed.

(** A list read off an array cyclically is the array repeated. *)
Lemma cyclic_is_repeated {A} (l rs : list A) k :
  l ≠ [] → length rs = (length l * k)%nat →
  (∀ j x, rs !! j = Some x → l !! (j mod length l)%nat = Some x) →
  rs = mjoin (replicate k l).
Proof.
  intros Hl. revert rs. induction k as [|k IH]; intros rs Hlen Hcyc.
  - rewrite Nat.mul_0_r in Hlen. by apply nil_length_inv in Hlen as ->.
  - rewrite replicate_S.
    change (mjoin (l :: replicate k l)) with (l ++ mjoin (replicate k l)).
    assert (Hpos : (0 < length l)%nat) by (destruct l; [done|cbn; lia]).
    rewrite <- (take_drop (length l) rs). f_equal.
    + apply list_eq. intros j. destruct (decide (j < length l)%nat) as [Hj|Hj].
      * rewrite lookup_take_lt by done.
        destruct (rs !! j) as [x|] eqn:Hx.
        -- apply Hcyc in Hx. by rewrite Nat.mod_small in Hx.
        -- apply lookup_ge_None in Hx. nia.
      * rewrite lookup_take_ge by lia. symmetry. apply lookup_ge_None. lia.
    + apply IH.
      * rewrite length_drop. nia.
      * intros j x Hx. rewrite lookup_drop in Hx. apply Hcyc in Hx.
        replace ((length l + j) mod length l)%nat with (j mod length l)%nat in Hx; [done|].
        rewrite Nat.add_comm. symmetry.
        rewrite <- (Nat.mul_1_l (length l)) at 1. apply Nat.Div0.mod_add.
Qed.

(** ** Rotation *)

Lemma select_rotation rnd st :
  select (VStr "rotation") rnd st =
    (sortedMembers st !! (memberIndex st mod length (sortedMembers st))%nat,
     (S (memberIndex st), sortedMembers st, draws st)).
Proof. reflexivity. Qed.

Lemma rotation_invariant fuel tz rnd activity endDate snapshot st :
  rotates snapshot st →
  rotates snapshot (while_loop fuel tz rnd activity (VStr "rotation") endDate st).2.
Proof.
  apply while_loop_invariant. clear st.
  intros st st' (Hsorted & Hindex & Hocc) _ Hbody.
  destruct (loop_body_inr _ _ _ _ _ _ Hbody)
    as (r & m & t & _ & _ & Hsel & _ & _ & Hemit).
  rewrite select_rotation in Hsel. injection Hsel as Hr Hi Hs _.
  split; [by rewrite <- Hs|]. split.
  - rewrite Hemit, length_app, <- Hi, Hindex. cbn. lia.
  - intros j occ Hj. rewrite Hemit in Hj.
    apply lookup_app_Some in Hj as [Hj|[Hlen Hj]]; [by apply Hocc|].
    apply list_lookup_singleton_Some in Hj as [Hj <-]. cbn.
    split; [done|].
    assert (j = length (emitted st)) as -> by lia.
    by rewrite <- Hindex, <- Hsorted.
Qed.

(** C3. Rotation for one activity over members that all have the same
    count [c]: when the window holds [N * k] stepping dates ([N] the
    number of members) and the fuel allows them, the call completes; the
    count-sorted snapshot is the members in their given order (the sort
    is stable), it is taken once and every occurrence sees it unchanged;
    the [j]-th occurrence goes to the member at index [j mod N], so the
    members assigned, in order, are the snapshot repeated [k] times; each
    member is assigned exactly [k] occurrences, ends with count [c + k],
    and is the member named in the entries assigned to it. *)
Theorem rotation_is_round_robin (fuel : nat) (tz : Z) (rnd : nat → nat)
    (activity : obj) (members : list nat) (startDate endDate : date)
    (heap0 : list obj) (drawn : nat) (c : Z) (k : nat) :
  members ≠ [] → NoDup members →
  (∀ r, r ∈ members → count_of heap0 r = Some c) →
  occurrence_count tz activity startDate endDate (length members * k) →
  (length members * k ≤ fuel)%nat →
  ∃ st',
    generateActivitySchedules fuel tz rnd activity members startDate endDate
      (VStr "rotation") heap0 drawn = (Completed, st') ∧
    length (emitted st') = (length members * k)%nat ∧
    stable_sort (count_le heap0) members = members ∧
    (∀ j occ, emitted st' !! j = Some occ →
       occ_array occ = members ∧
       members !! (j mod length members)%nat = Some (occ_member occ) ∧
       names_member heap0 occ) ∧
    occ_member <$> emitted st' = mjoin (replicate k members) ∧
    (∀ r, r ∈ members →
       assignments r (emitted st') = k ∧
       count_of (heap st') r = Some (c + Z.of_nat k)).
Proof.
  intros Hne Hnd Hcounts Hwindow Hfuel.
  assert (Hvalid : ∀ r, r ∈ members → is_Some (heap0 !! r)).
  { intros r Hr. specialize (Hcounts r Hr). unfold count_of in Hcounts.
    destruct (heap0 !! r); [eauto|done]. }
  assert (Hsnap : stable_sort (count_le heap0) members = members).
  { apply stable_sort_id. intros x y Hx Hy.
    rewrite (count_le_numeric heap0 x y c c) by auto. apply Z.leb_refl. }
  destruct (generateActivitySchedules_completes fuel tz rnd activity members
              startDate endDate (VStr "rotation") heap0 drawn _ Hne Hvalid Hwindow Hfuel)
    as (st' & Hrun & _ & Hlen & _ & Hheap).
  assert (Hrot : rotates members st').
  { pose proof (rotation_invariant fuel tz rnd activity endDate members
        {| currentDate := startDate; memberIndex := O;
           sortedMembers := stable_sort (count_le heap0) members;
           heap := heap0; draws := drawn; emitted := [] |}) as Hinv.
    unfold generateActivitySchedules in Hrun. rewrite Hrun in Hinv.
    apply Hinv. split; [done|]. split; [done|]. intros j occ Hj. done. }
  assert (Hnames : Forall (names_member heap0) (emitted st')).
  { pose proof (loop_names_members fuel tz rnd activity (VStr "rotation") endDate heap0
        {| currentDate := startDate; memberIndex := O;
           sortedMembers := stable_sort (count_le heap0) members;
           heap := heap0; draws := drawn; emitted := [] |}) as Hinv.
    unfold generateActivitySchedules in Hrun. cbv zeta in Hinv. rewrite Hrun in Hinv.
    apply Hinv; [done|constructor]. }
  destruct Hrot as (_ & _ & Hocc).
  assert (Hrefs : occ_member <$> emitted st' = mjoin (replicate k members)).
  { apply cyclic_is_repeated; [done|by rewrite length_fmap|].
    intros j x Hx. apply list_lookup_fmap_Some in Hx as (occ & -> & Hj).
    by apply Hocc. }
  exists st'. split; [done|]. split; [done|]. split; [done|]. split.
  { intros j occ Hj. destruct (Hocc j occ Hj) as [? ?].
    split; [done|]. split; [done|]. by eapply Forall_lookup_1 in Hnames. }
  split; [done|]. intros r Hr.
  assert (Hk : assignments r (emitted st') = k).
  { rewrite assignments_as_refs, Hrefs. by apply filter_eq_repeated. }
  split; [done|].
  rewrite Hheap, (count_of_increments _ _ r c) by auto.
  by rewrite <- assignments_as_refs, Hk.
Qed.

Lemma rotation_is_round_robin_witness :
  ∃ st',
    generateActivitySchedules 6 28800000 (λ _, O)
      (sample_activity "7" "Standup" "1" "weeks") [0; 2; 3]%nat
      (Date_parse "2024-01-01") (Date_parse "2024-02-05")
      (VStr "rotation") rota_heap O = (Completed, st') ∧
    occ_member <$> emitted st' = [0; 2; 3; 0; 2; 3]%nat ∧
    count_of (heap st') 3 = Some 4.
Proof.
  destruct (rotation_is_round_robin 6 28800000 (λ _, O)
              (sample_activity "7" "Standup" "1" "weeks") [0; 2; 3]%nat
              (Date_parse "2024-01-01") (Date_parse "2024-02-05")
              rota_heap O 2 2)
    as (st' & Hrun & _ & _ & _ & Hrefs & Hcount).
  - discriminate.
  - repeat constructor; rewrite ?elem_of_cons, ?elem_of_nil; intuition discriminate.
  - intros r Hr. apply list_elem_of_In in Hr. simpl in Hr.
    repeat (destruct Hr as [<-|Hr]; [reflexivity|]). destruct Hr.
  - split.
    + intros i Hi.
      do 6 (destruct i as [|i]; [vm_compute; reflexivity|]). simpl in Hi. lia.
    + vm_compute. reflexivity.
  - simpl. lia.
  - exists st'. split; [exact Hrun|]. split; [exact Hrefs|].
    apply (Hcount 3%nat). apply list_elem_of_In. simpl. auto.
Defined.

(** ** Invariants of a whole run *)

(** Invariant rule for [forEach_activity]: a property of the occurrences
    emitted so far and of the members array that every activity's call
    keeps holds when the iteration ends, however it ends. *)
Lemma forEach_activity_invariant (K : list occurrence → list obj → Prop)
    fuel tz rnd members startDate endDate algorithm :
  (∀ activity acc heap0 drawn,
     K acc heap0 →
     let st := (generateActivitySchedules fuel tz rnd activity members startDate
                  endDate algorithm heap0 drawn).2 in
     K (acc ++ emitted st) (heap st)) →
  ∀ todo acc heap0 drawn,
    K acc heap0 →
    let out := (forEach_activity fuel tz rnd todo members startDate endDate
                  algorithm acc heap0 drawn).2 in
    K out.1.1 out.1.2.
Proof.
  intros Hcall. induction todo as [|a todo IH]; intros acc heap0 drawn HK; [done|].
  cbn [forEach_activity].
  specialize (Hcall a acc heap0 drawn HK). cbv zeta in Hcall.
  destruct (generateActivitySchedules fuel tz rnd a members startDate endDate
              algorithm heap0 drawn) as [s st].
  destruct s; [by apply IH|done..].
Qed.

(** Rule for one call: a property kept by every pass of the loop is kept
    by the call. *)
Lemma generateActivitySchedules_invariant (K : list occurrence → list obj → Prop)
    fuel tz rnd activity members startDate endDate algorithm acc heap0 drawn :
  (∀ st st',
     sortedMembers st ≡ₚ members → K (acc ++ emitted st) (heap st) →
     loop_body tz rnd activity algorithm st = inr st' →
     K (acc ++ emitted st') (heap st')) →
  K acc heap0 →
  let st := (generateActivitySchedules fuel tz rnd activity members startDate
               endDate algorithm heap0 drawn).2 in
  K (acc ++ emitted st) (heap st).
Proof.
  intros Hpass HK. unfold generateActivitySchedules.
  apply (while_loop_invariant
           (λ st, sortedMembers st ≡ₚ members ∧ K (acc ++ emitted st) (heap st))).
  - intros st st' [Hperm HKst] _ Hbody. split; [|by eapply Hpass].
    destruct (loop_body_inr _ _ _ _ _ _ Hbody) as (r & m & t & _ & _ & Hsel & _).
    revert Hsel. unfold select.
    repeat case_match; intros [= _ _ <- _]; try done.
    by rewrite stable_sort_perm.
  - cbn. split; [apply stable_sort_perm|by rewrite app_nil_r].
Qed.

Lemma generate_trace_cases fuel tz rnd ids startDate endDate dm :
  let run := generate fuel tz rnd ids startDate endDate dm in
  (gen_trace run = [] ∧ ∀ entries, gen_result run ≠ Returned entries) ∨
  (gen_trace run =
     (forEach_activity fuel tz rnd (activities dm) (getActiveMembers dm) startDate
        endDate (get (settings dm) "algorithm") []
        (update_refs reset_count (getActiveMembers dm) (members dm)) O).2.1.1 ∧
   ∀ entries, gen_result run = Returned entries →
     entries = imap (λ i x, set x "id" (VStr (ids i))) (occ_entry <$> gen_trace run)).
Proof.
  unfold generate.
  destruct (length (getActiveMembers dm) =? 0)%nat; [left; by split|].
  destruct (length (activities dm) =? 0)%nat; [left; by split|].
  right. cbn -[forEach_activity forEach_addSchedule].
  destruct (forEach_activity _ _ _ _ _ _ _ _ _ _ _) as [s [[occs heap1] drawn]].
  destruct s; cbn -[forEach_addSchedule]; [|by split..].
  match goal with
  | |- context [forEach_addSchedule ids O ?l ?d] =>
      destruct (forEach_addSchedule_spec ids l O d) as (dm' & -> & _)
  end.
  cbn. split; [done|]. by intros entries [= <-].
Qed.

(** ** Balanced *)

Lemma select_balanced rnd st :
  select (VStr "balanced") rnd st =
    (stable_sort (count_le (heap st)) (sortedMembers st) !! O,
     (memberIndex st, stable_sort (count_le (heap st)) (sortedMembers st), draws st)).
Proof. reflexivity. Qed.

Lemma balanced_pass tz rnd activity members heap_ref acc st st' :
  sortedMembers st ≡ₚ members →
  balanced_inv members heap_ref (acc ++ emitted st) (heap st) →
  loop_body tz rnd activity (VStr "balanced") st = inr st' →
  balanced_inv members heap_ref (acc ++ emitted st') (heap st').
Proof.
  intros Hperm (Hcounted & Hfields & Hocc) Hbody.
  destruct (loop_body_inr _ _ _ _ _ _ Hbody)
    as (r & m & t & _ & Hm & Hsel & _ & -> & ->).
  rewrite select_balanced in Hsel. injection Hsel as Hhead _ _ _.
  assert (Hcounted' : counted (heap st) (sortedMembers st)).
  { intros x Hx. apply Hcounted. by rewrite <- Hperm. }
  destruct (sort_by_count_head (heap st) (sortedMembers st) r Hcounted' Hhead)
    as (c & Hc & Hmin & l1 & l2 & Harr & Hfirst).
  split; [by apply counted_increment|]. split.
  { intros r' key Hkey. rewrite member_field_increment by done. by apply Hfields. }
  rewrite app_assoc. apply Forall_app. split; [done|]. constructor; [|done].
  split.
  - split; cbn.
    { rewrite <- Hperm, Harr. apply elem_of_app. right. apply list_elem_of_here. }
    exists c. split; [done|]. split.
    + intros r' Hr'. apply Hmin. by rewrite Hperm.
    + by exists l1, l2.
  - destruct (make_entry_fields activity m t) as (_ & _ & Hid & Hname & _).
    split; cbn.
    + rewrite Hid, <- (Hfields r "id") by done. unfold member_field. by rewrite Hm.
    + rewrite Hname, <- (Hfields r "name") by done. unfold member_field. by rewrite Hm.
Qed.

Lemma reset_counted dm :
  counted (update_refs reset_count (getActiveMembers dm) (members dm))
    (getActiveMembers dm).
Proof.
  intros r Hr. rewrite reset_heap.
  destruct (refs_from_sat is_active (members dm) [] r Hr) as (m & Hm & Hact).
  cbn in Hm. unfold count_of. rewrite list_lookup_fmap, Hm. cbn. rewrite Hact.
  unfold reset_count. rewrite get_set_eq. by eexists.
Qed.

Lemma reset_fields dm r key :
  key ≠ "participationCount" →
  member_field (update_refs reset_count (getActiveMembers dm) (members dm)) r key
  = member_field (members dm) r key.
Proof.
  intros Hkey. rewrite reset_heap. unfold member_field.
  rewrite list_lookup_fmap. destruct (members dm !! r) as [m|]; [|done].
  cbn. destruct (is_active m); [|done]. unfold reset_count. by rewrite get_set_ne.
Qed.

(** C4. Under the balanced policy, for every occurrence a run of
    [generate] emits — over all activities, in emission order, and
    however the run ends — the member assigned is an active member
    whose count, at the instant of the assignment, is at most the count
    of every active member; among the members with that least count it
    is the one standing first in the [sortedMembers] array as the
    previous passes left it (the sort is stable).  The entry emitted
    names that member, and when the run returns, the entries returned
    are the entries of these occurrences, in the same order, with their
    ids. *)
Theorem balanced_assigns_least_loaded (fuel : nat) (tz : Z) (rnd : nat → nat)
    (ids : nat → string) (startDate endDate : date) (dm : DataManager) :
  get (settings dm) "algorithm" = VStr "balanced" →
  let run := generate fuel tz rnd ids startDate endDate dm in
  Forall (λ occ, least_loaded (getActiveMembers dm) occ ∧
                 names_member (members dm) occ) (gen_trace run) ∧
  ∀ entries, gen_result run = Returned entries →
    entries = imap (λ i x, set x "id" (VStr (ids i))) (occ_entry <$> gen_trace run).
Proof.
  intros Halg run.
  destruct (generate_trace_cases fuel tz rnd ids startDate endDate dm)
    as [[Hnil Hnot]|[Htrace Hres]]; fold run in Hnil, Hnot || fold run in Htrace, Hres.
  { rewrite Hnil. split; [constructor|]. intros entries He. by destruct (Hnot entries). }
  split; [|done]. rewrite Htrace, Halg.
  apply (forEach_activity_invariant
           (balanced_inv (getActiveMembers dm) (members dm))).
  - intros activity acc heap0 drawn HK.
    apply generateActivitySchedules_invariant; [|done].
    intros st st'. apply balanced_pass.
  - split; [apply reset_counted|]. split; [|constructor].
    intros r key. apply reset_fields.
Qed.

Lemma balanced_assigns_least_loaded_witness :
  Forall (λ occ, least_loaded [0; 2]%nat occ ∧
                 names_member (members balanced_store) occ)
    (gen_trace (generate 10 28800000 (λ k, k) (λ k, pretty k)
                  (Date_parse "2024-01-01") (Date_parse "2024-01-31") balanced_store)) ∧
  occ_member <$> gen_trace (generate 10 28800000 (λ k, k) (λ k, pretty k)
                   (Date_parse "2024-01-01") (Date_parse "2024-01-31") balanced_store)
  = [0; 2; 2; 0; 0; 2]%nat.
Proof.
  split.
  - apply (balanced_assigns_least_loaded 10 28800000 (λ k, k) (λ k, pretty k)
             (Date_parse "2024-01-01") (Date_parse "2024-01-31") balanced_store).
    reflexivity.
  - vm_compute. reflexivity.
Defined.

(** ** The notification scan *)

(** Passing the selected references to the sink and marking them is a
    filter and a map over the schedules: marking one entry does not
    change what is handed over for another. *)
Lemma forEach_notify_from p (ss pre : list obj) sent :
  forEach_notify (refs_from p (length pre) ss) sent (pre ++ ss)
  = (sent ++ filter (λ s, p s = true) ss,
     pre ++ ((λ s, if p s then mark_notified s else s) <$> ss)).
Proof.
  revert pre sent. induction ss as [|x ss IH]; intros pre sent.
  - cbn. by rewrite !app_nil_r.
  - cbn [refs_from]. destruct (p x) eqn:Hp.
    + cbn [forEach_notify].
      rewrite lookup_app_r, Nat.sub_diag by lia. cbn [lookup list_lookup].
      rewrite (alter_as_insert _ _ _ x) by (by rewrite lookup_app_r, Nat.sub_diag by lia).
      rewrite insert_app_r_alt, Nat.sub_diag by lia. cbn [insert list_insert].
      specialize (IH (pre ++ [mark_notified x]) (sent ++ [x])).
      rewrite length_app, <- !app_assoc, Nat.add_1_r in IH. cbn [app] in IH.
      rewrite IH, filter_cons_True by done. rewrite fmap_cons, Hp. done.
    + specialize (IH (pre ++ [x]) sent).
      rewrite length_app, <- !app_assoc, Nat.add_1_r in IH. cbn [app] in IH.
      rewrite IH, filter_cons_False by congruence. rewrite fmap_cons, Hp. done.
Qed.

Lemma forEach_notify_where p (ss : list obj) :
  forEach_notify (refs_where p ss) [] ss
  = (filter (λ s, p s = true) ss, (λ s, if p s then mark_notified s else s) <$> ss).
Proof. apply (forEach_notify_from p ss [] []). Qed.








Lemma Date_parse_midnight txt t :
  Date_parse txt = Some t → t = Day t * msPerDay.
Proof.
  unfold Date_parse.
  do 10 (destruct txt as [|? txt]; [done|]). destruct txt; [|done].
  repeat (match goal with
          | |- context [two_digits ?a ?b] => destruct (two_digits a b); [|done]
          end; cbn [mbind option_bind]).
  destruct (_ && _); [|done].
  intros Ht%TimeClip_Some. subst. unfold MakeDate, Day, msPerDay.
  Z.div_mod_to_equations. lia.
Qed.

Lemma checkUpcomingSchedules_enabled tz now dm :
  truthy (get (settings dm) "notificationEnabled") = true →
  let target := targetDate tz now dm in
  let sent := filter (λ s, due tz target s = true) (schedules dm) in
  let marked := (λ s, if due tz target s then mark_notified s else s) <$> schedules dm in
  checkUpcomingSchedules tz now dm =
    (sent,
     if (0 <? length sent)%nat
     then saveData "schedules" (DocArray marked) (with_schedules marked dm)
     else with_schedules marked dm).
Proof.
  intros Hon. unfold checkUpcomingSchedules. rewrite Hon. cbn [negb].
  rewrite forEach_notify_where. unfold refs_where. rewrite refs_from_length.
  by destruct (0 <? _)%nat.
Qed.



(** West of UTC a date-only text, being midnight UTC, falls on the local
    day before the one it names.  Five hours west, at 10:00 on
    2024-02-27 with [notificationDays = 3], the scan selects the entry
    dated 2024-03-02 and not the one dated 2024-03-01. *)
Example scan_west_of_utc :
  local_day (-18000000) 1709046000000 = Day 1708992000000 ∧
  Date_parse "2024-02-27" = Some 1708992000000 ∧
  (checkUpcomingSchedules (-18000000) 1709046000000 notify_store).1
    = [sample_entry "d" "2024-03-02" false].
Proof. repeat split; reflexivity. Qed.

(** * Further properties of the code *)

(** ** Deleting records *)

Lemma elem_of_kept (l : list obj) id m :
  m ∈ filter (λ m, negb (strict_eq (get m "id") id) = true) l
  ↔ m ∈ l ∧ strict_eq (get m "id") id = false.
Proof.
  rewrite list_elem_of_filter, negb_true_iff. tauto.
Qed.

Lemma kept_all (l : list obj) id :
  (∀ m, m ∈ l → strict_eq (get m "id") id = false) →
  filter (λ m, negb (strict_eq (get m "id") id) = true) l = l.
Proof.
  induction l as [|x l IH]; intros Hall; [done|].
  rewrite filter_cons_True.
  - f_equal. apply IH. intros m Hm. apply Hall. by apply list_elem_of_further.
  - rewrite Hall; [done|apply list_elem_of_here].
Qed.

(** X1. [deleteMember] and [deleteActivity] remove every record whose id
    is the given one (not only the first) and keep the others in their
    order; with no such record the collection is as before.  Nothing
    else is touched: in particular the schedule entries that name a
    deleted member or activity stay.  The collection is written to
    storage in either case. *)
Theorem delete_removes_every_match (id : jsval) (dm : DataManager) :
  (∀ m, m ∈ members (deleteMember id dm)
        ↔ m ∈ members dm ∧ strict_eq (get m "id") id = false) ∧
  members (deleteMember id dm) `sublist_of` members dm ∧
  ((∀ m, m ∈ members dm → strict_eq (get m "id") id = false) →
     members (deleteMember id dm) = members dm) ∧
  activities (deleteMember id dm) = activities dm ∧
  schedules (deleteMember id dm) = schedules dm ∧
  settings (deleteMember id dm) = settings dm ∧
  localStorage (deleteMember id dm)
    = <["members" := DocArray (members (deleteMember id dm))]> (localStorage dm) ∧
  (∀ a, a ∈ activities (deleteActivity id dm)
        ↔ a ∈ activities dm ∧ strict_eq (get a "id") id = false) ∧
  activities (deleteActivity id dm) `sublist_of` activities dm ∧
  ((∀ a, a ∈ activities dm → strict_eq (get a "id") id = false) →
     activities (deleteActivity id dm) = activities dm) ∧
  members (deleteActivity id dm) = members dm ∧
  schedules (deleteActivity id dm) = schedules dm ∧
  settings (deleteActivity id dm) = settings dm ∧
  localStorage (deleteActivity id dm)
    = <["activities" := DocArray (activities (deleteActivity id dm))]> (localStorage dm).
Proof.
  cbn. split_and!; try done.
  - intros m. apply elem_of_kept.
  - apply sublist_filter.
  - apply kept_all.
  - intros a. apply elem_of_kept.
  - apply sublist_filter.
  - apply kept_all.
Qed.

Lemma delete_removes_every_match_witness :
  members (deleteMember (VStr "9") sample_store) = members sample_store ∧
  (λ m, get m "name") <$> members (deleteMember (VStr "2") sample_store)
    = [VStr "Ann"; VStr "Cid"].
Proof.
  split; [|reflexivity].
  destruct (delete_removes_every_match (VStr "9") sample_store)
    as (_ & _ & Hsame & _).
  apply Hsame. intros m Hm. apply list_elem_of_In in Hm. simpl in Hm.
  repeat (destruct Hm as [<-|Hm]; [reflexivity|]). destruct Hm.
Defined.

Lemma findIndex_none_after_delete (l : list obj) id :
  findIndex (λ m, strict_eq (get m "id") id)
    (filter (λ m, negb (strict_eq (get m "id") id) = true) l) = None.
Proof. apply findIndex_None. by intros m [_ ?]%elem_of_kept. Qed.

(** X2. Once [deleteMember(id)] has run, [updateMember(id, ...)] finds
    nothing: it returns [null] and changes nothing; and a second
    [deleteMember(id)] changes nothing either.  The same holds for
    activities. *)
Theorem deleted_is_gone (id : jsval) (updates : obj) (dm : DataManager) :
  updateMember id updates (deleteMember id dm) = (None, deleteMember id dm) ∧
  deleteMember id (deleteMember id dm) = deleteMember id dm ∧
  updateActivity id updates (deleteActivity id dm) = (None, deleteActivity id dm) ∧
  deleteActivity id (deleteActivity id dm) = deleteActivity id dm.
Proof.
  split; [|split; [|split]].
  - unfold updateMember. cbn. by rewrite findIndex_none_after_delete.
  - unfold deleteMember, saveData, with_members. cbn.
    rewrite (kept_all (filter _ _)) by (by intros m [_ ?]%elem_of_kept).
    by rewrite insert_insert_eq.
  - unfold updateActivity. cbn. by rewrite findIndex_none_after_delete.
  - unfold deleteActivity, saveData, with_activities. cbn.
    rewrite (kept_all (filter _ _)) by (by intros m [_ ?]%elem_of_kept).
    by rewrite insert_insert_eq.
Qed.

Lemma deleted_is_gone_witness :
  updateMember (VStr "2") {[ "name" := VStr "Rob" ]} (deleteMember (VStr "2") sample_store)
  = (None, deleteMember (VStr "2") sample_store).
Proof.
  exact (proj1 (deleted_is_gone (VStr "2") {[ "name" := VStr "Rob" ]} sample_store)).
Defined.

Lemma strict_eq_refl_str s : strict_eq (VStr s) (VStr s) = true.
Proof. unfold strict_eq. by rewrite bool_decide_eq_true_2. Qed.

Lemma added_member_id now member dm :
  get (addMember now member dm).1 "id" = VStr (num_to_string now).
Proof. cbn. rewrite !get_set_ne by done. apply get_set_eq. Qed.

Lemma filter_app_last (l : list obj) id x :
  (∀ m, m ∈ l → strict_eq (get m "id") id = false) →
  strict_eq (get x "id") id = true →
  filter (λ m, negb (strict_eq (get m "id") id) = true) (l ++ [x]) = l.
Proof.
  intros Hl Hx. rewrite filter_app, kept_all by done.
  rewrite filter_cons_False by (by rewrite Hx). cbn. apply app_nil_r.
Qed.

(** X3. Adding a member and deleting it by the id it was given restores
    the members collection, provided no member already had that id (the
    id is the clock reading, so this is: no member was added at the same
    millisecond).  The same holds for activities. *)
Theorem add_then_delete_restores (now : Z) (record : obj) (dm : DataManager) :
  ((∀ m, m ∈ members dm →
      strict_eq (get m "id") (VStr (num_to_string now)) = false) →
   let added := addMember now record dm in
   members (deleteMember (get added.1 "id") added.2) = members dm) ∧
  ((∀ a, a ∈ activities dm →
      strict_eq (get a "id") (VStr (num_to_string now)) = false) →
   let added := addActivity now record dm in
   activities (deleteActivity (get added.1 "id") added.2) = activities dm).
Proof.
  split; intros Hfresh added; subst added.
  - rewrite added_member_id. cbn. apply filter_app_last; [done|].
    rewrite !get_set_ne by done. rewrite get_set_eq. apply strict_eq_refl_str.
  - cbn. rewrite get_set_eq. apply filter_app_last; [done|].
    rewrite get_set_eq. apply strict_eq_refl_str.
Qed.

Lemma sample_store_fresh m :
  m ∈ members sample_store →
  strict_eq (get m "id") (VStr (num_to_string 1700000000000)) = false.
Proof.
  intros Hm. apply list_elem_of_In in Hm. simpl in Hm.
  repeat (destruct Hm as [<-|Hm]; [reflexivity|]). destruct Hm.
Defined.

Lemma add_then_delete_restores_witness :
  let added := addMember 1700000000000 {[ "name" := VStr "Dee" ]} sample_store in
  members (deleteMember (get added.1 "id") added.2) = members sample_store.
Proof.
  exact (proj1 (add_then_delete_restores 1700000000000 {[ "name" := VStr "Dee" ]}
                  sample_store) sample_store_fresh).
Defined.

(** X4. Two members added at the same clock reading get the same id.
    When no earlier member has it, [updateMember] with that id changes
    the first of the two only, and [deleteMember] with it removes
    both. *)
Theorem same_clock_same_id (now : Z) (first second updates : obj)
    (dm : DataManager) :
  (∀ m, m ∈ members dm →
     strict_eq (get m "id") (VStr (num_to_string now)) = false) →
  let a := addMember now first dm in
  let b := addMember now second a.2 in
  let id := VStr (num_to_string now) in
  get a.1 "id" = id ∧ get b.1 "id" = id ∧
  members b.2 = members dm ++ [a.1; b.1] ∧
  (updateMember id updates b.2).1 = Some (spread a.1 updates) ∧
  members (updateMember id updates b.2).2
    = members dm ++ [spread a.1 updates; b.1] ∧
  members (deleteMember id b.2) = members dm.
Proof.
  intros Hfresh a b id. subst a b id.
  split; [apply added_member_id|]. split; [apply added_member_id|].
  set (id := VStr (num_to_string now)).
  set (a := (addMember now first dm).1).
  set (b := (addMember now second (addMember now first dm).2).1).
  assert (Ha : strict_eq (get a "id") id = true).
  { subst a. rewrite added_member_id. apply strict_eq_refl_str. }
  assert (Hb : strict_eq (get b "id") id = true).
  { subst b. rewrite added_member_id. apply strict_eq_refl_str. }
  assert (Hmem : members (addMember now second (addMember now first dm).2).2
                 = members dm ++ [a; b]).
  { cbn. by rewrite <- app_assoc. }
  split; [done|].
  assert (Hfind : findIndex (λ m, strict_eq (get m "id") id) (members dm ++ [a; b])
                  = Some (length (members dm))).
  { apply (findIndex_first _ _ _ a).
    - by rewrite lookup_app_r, Nat.sub_diag by lia.
    - done.
    - intros j y Hj Hy. rewrite lookup_app_l in Hy by done.
      apply Hfresh. by eapply list_elem_of_lookup_2. }
  assert (Hlook : (members dm ++ [a; b]) !! length (members dm) = Some a)
    by (by rewrite lookup_app_r, Nat.sub_diag by lia).
  split; [|split].
  - rewrite (updateMember_found id updates _ (length (members dm)) a);
      rewrite Hmem; done.
  - rewrite (updateMember_found id updates _ (length (members dm)) a);
      rewrite Hmem; try done.
    cbn. rewrite insert_app_r_alt, Nat.sub_diag by lia. done.
  - cbn -[addMember]. rewrite Hmem.
    rewrite filter_app, kept_all by done.
    rewrite filter_cons_False by (by rewrite Ha).
    rewrite filter_cons_False by (by rewrite Hb). cbn. apply app_nil_r.
Qed.

Lemma same_clock_same_id_witness :
  (λ m, get m "name") <$>
    members (deleteMember (VStr "1700000000000")
      (addMember 1700000000000 {[ "name" := VStr "Eve" ]}
        (addMember 1700000000000 {[ "name" := VStr "Dee" ]} sample_store).2).2)
  = [VStr "Ann"; VStr "Bob"; VStr "Cid"].
Proof.
  destruct (same_clock_same_id 1700000000000 {[ "name" := VStr "Dee" ]}
              {[ "name" := VStr "Eve" ]} ∅ sample_store sample_store_fresh)
    as (_ & _ & _ & _ & _ & Hdel).
  cbv zeta in Hdel.
  change (VStr "1700000000000") with (VStr (num_to_string 1700000000000)).
  rewrite Hdel. reflexivity.
Defined.

(** ** Settings and the fresh state *)

(** X5. [updateSettings] merges the given fields into the settings: a
    field it names takes the new value, every other setting stays, the
    three collections are untouched and the merged settings are written
    to storage.  Two updates in a row amount to one update with the
    second's fields laid over the first's. *)
Theorem updateSettings_merges (first second : obj) (dm : DataManager) :
  (∀ k v, first !! k = Some v → settings (updateSettings first dm) !! k = Some v) ∧
  (∀ k, first !! k = None →
     settings (updateSettings first dm) !! k = settings dm !! k) ∧
  members (updateSettings first dm) = members dm ∧
  activities (updateSettings first dm) = activities dm ∧
  schedules (updateSettings first dm) = schedules dm ∧
  localStorage (updateSettings first dm) !! "settings"
    = Some (DocObject (settings (updateSettings first dm))) ∧
  updateSettings second (updateSettings first dm)
    = updateSettings (spread first second) dm.
Proof.
  split_and!; try done.
  - intros k v Hk. cbn. by apply lookup_spread_named.
  - intros k Hk. cbn. by apply lookup_spread_unnamed.
  - cbn. apply lookup_insert_eq.
  - unfold updateSettings, saveData, with_settings. cbn.
    f_equal.
    + unfold spread. by rewrite (assoc_L (∪)).
    + rewrite insert_insert_eq. f_equal. f_equal.
      unfold spread. by rewrite (assoc_L (∪)).
Qed.

Lemma updateSettings_merges_witness :
  updateSettings {[ "notificationDays" := VNum 1 ]}
    (updateSettings {[ "algorithm" := VStr "balanced" ]} sample_store)
  = updateSettings (spread {[ "algorithm" := VStr "balanced" ]}
                      {[ "notificationDays" := VNum 1 ]}) sample_store.
Proof.
  destruct (updateSettings_merges {[ "algorithm" := VStr "balanced" ]}
              {[ "notificationDays" := VNum 1 ]} sample_store)
    as (_ & _ & _ & _ & _ & _ & Hboth).
  exact Hboth.
Defined.

(** ** Storage *)

Lemma json_value_idem v w : json_value v = Some w → json_value w = Some w.
Proof. destruct v; intros [= <-]; done. Qed.

Lemma json_object_idem (o : obj) : json_object (json_object o) = json_object o.
Proof.
  unfold json_object. apply map_eq. intros k. rewrite !lookup_omap.
  destruct (o !! k) as [v|]; [|done]. cbn.
  destruct (json_value v) as [w|] eqn:Hv; [|done]. cbn.
  by apply json_value_idem in Hv.
Qed.

Lemma json_objects_idem (l : list obj) :
  json_object <$> (json_object <$> l) = json_object <$> l.
Proof.
  rewrite <- list_fmap_compose. apply list_fmap_ext. intros i x _. cbn.
  apply json_object_idem.
Qed.

Lemma load_collection_stored key (st : gmap string document) l :
  st !! key = Some (DocArray l) → load_collection key st = Some (json_object <$> l).
Proof. intros H. unfold load_collection, loadData. by rewrite H. Qed.

Lemma load_collection_ext key (st st' : gmap string document) :
  st !! key = st' !! key → load_collection key st = load_collection key st'.
Proof. intros H. unfold load_collection, loadData. by rewrite H. Qed.

Lemma load_settings_stored (st : gmap string document) o :
  st !! "settings" = Some (DocObject o) → load_settings st = Some (json_object o).
Proof. intros H. unfold load_settings, loadData. by rewrite H. Qed.

Lemma load_settings_ext (st st' : gmap string document) :
  st !! "settings" = st' !! "settings" → load_settings st = load_settings st'.
Proof. intros H. unfold load_settings, loadData. by rewrite H. Qed.

Lemma persisted_iff dm :
  persisted dm ↔
  load_collection "members" (localStorage dm) = Some (json_object <$> members dm) ∧
  load_collection "activities" (localStorage dm)
    = Some (json_object <$> activities dm) ∧
  load_collection "schedules" (localStorage dm)
    = Some (json_object <$> schedules dm) ∧
  load_settings (localStorage dm) = Some (json_object (settings dm)).
Proof.
  unfold persisted, new_DataManager, json_store. split.
  - intros H.
    destruct (load_collection "members" _) as [ms|]; [|done].
    destruct (load_collection "activities" _) as [acts|]; [|done].
    destruct (load_collection "schedules" _) as [ss|]; [|done].
    destruct (load_settings _) as [o|]; [|done].
    cbn in H. by injection H as -> -> -> ->.
  - by intros (-> & -> & -> & ->).
Qed.

Lemma persisted_members l dm :
  persisted dm → persisted (saveData "members" (DocArray l) (with_members l dm)).
Proof.
  rewrite !persisted_iff. intros (Hm & Ha & Hs & Ho).
  cbn [saveData with_members with_activities with_schedules with_settings
       members activities schedules settings localStorage]. split_and!.
  - apply load_collection_stored, lookup_insert_eq.
  - rewrite <- Ha. apply load_collection_ext. by rewrite lookup_insert_ne.
  - rewrite <- Hs. apply load_collection_ext. by rewrite lookup_insert_ne.
  - rewrite <- Ho. apply load_settings_ext. by rewrite lookup_insert_ne.
Qed.

Lemma persisted_activities l dm :
  persisted dm → persisted (saveData "activities" (DocArray l) (with_activities l dm)).
Proof.
  rewrite !persisted_iff. intros (Hm & Ha & Hs & Ho).
  cbn [saveData with_members with_activities with_schedules with_settings
       members activities schedules settings localStorage]. split_and!.
  - rewrite <- Hm. apply load_collection_ext. by rewrite lookup_insert_ne.
  - apply load_collection_stored, lookup_insert_eq.
  - rewrite <- Hs. apply load_collection_ext. by rewrite lookup_insert_ne.
  - rewrite <- Ho. apply load_settings_ext. by rewrite lookup_insert_ne.
Qed.

Lemma persisted_schedules l dm :
  persisted dm → persisted (saveData "schedules" (DocArray l) (with_schedules l dm)).
Proof.
  rewrite !persisted_iff. intros (Hm & Ha & Hs & Ho).
  cbn [saveData with_members with_activities with_schedules with_settings
       members activities schedules settings localStorage]. split_and!.
  - rewrite <- Hm. apply load_collection_ext. by rewrite lookup_insert_ne.
  - rewrite <- Ha. apply load_collection_ext. by rewrite lookup_insert_ne.
  - apply load_collection_stored, lookup_insert_eq.
  - rewrite <- Ho. apply load_settings_ext. by rewrite lookup_insert_ne.
Qed.

Lemma persisted_settings o dm :
  persisted dm → persisted (saveData "settings" (DocObject o) (with_settings o dm)).
Proof.
  rewrite !persisted_iff. intros (Hm & Ha & Hs & Ho).
  cbn [saveData with_members with_activities with_schedules with_settings
       members activities schedules settings localStorage]. split_and!.
  - rewrite <- Hm. apply load_collection_ext. by rewrite lookup_insert_ne.
  - rewrite <- Ha. apply load_collection_ext. by rewrite lookup_insert_ne.
  - rewrite <- Hs. apply load_collection_ext. by rewrite lookup_insert_ne.
  - apply load_settings_stored, lookup_insert_eq.
Qed.

Lemma persisted_clearAllData dm : persisted (clearAllData dm).
Proof. reflexivity. Qed.

Lemma nothing_due_nothing_marked (p : obj → bool) (f : obj → obj) (l : list obj) :
  filter (λ s, p s = true) l = [] → (λ s, if p s then f s else s) <$> l = l.
Proof.
  induction l as [|x l IH]; [done|].
  destruct (p x) eqn:Hp.
  - by rewrite filter_cons_True.
  - rewrite filter_cons_False by (by rewrite Hp). intros H.
    cbn. rewrite Hp. f_equal. by apply IH.
Qed.

Lemma persisted_checkUpcomingSchedules tz now dm :
  persisted dm → persisted (checkUpcomingSchedules tz now dm).2.
Proof.
  intros H.
  destruct (truthy (get (settings dm) "notificationEnabled")) eqn:Hon.
  - rewrite checkUpcomingSchedules_enabled by done. cbn zeta.
    set (sent := filter _ _). set (marked := _ <$> _).
    destruct sent as [|s sent'] eqn:Hsent.
    + cbn. subst marked.
      rewrite (nothing_due_nothing_marked (due tz (targetDate tz now dm))) by done.
      by destruct dm.
    + cbn. by apply persisted_schedules.
  - unfold checkUpcomingSchedules. by rewrite Hon.
Qed.

Lemma persisted_perform dm op : persisted dm → persisted (perform dm op).
Proof.
  intros H. destruct op; cbn [perform].
  - by apply persisted_members.
  - unfold updateMember. destruct (findIndex _ _); [|done].
    by apply persisted_members.
  - by apply persisted_members.
  - by apply persisted_activities.
  - unfold updateActivity. destruct (findIndex _ _); [|done].
    by apply persisted_activities.
  - by apply persisted_activities.
  - by apply persisted_schedules.
  - by apply persisted_schedules.
  - by apply persisted_settings.
  - unfold importData.
    destruct data as [[| |ms] [| |acts] [| |ss] [| |o] ?]; cbn [import_field
      snap_members snap_activities snap_schedules snap_settings];
      repeat first [ done | apply persisted_members | apply persisted_activities
                   | apply persisted_schedules | apply persisted_settings ].
  - apply persisted_clearAllData.
  - by apply persisted_checkUpcomingSchedules.
Qed.

(** X6. Storage keeps up with the data.  The data manager the
    constructor builds agrees with storage, and every mutating method
    ([addMember], [updateMember], [deleteMember], [addActivity],
    [updateActivity], [deleteActivity], [addSchedule], [clearSchedules],
    [updateSettings], [importData], [clearAllData]) and the notification
    scan keep that: after any sequence of such calls, a data manager
    constructed over the storage, as a reload of the page does, holds
    the same members, activities, schedules and settings, as JSON gives
    them back. *)
Theorem storage_keeps_up (storage : gmap string document) (dm : DataManager)
    (calls : list operation) :
  new_DataManager storage = Some dm →
  new_DataManager (localStorage (foldl perform dm calls))
  = Some (json_store (foldl perform dm calls)).
Proof.
  intros Hnew. change (persisted (foldl perform dm calls)).
  assert (Hdm : persisted dm).
  { unfold new_DataManager in Hnew.
    destruct (load_collection "members" storage) as [ms|] eqn:Hm; [|done].
    destruct (load_collection "activities" storage) as [acts|] eqn:Ha; [|done].
    destruct (load_collection "schedules" storage) as [ss|] eqn:Hs; [|done].
    destruct (load_settings storage) as [o|] eqn:Ho; [|done].
    cbn in Hnew. injection Hnew as <-.
    apply persisted_iff. cbn.
    assert (Hcoll : ∀ key l, load_collection key storage = Some l →
              json_object <$> l = l).
    { intros key l. unfold load_collection, loadData.
      destruct (storage !! key) as [[l'|?]|]; cbn; intros [= <-]; [|done].
      apply json_objects_idem. }
    rewrite (Hcoll _ _ Hm), (Hcoll _ _ Ha), (Hcoll _ _ Hs).
    split_and!; try done.
    rewrite Ho. f_equal. revert Ho. unfold load_settings, loadData.
    destruct (storage !! "settings") as [[?|o']|]; cbn; intros [= <-]; [|done].
    symmetry. apply json_object_idem. }
  clear Hnew. revert dm Hdm.
  induction calls as [|c calls IH]; intros dm Hdm; [done|].
  cbn [foldl]. apply IH. by apply persisted_perform.
Qed.

Lemma storage_keeps_up_witness :
  let dm := foldl perform (clearAllData sample_store)
              [OpAddMember 1700000000000 {[ "name" := VStr "Dee" ]};
               OpUpdateSettings {[ "notificationDays" := VNum 1 ]};
               OpDeleteMember (VStr "1700000000000")] in
  new_DataManager (localStorage dm) = Some (json_store dm).
Proof.
  apply (storage_keeps_up ∅ (clearAllData sample_store)).
  reflexivity.
Defined.

(** X7. [clearAllData] leaves the data manager exactly as the
    constructor builds it over an empty storage: no members, activities
    or schedules, the default settings, and nothing in storage.  On it
    [generate] throws for want of members, and a scan notifies nobody. *)
Theorem clearAllData_is_fresh_start (dm : DataManager) fuel tz rnd ids
    startDate endDate now :
  new_DataManager ∅ = Some (clearAllData dm) ∧
  gen_result (generate fuel tz rnd ids startDate endDate (clearAllData dm))
    = Thrown NoActiveMembers ∧
  checkUpcomingSchedules tz now (clearAllData dm) = ([], clearAllData dm).
Proof. split_and!; reflexivity. Qed.

Lemma clearAllData_is_fresh_start_witness :
  new_DataManager ∅ = Some (clearAllData planning_store).
Proof.
  exact (proj1 (clearAllData_is_fresh_start planning_store 0 0 (λ _, O) (λ _, "x")
                  None None 0)).
Defined.

(** ** The generator on any input *)

Lemma select_in algorithm rnd st r out :
  select algorithm rnd st = (Some r, out) → r ∈ sortedMembers st.
Proof.
  unfold select.
  destruct (strict_eq algorithm (VStr "rotation")).
  { intros [= H _]. by eapply list_elem_of_lookup_2. }
  destruct (strict_eq algorithm (VStr "random")).
  { intros [= H _]. by eapply list_elem_of_lookup_2. }
  destruct (strict_eq algorithm (VStr "balanced")).
  { intros [= H _]. apply list_elem_of_lookup_2 in H.
    by rewrite stable_sort_perm in H. }
  intros [= H _]. by eapply list_elem_of_lookup_2.
Qed.

Lemma loop_inv_start members heap0 startDate drawn :
  members ≠ [] → (∀ r, r ∈ members → is_Some (heap0 !! r)) →
  loop_inv members
    {| currentDate := startDate; memberIndex := O;
       sortedMembers := stable_sort (count_le heap0) members;
       heap := heap0; draws := drawn; emitted := [] |}.
Proof. intros Hne Hvalid. split_and!; [apply stable_sort_perm|done|done]. Qed.

Lemma while_loop_status tz rnd activity algorithm endDate members :
  ∀ fuel st, loop_inv members st →
    let out := while_loop fuel tz rnd activity algorithm endDate st in
    (out.1 = Completed ∨ out.1 = OutOfFuel) ∧ loop_inv members out.2.
Proof.
  induction fuel as [|fuel IH]; intros st Hinv; cbn.
  - destruct (date_le _ _); cbn; auto.
  - destruct (date_le (currentDate st) endDate) eqn:Hle; [|cbn; auto].
    destruct (currentDate st) as [t|] eqn:Ht; [|done].
    destruct (loop_body_progress tz rnd activity algorithm members st t Hinv Ht)
      as (st' & -> & Hinv').
    by apply IH.
Qed.

Lemma forEach_activity_status fuel tz rnd members startDate endDate algorithm :
  members ≠ [] →
  ∀ todo acc heap0 drawn,
    (∀ r, r ∈ members → is_Some (heap0 !! r)) →
    let out := forEach_activity fuel tz rnd todo members startDate endDate
                 algorithm acc heap0 drawn in
    out.1 = Completed ∨ out.1 = OutOfFuel.
Proof.
  intros Hne. induction todo as [|a todo IH]; intros acc heap0 drawn Hvalid; cbn.
  { by left. }
  pose proof (while_loop_status tz rnd a algorithm endDate members fuel _
                (loop_inv_start members heap0 startDate drawn Hne Hvalid))
    as [Hs Hinv].
  unfold generateActivitySchedules.
  destruct (while_loop _ _ _ _ _ _ _) as [s st]. cbn in Hs, Hinv.
  destruct Hs as [-> | ->]; [|by right].
  apply IH. apply Hinv.
Qed.

(** What a run of [generate] that got past its two checks leaves, in
    terms of the loop over the activities. *)
Lemma generate_run fuel tz rnd ids startDate endDate dm :
  active_members dm ≠ [] → activities dm ≠ [] →
  let out := forEach_activity fuel tz rnd (activities dm) (getActiveMembers dm)
               startDate endDate (get (settings dm) "algorithm") []
               (update_refs reset_count (getActiveMembers dm) (members dm)) O in
  let run := generate fuel tz rnd ids startDate endDate dm in
  gen_trace run = out.2.1.1 ∧
  members (gen_store run) = out.2.1.2 ∧
  activities (gen_store run) = activities dm ∧
  settings (gen_store run) = settings dm ∧
  gen_result run =
    match out.1 with
    | Completed =>
        Returned (imap (λ i x, set x "id" (VStr (ids i))) (occ_entry <$> out.2.1.1))
    | Threw e => Thrown e
    | OutOfFuel => Diverged
    end ∧
  schedules (gen_store run) =
    match out.1 with
    | Completed => imap (λ i x, set x "id" (VStr (ids i))) (occ_entry <$> out.2.1.1)
    | _ => []
    end.
Proof.
  intros Hm Ha. cbn zeta. unfold generate.
  assert (Hlen : (length (getActiveMembers dm) =? 0)%nat = false).
  { apply Nat.eqb_neq. rewrite getActiveMembers_length.
    by destruct (active_members dm). }
  assert (Hlen' : (length (activities dm) =? 0)%nat = false).
  { apply Nat.eqb_neq. by destruct (activities dm). }
  rewrite Hlen, Hlen'. cbn [members with_members clearSchedules saveData with_schedules].
  destruct (forEach_activity _ _ _ _ _ _ _ _ _ _ _)
    as [s [[occs heap1] drawn]]. cbn [fst snd].
  destruct s; cbn [gen_trace gen_store gen_result]; try done.
  match goal with
  | |- context [forEach_addSchedule ids O ?l ?d] =>
      destruct (forEach_addSchedule_spec ids l O d)
        as (dm' & -> & Hss & Hms & Has & Hset & _)
  end.
  cbn [gen_trace gen_store gen_result saveData members activities settings schedules].
  rewrite Hss, Hms, Has, Hset. done.
Qed.

Lemma generate_thrown (fuel : nat) (tz : Z) (rnd : nat → nat)
    (ids : nat → string) (startDate endDate : date) (dm : DataManager) (e : error) :
  let run := generate fuel tz rnd ids startDate endDate dm in
  gen_result run = Thrown e →
  (e = NoActiveMembers ∧ active_members dm = [] ∨
   e = NoActivities ∧ activities dm = []) ∧
  gen_store run = dm ∧ gen_trace run = [].
Proof.
  cbn zeta. intros Hthrown.
  destruct (active_members dm) as [|m ms] eqn:Hm.
  { revert Hthrown. unfold generate.
    rewrite getActiveMembers_length, Hm. cbn. intros [= <-]. auto. }
  destruct (activities dm) as [|a acts] eqn:Ha.
  { revert Hthrown. unfold generate.
    rewrite getActiveMembers_length, Hm, Ha. cbn. intros [= <-]. auto. }
  exfalso.
  destruct (generate_run fuel tz rnd ids startDate endDate dm)
    as (_ & _ & _ & _ & Hres & _); [by rewrite Hm | by rewrite Ha |].
  rewrite Hthrown in Hres.
  destruct (forEach_activity_status fuel tz rnd (getActiveMembers dm) startDate
              endDate (get (settings dm) "algorithm")) with
    (todo := activities dm) (acc := @nil occurrence)
    (heap0 := update_refs reset_count (getActiveMembers dm) (members dm))
    (drawn := O) as [Hs | Hs].
  - intros Hnil. apply (f_equal length) in Hnil.
    rewrite getActiveMembers_length, Hm in Hnil. done.
  - apply active_refs_valid. unfold update_refs.
    generalize (getActiveMembers dm). intros refs.
    generalize (members dm). induction refs as [|r refs IH]; intros l; [done|].
    cbn. rewrite IH. apply length_alter.
  - rewrite Hs in Hres. done.
  - rewrite Hs in Hres. done.
Qed.

(** X8. [generate] throws nothing but its own two errors: whatever the
    dates, the members, the activities and the settings are, a call that
    throws has thrown for want of an active member or of an activity,
    and has changed nothing.  No property of [undefined] is ever read,
    and [toISOString] is never called on an invalid date.  (Storage is
    taken to accept every write.) *)
Theorem generate_throws_only_its_checks (fuel : nat) (tz : Z) (rnd : nat → nat)
    (ids : nat → string) (startDate endDate : date) (dm : DataManager) (e : error) :
  let run := generate fuel tz rnd ids startDate endDate dm in
  gen_result run = Thrown e →
  (e = NoActiveMembers ∧ active_members dm = [] ∨
   e = NoActivities ∧ activities dm = []) ∧
  gen_store run = dm ∧ gen_trace run = [].
Proof. apply generate_thrown. Qed.

Lemma generate_throws_only_its_checks_witness :
  gen_store (generate 0 0 (λ _, O) (λ _, "x") None None no_active_store)
  = no_active_store.
Proof.
  apply (generate_throws_only_its_checks 0 0 (λ _, O) (λ _, "x") None None
           no_active_store NoActiveMembers).
  reflexivity.
Defined.

Lemma update_refs_length f refs (l : list obj) :
  length (update_refs f refs l) = length l.
Proof.
  unfold update_refs. revert l.
  induction refs as [|r refs IH]; intros l; [done|].
  cbn. rewrite IH. apply length_alter.
Qed.

Lemma active_refs_nonempty dm : active_members dm ≠ [] → getActiveMembers dm ≠ [].
Proof.
  intros Hm Hnil. apply (f_equal length) in Hnil.
  rewrite getActiveMembers_length in Hnil. by destruct (active_members dm).
Qed.

Lemma reset_heap_valid dm r :
  r ∈ getActiveMembers dm →
  is_Some (update_refs reset_count (getActiveMembers dm) (members dm) !! r).
Proof. apply active_refs_valid, update_refs_length. Qed.

Lemma while_loop_stuck tz rnd activity algorithm endDate members :
  ∀ fuel st, loop_inv members st →
    date_le (currentDate st) endDate = true →
    step_of tz activity (currentDate st) = currentDate st →
    (while_loop fuel tz rnd activity algorithm endDate st).1 = OutOfFuel.
Proof.
  induction fuel as [|fuel IH]; intros st Hinv Hle Hfix; cbn; rewrite Hle; [done|].
  destruct (currentDate st) as [t|] eqn:Ht; [|done].
  destruct (loop_body_progress tz rnd activity algorithm members st t Hinv Ht)
    as (st' & Hbody & Hinv').
  rewrite Hbody.
  destruct (loop_body_inr _ _ _ _ _ _ Hbody) as (r & m & t' & Ht' & _ & _ & Hnext & _).
  assert (t' = t) as -> by congruence.
  rewrite Hfix in Hnext.
  apply IH; [done| |]; by rewrite Hnext.
Qed.

Lemma forEach_activity_stuck fuel tz rnd members startDate endDate algorithm a :
  members ≠ [] → date_le startDate endDate = true →
  step_of tz a startDate = startDate →
  ∀ todo acc heap0 drawn,
    a ∈ todo → (∀ r, r ∈ members → is_Some (heap0 !! r)) →
    (forEach_activity fuel tz rnd todo members startDate endDate algorithm acc
       heap0 drawn).1 = OutOfFuel.
Proof.
  intros Hne Hle Hfix.
  induction todo as [|b todo IH]; intros acc heap0 drawn Hin Hvalid.
  { by apply elem_of_nil in Hin. }
  cbn. unfold generateActivitySchedules.
  pose proof (loop_inv_start members heap0 startDate drawn Hne Hvalid) as Hstart.
  pose proof (while_loop_status tz rnd b algorithm endDate members fuel _ Hstart)
    as [Hs Hinv].
  apply elem_of_cons in Hin as [<- | Hin].
  - pose proof (while_loop_stuck tz rnd a algorithm endDate members fuel _ Hstart
                  Hle Hfix) as Hstuck.
    destruct (while_loop _ _ _ _ _ _ _) as [s st]. cbn in Hstuck. by subst s.
  - destruct (while_loop _ _ _ _ _ _ _) as [s st]. cbn in Hs, Hinv.
    destruct Hs as [-> | ->]; [|done].
    apply IH; [done|apply Hinv].
Qed.

(** X9. A stepping that does not move the date keeps [generate] in its
    loop for ever.  When the window is not empty and some activity's
    step leaves the start date where it is, no amount of iterations
    makes the call return or throw.  That is the case of a
    [frequencyUnit] other than 'days', 'weeks' and 'months', and of a
    frequency of 0 days or weeks. *)
Theorem generate_needs_a_moving_date (tz : Z) (rnd : nat → nat)
    (ids : nat → string) (startDate endDate : date) (dm : DataManager)
    (a : obj) :
  (active_members dm ≠ [] → a ∈ activities dm →
   date_le startDate endDate = true →
   step_of tz a startDate = startDate →
   ∀ fuel, gen_result (generate fuel tz rnd ids startDate endDate dm) = Diverged) ∧
  (get a "frequencyUnit" ≠ VStr "days" → get a "frequencyUnit" ≠ VStr "weeks" →
   get a "frequencyUnit" ≠ VStr "months" →
   step_of tz a startDate = startDate) ∧
  (get a "frequencyUnit" = VStr "days" ∨ get a "frequencyUnit" = VStr "weeks" →
   parseInt (get a "frequency") = Some 0 →
   ∀ s, TimeClip s = Some s → step_of tz a (Some s) = Some s).
Proof.
  split_and!.
  - intros Hm Hin Hle Hfix fuel.
    destruct (generate_run fuel tz rnd ids startDate endDate dm)
      as (_ & _ & _ & _ & Hres & _); [done | by destruct (activities dm); [apply elem_of_nil in Hin|] |].
    rewrite Hres.
    rewrite (forEach_activity_stuck fuel tz rnd (getActiveMembers dm) startDate
               endDate (get (settings dm) "algorithm") a); try done.
    + by apply active_refs_nonempty.
    + apply reset_heap_valid.
  - intros Hd Hw Hmo. unfold step_of, advance.
    assert (Hneq : ∀ s, get a "frequencyUnit" ≠ VStr s →
              strict_eq (get a "frequencyUnit") (VStr s) = false).
    { intros s Hs. unfold strict_eq.
      destruct (get a "frequencyUnit"); try done;
        by rewrite bool_decide_eq_false_2. }
    by rewrite !Hneq.
  - intros Hunit Hzero s Hclip.
    unfold step_of. rewrite Hzero.
    destruct Hunit as [-> | ->].
    + rewrite advance_days. by rewrite Z.add_0_r.
    + rewrite advance_weeks. by rewrite Z.add_0_r.
Qed.

Lemma generate_needs_a_moving_date_witness :
  let dm := with_activities [sample_activity "7" "Standup" "1" "years"] sample_store in
  gen_result (generate 1000 0 (λ _, O) (λ _, "x") (Date_parse "2024-01-01")
                (Date_parse "2024-01-02") dm) = Diverged.
Proof.
  intros dm.
  destruct (generate_needs_a_moving_date 0 (λ _, O) (λ _, "x")
              (Date_parse "2024-01-01") (Date_parse "2024-01-02") dm
              (sample_activity "7" "Standup" "1" "years")) as (Hrun & Hunit & _).
  apply Hrun.
  - discriminate.
  - apply list_elem_of_here.
  - reflexivity.
  - apply Hunit; discriminate.
Defined.

Lemma forEach_activity_invariant_in (K : list occurrence → list obj → Prop)
    fuel tz rnd members startDate endDate algorithm (all : list obj) :
  (∀ activity acc heap0 drawn,
     activity ∈ all → K acc heap0 →
     let st := (generateActivitySchedules fuel tz rnd activity members startDate
                  endDate algorithm heap0 drawn).2 in
     K (acc ++ emitted st) (heap st)) →
  ∀ todo acc heap0 drawn,
    (∀ a, a ∈ todo → a ∈ all) → K acc heap0 →
    let out := (forEach_activity fuel tz rnd todo members startDate endDate
                  algorithm acc heap0 drawn).2 in
    K out.1.1 out.1.2.
Proof.
  intros Hstep. induction todo as [|a todo IH]; intros acc heap0 drawn Hsub HK; cbn.
  { done. }
  pose proof (Hstep a acc heap0 drawn (Hsub a (list_elem_of_here _ _)) HK) as HK'.
  cbn zeta in HK'.
  destruct (generateActivitySchedules _ _ _ _ _ _ _ _ _ _) as [s st].
  cbn in HK'. destruct s; try done.
  apply IH; [|done]. intros b Hb. apply Hsub. by apply list_elem_of_further.
Qed.

Lemma update_refs_untouched f refs (l : list obj) r :
  r ∉ refs → update_refs f refs l !! r = l !! r.
Proof.
  unfold update_refs. revert l.
  induction refs as [|x refs IH]; intros l Hr; [done|].
  cbn. rewrite IH by (intros ?; apply Hr; by apply list_elem_of_further).
  apply list_lookup_alter_ne. intros ->. apply Hr, list_elem_of_here.
Qed.

Lemma active_ref_member dm r :
  r ∈ getActiveMembers dm → ∃ m, members dm !! r = Some m ∧ m ∈ active_members dm.
Proof.
  intros Hr. destruct (refs_from_sat is_active (members dm) [] r Hr) as (m & Hm & Hp).
  exists m. split; [done|]. apply list_elem_of_filter. split; [done|].
  by eapply list_elem_of_lookup_2.
Qed.

Lemma reset_count_zero dm r :
  r ∈ getActiveMembers dm →
  count_of (update_refs reset_count (getActiveMembers dm) (members dm)) r = Some 0.
Proof.
  intros Hr. destruct (refs_from_sat is_active (members dm) [] r Hr) as (m & Hm & Hp).
  cbn in Hm. unfold count_of. rewrite reset_heap, list_lookup_fmap, Hm. cbn.
  rewrite Hp. unfold reset_count. by rewrite get_set_eq.
Qed.

Lemma assignments_snoc r occs occ :
  assignments r (occs ++ [occ])
  = (assignments r occs + if decide (occ_member occ = r) then 1 else 0)%nat.
Proof.
  unfold assignments. rewrite filter_app, length_app. f_equal.
  destruct (decide (occ_member occ = r)) as [Heq|Hne].
  - by rewrite filter_cons_True.
  - by rewrite filter_cons_False.
Qed.

Lemma accounted_start dm :
  accounted dm [] (update_refs reset_count (getActiveMembers dm) (members dm)).
Proof.
  split_and!.
  - intros r Hr. by rewrite reset_count_zero.
  - intros r key Hkey. by apply reset_fields.
  - intros r Hr. by apply update_refs_untouched.
  - apply update_refs_length.
  - constructor.
Qed.

Lemma accounted_pass dm tz rnd activity algorithm acc st st' :
  activity ∈ activities dm →
  sortedMembers st ≡ₚ getActiveMembers dm →
  accounted dm (acc ++ emitted st) (heap st) →
  loop_body tz rnd activity algorithm st = inr st' →
  accounted dm (acc ++ emitted st') (heap st').
Proof.
  intros Hact Hperm (Hcount & Hfields & Hrest & Hlen & Hocc) Hbody.
  destruct (loop_body_inr _ _ _ _ _ _ Hbody)
    as (r & m & t & Ht & Hm & Hsel & _ & Hheap & Hem).
  assert (Hr : r ∈ getActiveMembers dm).
  { rewrite <- Hperm. by eapply select_in. }
  rewrite Hheap, Hem, app_assoc.
  split_and!.
  - intros r' Hr'. rewrite assignments_snoc. cbn [occ_member].
    destruct (decide (r = r')) as [<-|Hne].
    + rewrite (count_of_increment_eq _ _ _ (Hcount r Hr)). f_equal. lia.
    + rewrite count_of_increment_ne by done. rewrite (Hcount r' Hr').
      f_equal. lia.
  - intros r' key Hkey. rewrite member_field_increment by done. by apply Hfields.
  - intros r' Hr'. rewrite list_lookup_alter_ne by (by intros ->). by apply Hrest.
  - by rewrite length_alter.
  - apply Forall_app. split; [done|]. constructor; [|constructor].
    cbn [occ_member occ_entry].
    destruct (make_entry_fields activity m t) as (Hid & Hname & Hmid & Hmname & _ & Hnot).
    split_and!; [done| |done|by exists activity].
    unfold names_member. cbn [occ_member occ_entry].
    rewrite <- !Hfields by done. unfold member_field. rewrite Hm. cbn. done.
Qed.

Lemma generate_accounted fuel tz rnd ids startDate endDate dm :
  active_members dm ≠ [] → activities dm ≠ [] →
  let run := generate fuel tz rnd ids startDate endDate dm in
  accounted dm (gen_trace run) (members (gen_store run)).
Proof.
  intros Hm Ha. cbn zeta.
  destruct (generate_run fuel tz rnd ids startDate endDate dm Hm Ha)
    as (-> & -> & _).
  apply (forEach_activity_invariant_in (accounted dm) fuel tz rnd
           (getActiveMembers dm) startDate endDate (get (settings dm) "algorithm")
           (activities dm)); [|done|apply accounted_start].
  intros activity acc heap0 drawn Hact HK.
  apply (generateActivitySchedules_invariant (accounted dm)); [|done].
  intros st st' Hperm HK' Hbody. by eapply accounted_pass.
Qed.

Lemma assignments_total_snoc (refs : list nat) (occs : list occurrence) occ :
  sum_list_with (λ r, assignments r (occs ++ [occ])) refs
  = (sum_list_with (λ r, assignments r occs) refs
     + length (filter (λ x, x = occ_member occ) refs))%nat.
Proof.
  induction refs as [|x refs IH]; [done|].
  cbn [sum_list_with]. rewrite IH, assignments_snoc.
  destruct (decide (occ_member occ = x)) as [Heq|Hne].
  - rewrite filter_cons_True by done. cbn. lia.
  - rewrite filter_cons_False by done. lia.
Qed.

Lemma assignments_total (refs : list nat) (occs : list occurrence) :
  NoDup refs → Forall (λ occ, occ_member occ ∈ refs) occs →
  sum_list_with (λ r, assignments r occs) refs = length occs.
Proof.
  intros Hnd. induction occs as [|occ occs IH] using rev_ind; intros Hall.
  { clear Hnd. induction refs as [|x refs IHr]; [done|].
    cbn [sum_list_with]. by rewrite IHr. }
  apply Forall_app in Hall as [Hall Hocc]. inversion_clear Hocc as [|?? Hin _].
  rewrite assignments_total_snoc, (IH Hall), filter_eq_NoDup, length_app by done.
  done.
Qed.

(** X10. The participation counts are the books of the run.  After a
    call of [generate] that got past its two checks, the count of every
    active member is the number of occurrences the run assigned to that
    member, and these counts add up to the number of occurrences.
    Members that are not active are as they were; of the active ones
    nothing but the count has changed; the activities and the settings
    are untouched. *)
Theorem generate_keeps_the_books (fuel : nat) (tz : Z) (rnd : nat → nat)
    (ids : nat → string) (startDate endDate : date) (dm : DataManager) :
  active_members dm ≠ [] → activities dm ≠ [] →
  let run := generate fuel tz rnd ids startDate endDate dm in
  (∀ r, r ∈ getActiveMembers dm →
     count_of (members (gen_store run)) r
     = Some (Z.of_nat (assignments r (gen_trace run)))) ∧
  sum_list_with (λ r, assignments r (gen_trace run)) (getActiveMembers dm)
    = length (gen_trace run) ∧
  (∀ r, r ∉ getActiveMembers dm →
     members (gen_store run) !! r = members dm !! r) ∧
  (∀ r key, key ≠ "participationCount" →
     member_field (members (gen_store run)) r key
     = member_field (members dm) r key) ∧
  length (members (gen_store run)) = length (members dm) ∧
  activities (gen_store run) = activities dm ∧
  settings (gen_store run) = settings dm.
Proof.
  intros Hm Ha run.
  destruct (generate_accounted fuel tz rnd ids startDate endDate dm Hm Ha)
    as (Hcount & Hfields & Hrest & Hlen & Hocc).
  destruct (generate_run fuel tz rnd ids startDate endDate dm Hm Ha)
    as (_ & _ & Hacts & Hset & _).
  split_and!; try done.
  apply assignments_total; [apply refs_from_NoDup|].
  eapply Forall_impl; [exact Hocc|]. by intros occ (? & _).
Qed.

Lemma generate_keeps_the_books_witness :
  let run := generate 10 0 (λ _, O) (λ k, pretty k) (Date_parse "2024-01-01")
               (Date_parse "2024-01-31") planning_store in
  sum_list_with (λ r, assignments r (gen_trace run)) (getActiveMembers planning_store)
  = length (gen_trace run).
Proof.
  destruct (generate_keeps_the_books 10 0 (λ _, O) (λ k, pretty k)
              (Date_parse "2024-01-01") (Date_parse "2024-01-31") planning_store)
    as (_ & Htotal & _); [discriminate..|].
  exact Htotal.
Defined.

(** X11. Every entry [generate] returns names records of the data
    manager: its [activityId] and [activityName] are the [id] and [name]
    of one of the activities, its [memberId] and [memberName] those of a
    member whose status is 'active' (a member that is not active is
    never assigned), it is not yet notified, and its [id] is the one
    [addSchedule] gave it.  This holds for every algorithm setting. *)
Theorem generated_entries_name_records (fuel : nat) (tz : Z) (rnd : nat → nat)
    (ids : nat → string) (startDate endDate : date) (dm : DataManager)
    (entries : list obj) :
  gen_result (generate fuel tz rnd ids startDate endDate dm) = Returned entries →
  ∀ i x, entries !! i = Some x →
    (∃ a, a ∈ activities dm ∧ get x "activityId" = get a "id" ∧
          get x "activityName" = get a "name") ∧
    (∃ m, m ∈ active_members dm ∧ get x "memberId" = get m "id" ∧
          get x "memberName" = get m "name") ∧
    get x "notified" = VBool false ∧
    get x "id" = VStr (ids i).
Proof.
  intros Hret i x Hx.
  destruct (active_members dm) as [|m0 ms] eqn:Hm.
  { revert Hret. unfold generate. rewrite getActiveMembers_length, Hm. done. }
  destruct (activities dm) as [|a0 acts] eqn:Ha.
  { revert Hret. unfold generate. rewrite getActiveMembers_length, Hm, Ha. done. }
  assert (Hm' : active_members dm ≠ []) by (by rewrite Hm).
  assert (Ha' : activities dm ≠ []) by (by rewrite Ha).
  rewrite <- Hm, <- Ha.
  destruct (generate_accounted fuel tz rnd ids startDate endDate dm Hm' Ha')
    as (_ & _ & _ & _ & Hocc).
  destruct (generate_trace_cases fuel tz rnd ids startDate endDate dm)
    as [[_ Hno] | [_ Hentries]]; [by destruct (Hno entries)|].
  specialize (Hentries entries Hret). subst entries.
  apply batch_lookup in Hx as (y & Hy & ->).
  rewrite list_lookup_fmap in Hy.
  destruct (gen_trace _ !! i) as [occ|] eqn:Hi; [|done].
  cbn in Hy. injection Hy as <-.
  rewrite Forall_lookup in Hocc.
  destruct (Hocc i occ Hi) as (Hr & [Hid Hname] & Hnot & a & Hin & Haid & Haname).
  destruct (active_ref_member dm _ Hr) as (m & Hlook & Hact).
  unfold member_field in Hid, Hname. rewrite Hlook in Hid, Hname. cbn in Hid, Hname.
  rewrite !get_set_ne by done. rewrite get_set_eq.
  split_and!; [by exists a|by exists m|done|done].
Qed.

Lemma generated_entries_name_records_witness :
  ∃ x, sample_entries !! 1%nat = Some x ∧
       get x "notified" = VBool false ∧ get x "id" = VStr "1".
Proof.
  assert (Hres : gen_result (generate 5 0 (λ k, k) (λ k, pretty k)
                    (Date_parse "2024-01-01") (Date_parse "2024-01-08") sample_store)
                 = Returned sample_entries)
    by (vm_compute; reflexivity).
  destruct (sample_entries !! 1%nat) as [x|] eqn:Hx;
    [|vm_compute in Hx; discriminate].
  exists x. split; [reflexivity|].
  pose proof (generated_entries_name_records _ _ _ _ _ _ _ _ Hres 1%nat x Hx) as H.
  destruct H as (_ & _ & Hn & Hid).
  split; [exact Hn|exact Hid].
Defined.

Lemma forEach_activity_empty_window fuel tz rnd members startDate endDate algorithm :
  date_le startDate endDate = false →
  ∀ todo acc heap0 drawn,
    forEach_activity fuel tz rnd todo members startDate endDate algorithm acc
      heap0 drawn = (Completed, (acc, heap0, drawn)).
Proof.
  intros Hle. induction todo as [|a todo IH]; intros acc heap0 drawn; [done|].
  cbn. unfold generateActivitySchedules.
  rewrite while_loop_exit by done. cbn. by rewrite app_nil_r, IH.
Qed.

(** X12. On an empty window (the end date before the start date, or
    either of them an invalid date) [generate] still does its clearing:
    with an active member and an activity present it returns no entry,
    whatever the activities are, but the schedules there were are
    discarded, the count of every active member is set to 0, and both
    collections are written to storage. *)
Theorem generate_on_empty_window (fuel : nat) (tz : Z) (rnd : nat → nat)
    (ids : nat → string) (startDate endDate : date) (dm : DataManager) :
  active_members dm ≠ [] → activities dm ≠ [] →
  date_le startDate endDate = false →
  let run := generate fuel tz rnd ids startDate endDate dm in
  let reset := (λ m, if is_active m then reset_count m else m) <$> members dm in
  gen_result run = Returned [] ∧
  schedules (gen_store run) = [] ∧
  members (gen_store run) = reset ∧
  activities (gen_store run) = activities dm ∧
  settings (gen_store run) = settings dm ∧
  localStorage (gen_store run)
    = <["members" := DocArray reset]>
        (<["schedules" := DocArray []]> (localStorage dm)).
Proof.
  intros Hm Ha Hle. cbn zeta.
  rewrite (generate_completed fuel tz rnd ids startDate endDate dm []
             (update_refs reset_count (getActiveMembers dm) (members dm)) O Hm Ha)
    by (by apply forEach_activity_empty_window).
  cbn. by rewrite reset_heap.
Qed.

Lemma generate_on_empty_window_witness :
  schedules (gen_store (generate 0 0 (λ _, O) (λ _, "x")
                          (Date_parse "2024-02-01") (Date_parse "2024-01-01")
                          planning_store)) = [] ∧
  gen_result (generate 0 0 (λ _, O) (λ _, "x") (Date_parse "2024-01-01") None
                planning_store) = Returned [].
Proof.
  split.
  - apply (generate_on_empty_window 0 0 (λ _, O) (λ _, "x")
             (Date_parse "2024-02-01") (Date_parse "2024-01-01") planning_store);
      [discriminate|discriminate|reflexivity].
  - apply (generate_on_empty_window 0 0 (λ _, O) (λ _, "x")
             (Date_parse "2024-01-01") None planning_store);
      [discriminate|discriminate|reflexivity].
Defined.



(** ** Steps of a fixed length *)






(** ** The algorithms that do not sort *)

Lemma select_random rnd st :
  select (VStr "random") rnd st =
    (sortedMembers st !! (rnd (draws st) mod length (sortedMembers st))%nat,
     (memberIndex st, sortedMembers st, S (draws st))).
Proof. reflexivity. Qed.

Lemma select_default algorithm rnd st :
  algorithm ≠ VStr "rotation" → algorithm ≠ VStr "random" →
  algorithm ≠ VStr "balanced" →
  select algorithm rnd st
  = (sortedMembers st !! O, (memberIndex st, sortedMembers st, draws st)).
Proof.
  intros H1 H2 H3. unfold select.
  assert (Hneq : ∀ s, algorithm ≠ VStr s → strict_eq algorithm (VStr s) = false).
  { intros s Hs. unfold strict_eq.
    destruct algorithm; try done; by rewrite bool_decide_eq_false_2. }
  by rewrite !Hneq.
Qed.

(** X15. Under the 'random' algorithm the snapshot of the members,
    sorted by count when the loop starts, is never sorted again, and
    every occurrence consumes one call of [Math.random()]: the [j]-th
    occurrence of an activity goes to the member at the index the
    [j]-th draw of the loop gives. *)
Theorem random_follows_the_draws (fuel : nat) (tz : Z) (rnd : nat → nat)
    (activity : obj) (members : list nat) (startDate endDate : date)
    (heap0 : list obj) (drawn : nat) :
  let st' := (generateActivitySchedules fuel tz rnd activity members startDate
                endDate (VStr "random") heap0 drawn).2 in
  let snapshot := stable_sort (count_le heap0) members in
  sortedMembers st' = snapshot ∧
  draws st' = (drawn + length (emitted st'))%nat ∧
  memberIndex st' = O ∧
  ∀ j occ, emitted st' !! j = Some occ →
    occ_array occ = snapshot ∧
    snapshot !! (rnd (drawn + j)%nat mod length snapshot)%nat
      = Some (occ_member occ).
Proof.
  cbn zeta. unfold generateActivitySchedules.
  set (snapshot := stable_sort (count_le heap0) members).
  apply (while_loop_invariant
           (λ st, sortedMembers st = snapshot ∧
                  draws st = (drawn + length (emitted st))%nat ∧
                  memberIndex st = O ∧
                  ∀ j occ, emitted st !! j = Some occ →
                    occ_array occ = snapshot ∧
                    snapshot !! (rnd (drawn + j)%nat mod length snapshot)%nat
                      = Some (occ_member occ))).
  - intros st st' (Hsorted & Hdraws & Hindex & Hocc) _ Hbody.
    destruct (loop_body_inr _ _ _ _ _ _ Hbody)
      as (r & m & t & _ & _ & Hsel & _ & _ & Hem).
    rewrite select_random in Hsel. injection Hsel as Hr Hi Hs Hd.
    rewrite Hem, length_app, <- Hs, <- Hd, <- Hi, Hdraws. cbn.
    split_and!; [done|lia|done|].
    intros j occ Hj.
    apply lookup_app_Some in Hj as [Hj | [Hlen Hj]]; [by apply Hocc|].
    apply list_lookup_singleton_Some in Hj as [Hj <-]. cbn.
    split; [done|].
    assert (j = length (emitted st)) as -> by lia.
    by rewrite <- Hsorted, <- Hdraws.
  - cbn. split_and!; first [done | lia].
Qed.

Lemma random_follows_the_draws_witness :
  draws (generateActivitySchedules 5 0 (λ k, k)
           (sample_activity "7" "Standup" "1" "weeks") [0%nat; 2%nat]
           (Date_parse "2024-01-01") (Date_parse "2024-01-15") (VStr "random")
           (members sample_store) 4).2
  = (4 + length (emitted (generateActivitySchedules 5 0 (λ k, k)
           (sample_activity "7" "Standup" "1" "weeks") [0%nat; 2%nat]
           (Date_parse "2024-01-01") (Date_parse "2024-01-15") (VStr "random")
           (members sample_store) 4).2))%nat.
Proof.
  exact (proj1 (proj2 (random_follows_the_draws 5 0 (λ k, k)
           (sample_activity "7" "Standup" "1" "weeks") [0%nat; 2%nat]
           (Date_parse "2024-01-01") (Date_parse "2024-01-15")
           (members sample_store) 4))).
Defined.

(** X16. With an [algorithm] setting that is none of 'rotation',
    'random' and 'balanced', every occurrence of an activity goes to one
    and the same member: the first of the members as sorted by count
    when the loop for that activity starts. *)
Theorem unknown_algorithm_assigns_the_first (fuel : nat) (tz : Z)
    (rnd : nat → nat) (activity : obj) (members : list nat)
    (startDate endDate : date) (algorithm : jsval) (heap0 : list obj)
    (drawn : nat) :
  algorithm ≠ VStr "rotation" → algorithm ≠ VStr "random" →
  algorithm ≠ VStr "balanced" →
  let st' := (generateActivitySchedules fuel tz rnd activity members startDate
                endDate algorithm heap0 drawn).2 in
  let snapshot := stable_sort (count_le heap0) members in
  sortedMembers st' = snapshot ∧ draws st' = drawn ∧
  ∀ occ, occ ∈ emitted st' →
    occ_array occ = snapshot ∧ snapshot !! O = Some (occ_member occ).
Proof.
  intros H1 H2 H3. cbn zeta. unfold generateActivitySchedules.
  set (snapshot := stable_sort (count_le heap0) members).
  apply (while_loop_invariant
           (λ st, sortedMembers st = snapshot ∧ draws st = drawn ∧
                  ∀ occ, occ ∈ emitted st →
                    occ_array occ = snapshot ∧
                    snapshot !! O = Some (occ_member occ))).
  - intros st st' (Hsorted & Hdraws & Hocc) _ Hbody.
    destruct (loop_body_inr _ _ _ _ _ _ Hbody)
      as (r & m & t & _ & _ & Hsel & _ & _ & Hem).
    rewrite select_default in Hsel by done. injection Hsel as Hr Hi Hs Hd.
    rewrite Hem, <- Hs, <- Hd.
    split_and!; [done|done|].
    intros occ [Hin | Hin%list_elem_of_singleton]%elem_of_app; [by apply Hocc|].
    subst occ. cbn. by rewrite <- Hsorted.
  - cbn. split_and!; try done. intros occ Hin. by apply elem_of_nil in Hin.
Qed.

Lemma unknown_algorithm_assigns_the_first_witness :
  occ_member <$> emitted (generateActivitySchedules 5 0 (λ k, k)
      (sample_activity "7" "Standup" "1" "weeks") [0%nat; 2%nat]
      (Date_parse "2024-01-01") (Date_parse "2024-01-15") (VStr "fair")
      (members sample_store) 0).2 = [0%nat; 0%nat; 0%nat] ∧
  sortedMembers (generateActivitySchedules 5 0 (λ k, k)
      (sample_activity "7" "Standup" "1" "weeks") [0%nat; 2%nat]
      (Date_parse "2024-01-01") (Date_parse "2024-01-15") (VStr "fair")
      (members sample_store) 0).2 = [0%nat; 2%nat].
Proof.
  split; [vm_compute; reflexivity|].
  destruct (unknown_algorithm_assigns_the_first 5 0 (λ k, k)
      (sample_activity "7" "Standup" "1" "weeks") [0%nat; 2%nat]
      (Date_parse "2024-01-01") (Date_parse "2024-01-15") (VStr "fair")
      (members sample_store) 0) as (Hsorted & _); [discriminate..|].
  rewrite Hsorted. reflexivity.
Defined.

(** ** Reading the schedule back *)

Lemma DayFromYear_mono y1 y2 : y1 ≤ y2 → DayFromYear y1 ≤ DayFromYear y2.
Proof. unfold DayFromYear. intros H. Z.div_mod_to_equations. lia. Qed.

Lemma YearFromDay_four_digits d :
  DayFromYear 0 ≤ d < DayFromYear 10000 → 0 ≤ YearFromDay d ≤ 9999.
Proof.
  intros [Hlo Hhi]. pose proof (YearFromDay_spec d) as [Hy Hy'].
  split.
  - destruct (Z.le_gt_cases 0 (YearFromDay d)) as [|Hneg]; [done|].
    pose proof (DayFromYear_mono (YearFromDay d + 1) 0 ltac:(lia)). lia.
  - destruct (Z.le_gt_cases (YearFromDay d) 9999) as [|Hbig]; [done|].
    pose proof (DayFromYear_mono 10000 (YearFromDay d) ltac:(lia)). lia.
Qed.

Lemma filter_all {A} (P : A → Prop) `{∀ x, Decision (P x)} (l : list A) :
  (∀ x, x ∈ l → P x) → filter P l = l.
Proof.
  induction l as [|x l IH]; intros Hall; [done|].
  rewrite filter_cons_True by (apply Hall, list_elem_of_here).
  f_equal. apply IH. intros y Hy. by apply Hall, list_elem_of_further.
Qed.

Lemma Day_mono t1 t2 : t1 ≤ t2 → Day t1 ≤ Day t2.
Proof. intros H. unfold Day, msPerDay. by apply Z.div_le_mono. Qed.

Lemma Day_of_midnight d : Day (d * msPerDay) = d.
Proof. unfold Day, msPerDay. by rewrite Z.div_mul. Qed.

(** X17. The window a schedule was generated for reads it back whole.
    When [generate] has run from midnight UTC of a day (as the dates of
    the generate dialog are) to an end date, in years 0 to 9999, then
    [getSchedulesByDateRange] with the same two dates returns every
    entry that was generated, in order: the date text an entry carries
    parses to an instant of the window. *)
Theorem range_query_returns_the_batch (fuel : nat) (tz : Z) (rnd : nat → nat)
    (ids : nat → string) (d0 e : Z) (dm : DataManager) :
  active_members dm ≠ [] → activities dm ≠ [] →
  Forall well_formed_activity (activities dm) →
  DayFromYear 0 ≤ d0 → d0 * msPerDay ≤ e → e < DayFromYear 10000 * msPerDay →
  (e - d0 * msPerDay) / msPerDay + 1 ≤ Z.of_nat fuel →
  let run := generate fuel tz rnd ids (Some (d0 * msPerDay)) (Some e) dm in
  ∃ entries,
    gen_result run = Returned entries ∧
    getSchedulesByDateRange (Some (d0 * msPerDay)) (Some e) (gen_store run)
      = entries.
Proof.
  intros Hm Ha Hwf Hd0 Hse He Hfuel run. subst run.
  set (s := d0 * msPerDay) in *.
  destruct (counts_exist tz s e (activities dm) Hwf Hse) as (counts & Hcounts).
  destruct (generate_returns fuel tz rnd ids (Some s) (Some e) dm Hm Ha)
    as (occss & Hoccs & Htrace & Hres & Hss & _).
  { intros a Hin. apply list_elem_of_lookup in Hin as [i Hi].
    destruct (Forall2_lookup_l _ _ _ _ _ Hcounts Hi) as (n & _ & Hn & _ & Hle).
    exists n. split; [done|lia]. }
  eexists. split; [exact Hres|].
  unfold getSchedulesByDateRange. rewrite Hss.
  apply filter_all. intros x Hx.
  apply list_elem_of_lookup in Hx as [i Hi].
  apply batch_lookup in Hi as (y & Hy & ->).
  rewrite list_lookup_fmap in Hy.
  destruct (mjoin occss !! i) as [occ|] eqn:Hocc; [|done].
  cbn in Hy. injection Hy as <-.
  destruct (occurrences_of_run_in_window tz (getActiveMembers dm) s (Some e)
              (activities dm) occss occ Hwf Hoccs)
    as (_ & _ & t & e' & Hdate & [= <-] & Hst & Hte).
  { by eapply list_elem_of_lookup_2. }
  rewrite get_set_ne by done. rewrite Hdate. cbn [new_Date].
  assert (Hday : d0 ≤ Day t).
  { rewrite <- (Day_of_midnight d0). by apply Day_mono. }
  assert (Hlow : Day t * msPerDay ≤ t).
  { pose proof (time_of_day_split t). unfold TimeWithinDay, msPerDay in *.
    pose proof (Z.mod_pos_bound t 86400000 ltac:(lia)). lia. }
  rewrite Date_parse_date_text.
  - cbn. apply andb_true_iff. split; apply Z.leb_le; subst s;
      unfold msPerDay in *; nia.
  - apply YearFromDay_four_digits. unfold msPerDay in *. split; [lia|nia].
Qed.

Lemma range_query_returns_the_batch_witness :
  ∃ entries,
    gen_result (generate 31 28800000 (λ k, k) (λ k, pretty k)
                  (Some (19723 * msPerDay)) (Some 1706659200000) planning_store)
      = Returned entries ∧
    getSchedulesByDateRange (Some (19723 * msPerDay)) (Some 1706659200000)
      (gen_store (generate 31 28800000 (λ k, k) (λ k, pretty k)
                    (Some (19723 * msPerDay)) (Some 1706659200000) planning_store))
      = entries.
Proof.
  apply (range_query_returns_the_batch 31 28800000 (λ k, k) (λ k, pretty k)
           19723 1706659200000 planning_store).
  - discriminate.
  - discriminate.
  - repeat constructor; apply sample_activity_well_formed; auto.
  - vm_compute. discriminate.
  - vm_compute. discriminate.
  - vm_compute. reflexivity.
  - vm_compute. discriminate.
Defined.

(** ** The next entries *)

Lemma insert_sorted_sorted {A} (key : A → Z) (le : A → A → bool) x l :
  (∀ a b, a ∈ x :: l → b ∈ x :: l → le a b = (key a <=? key b)) →
  StronglySorted (λ a b, key a ≤ key b) l →
  StronglySorted (λ a b, key a ≤ key b) (insert_sorted le x l).
Proof.
  induction l as [|y l IH]; intros Hle Hsorted; cbn.
  { repeat constructor. }
  inversion_clear Hsorted as [|?? Hl Hy].
  rewrite Hle by (repeat constructor).
  destruct (Z.leb_spec (key x) (key y)) as [Hxy | Hyx].
  - constructor; [by constructor|]. constructor; [done|].
    eapply Forall_impl; [exact Hy|]. cbn. intros. lia.
  - constructor.
    + apply IH; [|done]. intros a b Ha Hb. apply Hle.
      * apply elem_of_cons in Ha as [-> | Ha]; [constructor|].
        by do 2 apply list_elem_of_further.
      * apply elem_of_cons in Hb as [-> | Hb]; [constructor|].
        by do 2 apply list_elem_of_further.
    + rewrite insert_sorted_perm. constructor; [lia|done].
Qed.

Lemma stable_sort_sorted {A} (key : A → Z) (le : A → A → bool) l :
  (∀ a b, a ∈ l → b ∈ l → le a b = (key a <=? key b)) →
  StronglySorted (λ a b, key a ≤ key b) (stable_sort le l).
Proof.
  induction l as [|x l IH]; intros Hle; cbn; [constructor|].
  apply insert_sorted_sorted.
  - intros a b Ha Hb. apply Hle.
    + apply elem_of_cons in Ha as [-> | Ha]; [constructor|].
      apply list_elem_of_further. by rewrite <- (stable_sort_perm le l).
    + apply elem_of_cons in Hb as [-> | Hb]; [constructor|].
      apply list_elem_of_further. by rewrite <- (stable_sort_perm le l).
  - apply IH. intros a b Ha Hb. apply Hle; by apply list_elem_of_further.
Qed.

Lemma slice0_length {A} (limit : Z) (l : list A) :
  0 ≤ limit → length (slice0 limit l) = Nat.min (Z.to_nat limit) (length l).
Proof.
  intros Hl. unfold slice0. rewrite length_take.
  destruct (Z.ltb_spec limit 0); lia.
Qed.

(** X18. [getUpcomingSchedules] returns the first entries of what is to
    come.  The entries whose date is a valid date at or after the local
    midnight that began today are put in ascending order of date, and
    the result is a prefix of that order: every entry returned is dated
    no later than any upcoming entry left out.  With a limit that is not
    negative (10 when none is given) the result has that many entries,
    or all the upcoming ones if there are fewer. *)
Theorem upcoming_are_the_next_ones (tz now : Z) (limit : option Z)
    (dm : DataManager) :
  let result := getUpcomingSchedules tz now limit dm in
  let upcoming :=
    filter (λ s, date_le (setHours0 tz (Some now)) (new_Date (get s "date")) = true)
      (schedules dm) in
  ∃ rest,
    result ++ rest ≡ₚ upcoming ∧
    StronglySorted
      (λ a b, date_le (new_Date (get a "date")) (new_Date (get b "date")) = true)
      (result ++ rest) ∧
    (0 ≤ default 10 limit →
     length result = Nat.min (Z.to_nat (default 10 limit)) (length upcoming)).
Proof.
  cbn zeta. unfold getUpcomingSchedules.
  set (today := setHours0 tz (Some now)).
  set (upcoming := filter _ (schedules dm)).
  set (sorted := stable_sort date_order upcoming).
  exists (drop (length (slice0 (default 10 limit) sorted)) sorted).
  assert (Hsplit : slice0 (default 10 limit) sorted
                   ++ drop (length (slice0 (default 10 limit) sorted)) sorted
                   = sorted).
  { unfold slice0 at 1 2. rewrite length_take.
    set (k := Z.to_nat _).
    destruct (Nat.le_ge_cases k (length sorted)).
    - rewrite Nat.min_l by done. apply take_drop.
    - rewrite Nat.min_r by done. rewrite take_ge, drop_ge by done.
      apply app_nil_r. }
  rewrite Hsplit. split_and!.
  - apply stable_sort_perm.
  - assert (Hvalid : ∀ a, a ∈ upcoming → ∃ t, new_Date (get a "date") = Some t).
    { intros a [Ha _]%list_elem_of_filter.
      destruct (new_Date (get a "date")) as [t|]; [by exists t|].
      by destruct today. }
    assert (Hsorted : StronglySorted
              (λ a b, default 0 (new_Date (get a "date"))
                      ≤ default 0 (new_Date (get b "date"))) sorted).
    { apply stable_sort_sorted. intros a b Ha Hb. unfold date_order.
      destruct (Hvalid a Ha) as [x ->]. destruct (Hvalid b Hb) as [y ->]. cbn.
      destruct (Z.leb_spec (x - y) 0), (Z.leb_spec x y); lia. }
    assert (Hin : Forall (λ a, a ∈ upcoming) sorted).
    { apply Forall_forall. intros a Ha. by rewrite <- (stable_sort_perm date_order). }
    clear Hsplit. induction Hsorted as [|a l Hl IH Ha]; [constructor|].
    inversion_clear Hin as [|?? Hau Hlu].
    constructor; [by apply IH|].
    rewrite Forall_forall in Ha, Hlu. apply Forall_forall. intros b Hb.
    specialize (Ha b Hb).
    destruct (Hvalid a Hau) as [x Hx]. destruct (Hvalid b (Hlu b Hb)) as [y Hy].
    rewrite Hx, Hy in *. cbn in *. by apply Z.leb_le.
  - intros Hlimit. rewrite slice0_length by done.
    subst sorted. by rewrite (stable_sort_perm date_order upcoming).
Qed.

Lemma upcoming_are_the_next_ones_witness :
  (λ s, get s "id") <$> getUpcomingSchedules 28800000 sample_now (Some 2) notify_store
  = [VStr "a"; VStr "b"] ∧
  length (getUpcomingSchedules 28800000 sample_now None notify_store) = 4%nat.
Proof.
  split; [vm_compute; reflexivity|].
  destruct (upcoming_are_the_next_ones 28800000 sample_now None notify_store)
    as (rest & _ & _ & Hlen).
  rewrite Hlen by (cbn; lia). vm_compute. reflexivity.
Defined.

(** ** Timers *)

Lemma clearInterval_fresh h (tm : timers) :
  h ∉ live tm → live (clearInterval h tm) = live tm.
Proof.
  intros Hh. cbn. apply filter_all. intros x Hx ->. done.
Qed.

Lemma start_eq tz now nm :
  start tz now nm =
    ((checkUpcomingSchedules tz now (manager nm)).1,
     {| checkInterval := Some (S (next_handle (page_timers nm)));
        page_timers := {| live := S (next_handle (page_timers nm))
                                    :: live (page_timers nm);
                          next_handle := S (next_handle (page_timers nm)) |};
        manager := (checkUpcomingSchedules tz now (manager nm)).2 |}).
Proof.
  unfold start, setInterval.
  by destruct (checkUpcomingSchedules tz now (manager nm)).
Qed.

(** X19. [stop] undoes one [start], and only one.  [start] then [stop]
    leaves the live timers of the page as they were.  A second [start] without a [stop] in between
    overwrites the handle of the first: after the [stop] that follows,
    the first timer is still live, no handle is held to clear it
    (another [stop] does nothing), and when it comes due the scan still
    runs. *)
Theorem stop_undoes_one_start (tz now now' : Z) (nm : notifier) :
  timers_ok (page_timers nm) →
  let once := (start tz now nm).2 in
  let twice := (start tz now' once).2 in
  live (page_timers (stop once)) = live (page_timers nm) ∧
  checkInterval (stop once) = None ∧
  (∃ first, checkInterval once = Some first ∧
     first ∈ live (page_timers (stop twice)) ∧
     checkInterval (stop twice) = None ∧
     stop (stop twice) = stop twice ∧
     ∀ later, (fire tz later first (stop twice)).1
              = (checkUpcomingSchedules tz later (manager (stop twice))).1).
Proof.
  intros Hok. cbn zeta. rewrite !start_eq. cbn [snd].
  set (h1 := S (next_handle (page_timers nm))).
  set (dm := (checkUpcomingSchedules tz now (manager nm)).2).
  cbn [manager page_timers next_handle live].
  set (dm' := (checkUpcomingSchedules tz now' dm).2).
  assert (Hfresh : ∀ x, x ∈ live (page_timers nm) → x ≠ h1 ∧ x ≠ S h1).
  { intros x Hx. unfold timers_ok in Hok. rewrite Forall_forall in Hok.
    specialize (Hok _ Hx). subst h1. lia. }
  unfold stop. cbn [checkInterval page_timers manager clearInterval live next_handle].
  split_and!.
  - rewrite filter_cons_False by (by intros ?; auto).
    apply filter_all. intros x Hx. by apply Hfresh.
  - done.
  - exists h1.
    assert (Hlive : filter (λ x, x ≠ S h1) (S h1 :: h1 :: live (page_timers nm))
                    = h1 :: live (page_timers nm)).
    { rewrite filter_cons_False by (by intros ?; auto).
      rewrite filter_cons_True by lia. f_equal.
      apply filter_all. intros x Hx. by apply Hfresh. }
    rewrite Hlive. split_and!; try done.
    + apply list_elem_of_here.
    + intros later. unfold fire.
      cbn [page_timers manager live clearInterval next_handle].
      rewrite Hlive, bool_decide_eq_true_2 by apply list_elem_of_here.
      by destruct (checkUpcomingSchedules tz later dm').
Qed.

Lemma stop_undoes_one_start_witness :
  let nm := {| checkInterval := None; page_timers := no_timers;
               manager := notify_store |} in
  live (page_timers (stop (start 28800000 sample_now nm).2)) = [].
Proof.
  intros nm.
  destruct (stop_undoes_one_start 28800000 sample_now sample_now nm)
    as (Hlive & _); [constructor|].
  exact Hlive.
Defined.

Lemma page_run_without_timers tz events : ∀ nm,
  live (page_timers nm) = [] →
  (page_run tz events nm).1 = [] ∧
  live (page_timers (page_run tz events nm).2) = [].
Proof.
  induction events as [|ev events IH]; intros nm Hlive; [done|].
  cbn [page_run].
  assert (Hstep : ∃ nm', page_step tz nm ev = ([], nm') ∧
                         live (page_timers nm') = []).
  { destruct ev as [h now | updates]; cbn [page_step].
    - unfold fire. rewrite Hlive.
      rewrite bool_decide_eq_false_2 by apply not_elem_of_nil. by exists nm.
    - by eexists. }
  destruct Hstep as (nm' & -> & Hlive').
  destruct (IH nm' Hlive') as [Hsent Hl].
  destruct (page_run tz events nm') as [more nm'']. cbn in *. by subst more.
Qed.

(** X20. Notifications are started at page load or not at all.  When
    the stored settings have notifications switched off as the page
    loads, no timer is registered; and whatever timers come due and
    whatever settings are changed afterwards (switching notifications
    on included), no notification is sent until the page is loaded
    again. *)
Theorem notifications_start_only_at_load (tz now : Z)
    (storage : gmap string document) (dm : DataManager)
    (events : list page_event) :
  new_DataManager storage = Some dm →
  truthy (get (settings dm) "notificationEnabled") = false →
  ∃ nm, init tz now storage = Some ([], nm) ∧
    manager nm = dm ∧ checkInterval nm = None ∧ live (page_timers nm) = [] ∧
    (page_run tz events nm).1 = [] ∧
    live (page_timers (page_run tz events nm).2) = [].
Proof.
  intros Hnew Hoff. unfold init. rewrite Hnew. cbn. rewrite Hoff.
  eexists. split; [done|]. cbn [manager checkInterval page_timers].
  split_and!; try done; by apply page_run_without_timers.
Qed.

Lemma notifications_start_only_at_load_witness :
  let storage : gmap string document :=
    {[ "settings" := DocObject {[ "notificationEnabled" := VBool false;
                                  "notificationDays" := VNum 0 ]};
       "schedules" := DocArray [sample_entry "a" "2024-02-27" false] ]} in
  ∃ nm, init 28800000 sample_now storage = Some ([], nm) ∧
    (page_run 28800000
       [SettingChanged {[ "notificationEnabled" := VBool true ]};
        TimerDue 1 (sample_now + msPerDay)] nm).1 = [].
Proof.
  intros storage.
  assert (Hdm : ∃ dm, new_DataManager storage = Some dm ∧
                      truthy (get (settings dm) "notificationEnabled") = false)
    by (eexists; split; reflexivity).
  destruct Hdm as (dm & Hnew & Hoff).
  destruct (notifications_start_only_at_load 28800000 sample_now storage dm
              [SettingChanged {[ "notificationEnabled" := VBool true ]};
               TimerDue 1 (sample_now + msPerDay)] Hnew Hoff)
    as (nm & Hinit & _ & _ & _ & Hsent & _).
  exists nm. by split.
Defined.
